(** * AI Voice Studio: the audio pipeline of [App.tsx]

    A shallow embedding of the text chunker, the pronunciation rewriter,
    the narration orchestrator and the duplex-session playback scheduler,
    with the properties stated for them. *)

From Stdlib Require Import List ZArith NArith Lia Bool Ascii String QArith Qminmax.
From Stdlib Require Import DecimalString.
Import ListNotations.

Set Implicit Arguments.
Unset Strict Implicit.
Open Scope Z_scope.

(** ** JavaScript strings

    A JavaScript string is a sequence of UTF-16 code units; [length],
    [substring], [lastIndexOf] and [trim] all count code units. *)

Definition code_unit := N.
Definition jstr := list code_unit.

(** Literals of the source, which are all ASCII. *)
Definition lit (s : string) : jstr := map N_of_ascii (list_ascii_of_string s).

Definition jlen (s : jstr) : Z := Z.of_nat (List.length s).

Definition jstr_eqb (a b : jstr) : bool :=
  if list_eq_dec N.eq_dec a b then true else false.

Module JS.

(** WhiteSpace and LineTerminator code points, the set that
    [String.prototype.trim] strips. *)
Definition isWhiteSpace (c : code_unit) : bool :=
  ((c =? 9) || (c =? 10) || (c =? 11) || (c =? 12) || (c =? 13) || (c =? 32)
   || (c =? 160) || (c =? 5760) || ((8192 <=? c) && (c <=? 8202))
   || (c =? 8232) || (c =? 8233) || (c =? 8239) || (c =? 8287)
   || (c =? 12288) || (c =? 65279))%N.

Fixpoint trimStart (s : jstr) : jstr :=
  match s with
  | [] => []
  | c :: s' => if isWhiteSpace c then trimStart s' else s
  end.

Definition trimEnd (s : jstr) : jstr := rev (trimStart (rev s)).

Definition trim (s : jstr) : jstr := trimEnd (trimStart s).

(** [s.substring(a, b)]: both indices are clamped to [0, length] and
    swapped when out of order. *)
Definition substring (s : jstr) (a b : Z) : jstr :=
  let len := jlen s in
  let a' := Z.min (Z.max a 0) len in
  let b' := Z.min (Z.max b 0) len in
  let from := Z.min a' b' in
  let to := Z.max a' b' in
  firstn (Z.to_nat (to - from)) (skipn (Z.to_nat from) s).

(** Scan for the last index [k <= start] holding [c]; [found] is the best
    index seen so far. *)
Fixpoint lastIndexOf_scan (c : code_unit) (s : jstr) (k start found : Z) : Z :=
  match s with
  | [] => found
  | x :: s' =>
      lastIndexOf_scan c s' (k + 1) start
        (if (k <=? start) && (x =? c)%N then k else found)
  end.

(** [s.lastIndexOf(c, fromIndex)] for a one-unit search string: the search
    starts at [fromIndex] clamped to [0, length - 1] and runs backwards;
    -1 when there is no occurrence. *)
Definition lastIndexOf (c : code_unit) (s : jstr) (fromIndex : Z) : Z :=
  let start := Z.min (Z.max fromIndex 0) (jlen s - 1) in
  lastIndexOf_scan c s 0 start (-1).

(** [s.startsWith(p)], [s.endsWith(p)], [s.includes(p)]. *)
Fixpoint startsWith (s p : jstr) : bool :=
  match p, s with
  | [], _ => true
  | _ :: _, [] => false
  | y :: p', x :: s' => (x =? y)%N && startsWith s' p'
  end.

Definition endsWith (s p : jstr) : bool := startsWith (rev s) (rev p).

Fixpoint includes (s p : jstr) : bool :=
  startsWith s p ||
  match s with
  | [] => false
  | _ :: s' => includes s' p
  end.

End JS.

(** ** TextChunker: [splitTextIntoChunks]

    The [while] loop of the source, with the iterations counted by [fuel];
    [None] is a loop that has not finished within [fuel] iterations. *)

Definition SPACE : code_unit := 32%N.
Definition NEWLINE : code_unit := 10%N.

Definition nextEndPos (text : jstr) (maxChars currentPos : Z) : Z :=
  let endPos := currentPos + maxChars in
  let endPos := if endPos >? jlen text then jlen text else endPos in
  if endPos <? jlen text then
    let lastSpace := JS.lastIndexOf SPACE text endPos in
    let lastNewline := JS.lastIndexOf NEWLINE text endPos in
    let breakPoint := Z.max lastSpace lastNewline in
    if breakPoint >? currentPos then breakPoint else endPos
  else endPos.

Fixpoint splitLoop (fuel : nat) (text : jstr) (maxChars currentPos : Z)
    (chunks : list jstr) : option (list jstr) :=
  if currentPos <? jlen text then
    match fuel with
    | O => None
    | S fuel' =>
        let endPos := nextEndPos text maxChars currentPos in
        splitLoop fuel' text maxChars endPos
          (chunks ++ [JS.trim (JS.substring text currentPos endPos)])
    end
  else Some chunks.

Definition nonEmpty (c : jstr) : bool := 0 <? jlen c.

Definition splitTextIntoChunks (fuel : nat) (text : jstr) (maxChars : Z)
    : option (list jstr) :=
  if jlen text <=? maxChars then Some [text]
  else option_map (filter nonEmpty) (splitLoop fuel text maxChars 0 []).

(** The call sites pass no [maxChars]: the default is 3000. *)
Definition DEFAULT_MAX_CHARS : Z := 3000.

(** ** Results of calls that may throw *)

(** What a [throw] carries.  An [Error] has the message given to its
    constructor; the message of the [SyntaxError] raised by [new RegExp] is
    the engine's own wording, so only the offending pattern is kept. *)
Inductive exn :=
| Error (message : jstr)
| SyntaxError (pattern : jstr).

Inductive result (A : Type) :=
| Ok (a : A)
| Throw (e : exn).
Arguments Ok {A} a.
Arguments Throw {A} e.

(** ** Regular expressions [new RegExp(`\\b${word}\\b`, 'gi')]

    The runtime's pattern language is modelled on the fragment the rule
    editor's words fall into: between the two word-boundary assertions, a
    sequence of terms, each an ASCII pattern character or [.], optionally
    followed by one of the quantifiers [*], [+], [?] and a lazy mark [?].
    A word using any other syntax character, or a code unit above 127, is
    outside the fragment; there the model gives no answer. *)

Module RegExp.

Definition DOLLAR : code_unit := 36%N.
Definition AMPERSAND : code_unit := 38%N.
Definition QUOTE : code_unit := 39%N.
Definition STAR : code_unit := 42%N.
Definition PLUS : code_unit := 43%N.
Definition DOT : code_unit := 46%N.
Definition QUESTION : code_unit := 63%N.
Definition BACKTICK : code_unit := 96%N.

(** SyntaxCharacter :: one of ^ $ \ . * + ? ( ) [ ] { } | *)
Definition isSyntaxCharacter (c : code_unit) : bool :=
  ((c =? 94) || (c =? 36) || (c =? 92) || (c =? 46) || (c =? 42) || (c =? 43)
   || (c =? 63) || (c =? 40) || (c =? 41) || (c =? 91) || (c =? 93)
   || (c =? 123) || (c =? 125) || (c =? 124))%N.

Definition isQuantifierChar (c : code_unit) : bool :=
  ((c =? STAR) || (c =? PLUS) || (c =? QUESTION))%N.

(** The characters of [\w], which decide [\b]: without the [u] flag the
    [i] flag adds nothing to them. *)
Definition isWordChar (c : code_unit) : bool :=
  (((97 <=? c) && (c <=? 122)) || ((65 <=? c) && (c <=? 90))
   || ((48 <=? c) && (c <=? 57)) || (c =? 95))%N.

Definition isLineTerminator (c : code_unit) : bool :=
  ((c =? 10) || (c =? 13) || (c =? 8232) || (c =? 8233))%N.

(** Canonicalize under [i] without [u]: the upper-case form of a code
    unit.  A unit above 127 never canonicalizes to one below 128, so against
    the ASCII pattern characters of the fragment only the folding of
    [a]..[z] matters. *)
Definition canonicalize (c : code_unit) : code_unit :=
  if ((97 <=? c) && (c <=? 122))%N then (c - 32)%N else c.

Inductive atom :=
| AChar (c : code_unit)
| ADot.

Inductive quantifier :=
| QOne
| QStar (greedy : bool)
| QPlus (greedy : bool)
| QOpt (greedy : bool).

Definition term := (atom * quantifier)%type.

Inductive parsed :=
| Pattern (ts : list term)
| Invalid
| OutsideFragment.

Definition atomOf (c : code_unit) : option atom :=
  if (c =? DOT)%N then Some ADot
  else if isSyntaxCharacter c || (127 <? c)%N then None
  else Some (AChar c).

Definition quantifierOf (q : code_unit) (greedy : bool) : quantifier :=
  if (q =? STAR)%N then QStar greedy
  else if (q =? PLUS)%N then QPlus greedy
  else QOpt greedy.

Definition consTerm (t : term) (p : parsed) : parsed :=
  match p with
  | Pattern ts => Pattern (t :: ts)
  | other => other
  end.

(** The terms of [word] as they stand between [\b] and [\b].  A quantifier
    with nothing to repeat ([\b] is not quantifiable, nor is a term that
    already has its quantifier) makes the whole pattern invalid. *)
Fixpoint parseTerms (w : jstr) : parsed :=
  match w with
  | [] => Pattern []
  | c :: w1 =>
      if isQuantifierChar c then Invalid
      else
        match atomOf c with
        | None => OutsideFragment
        | Some a =>
            match w1 with
            | [] => Pattern [(a, QOne)]
            | q :: w2 =>
                if isQuantifierChar q then
                  match w2 with
                  | [] => Pattern [(a, quantifierOf q true)]
                  | l :: w3 =>
                      if (l =? QUESTION)%N
                      then consTerm (a, quantifierOf q false) (parseTerms w3)
                      else consTerm (a, quantifierOf q true) (parseTerms w2)
                  end
                else consTerm (a, QOne) (parseTerms w1)
            end
        end
  end.

Definition isWordCharAt (c : option code_unit) : bool :=
  match c with
  | Some x => isWordChar x
  | None => false
  end.

(** [\b] between the code unit before the position and the one at it. *)
Definition isBoundary (prev next : option code_unit) : bool :=
  xorb (isWordCharAt prev) (isWordCharAt next).

Definition atomMatches (a : atom) (c : code_unit) : bool :=
  match a with
  | AChar p => (canonicalize p =? canonicalize c)%N
  | ADot => negb (isLineTerminator c)
  end.

Definition orElse {A} (x y : option A) : option A :=
  match x with
  | Some _ => x
  | None => y
  end.

(** Backtracking match of [ts] followed by the closing [\b], at the head
    of [s]; [prev] is the code unit before [s].  The result is the number
    of code units matched. *)
Fixpoint matchTerms (ts : list term) (prev : option code_unit) (s : jstr)
    {struct ts} : option nat :=
  match ts with
  | [] => if isBoundary prev (hd_error s) then Some O else None
  | (a, q) :: ts' =>
      let one (k : option code_unit -> jstr -> option nat) (s : jstr) :=
        match s with
        | c :: s' => if atomMatches a c then option_map S (k (Some c) s') else None
        | [] => None
        end in
      let many (greedy : bool) :=
        fix rep (prev : option code_unit) (s : jstr) {struct s} : option nat :=
          let stop := matchTerms ts' prev s in
          let more :=
            match s with
            | c :: s' => if atomMatches a c then option_map S (rep (Some c) s') else None
            | [] => None
            end in
          if greedy then orElse more stop else orElse stop more in
      match q with
      | QOne => one (matchTerms ts') s
      | QStar greedy => many greedy prev s
      | QPlus greedy => one (many greedy) s
      | QOpt greedy =>
          if greedy then orElse (one (matchTerms ts') s) (matchTerms ts' prev s)
          else orElse (matchTerms ts' prev s) (one (matchTerms ts') s)
      end
  end.

(** A match starting exactly here: the opening [\b], then the terms. *)
Definition matchAt (ts : list term) (prev : option code_unit) (s : jstr)
    : option nat :=
  if isBoundary prev (hd_error s) then matchTerms ts prev s else None.

(** GetSubstitution for a pattern without capture groups: [$$], [$&],
    [$`] and [$'] are expanded, any other [$] stands for itself. *)
Fixpoint getSubstitution (matched before after template : jstr) : jstr :=
  match template with
  | [] => []
  | c :: rest =>
      if (c =? DOLLAR)%N then
        match rest with
        | [] => [c]
        | d :: r =>
            if (d =? DOLLAR)%N then DOLLAR :: getSubstitution matched before after r
            else if (d =? AMPERSAND)%N then matched ++ getSubstitution matched before after r
            else if (d =? BACKTICK)%N then before ++ getSubstitution matched before after r
            else if (d =? QUOTE)%N then after ++ getSubstitution matched before after r
            else c :: getSubstitution matched before after rest
        end
      else c :: getSubstitution matched before after rest
  end.

(** [String.prototype.replace] with a global pattern: matches are looked
    for from left to right, the search resuming at the end of a match, or
    one unit further after an empty match.  [before] holds, reversed, the
    input already passed; [skip] counts the units of the current match
    still to pass. *)
Fixpoint replaceFrom (ts : list term) (replacement : jstr)
    (before s : jstr) (skip : nat) {struct s} : jstr :=
  match skip with
  | S k =>
      match s with
      | [] => []
      | c :: s' => replaceFrom ts replacement (c :: before) s' k
      end
  | O =>
      match matchAt ts (hd_error before) s with
      | None =>
          match s with
          | [] => []
          | c :: s' => c :: replaceFrom ts replacement (c :: before) s' O
          end
      | Some n =>
          getSubstitution (firstn n s) (rev before) (skipn n s) replacement ++
          match s with
          | [] => []
          | c :: s' =>
              match n with
              | O => c :: replaceFrom ts replacement (c :: before) s' O
              | S k => replaceFrom ts replacement (c :: before) s' k
              end
          end
      end
  end.

(** [text.replace(new RegExp(`\\b${word}\\b`, 'gi'), replacement)]. *)
Definition replace (text word replacement : jstr) : option (result jstr) :=
  match parseTerms word with
  | Pattern ts => Some (Ok (replaceFrom ts replacement [] text O))
  | Invalid => Some (Throw (SyntaxError (lit "\b" ++ word ++ lit "\b")))
  | OutsideFragment => None
  end.

End RegExp.

(** ** PronunciationRewriter *)

Record PronunciationRule := { word : jstr; alias : jstr }.

(** [pronunciationRules.forEach(r => text = text.replace(..., r.alias))]:
    each rule reads the text the previous one left; a throw ends the
    iteration. *)
Fixpoint applyRules (text : jstr) (rules : list PronunciationRule)
    : option (result jstr) :=
  match rules with
  | [] => Some (Ok text)
  | r :: rules' =>
      match RegExp.replace text (word r) (alias r) with
      | Some (Ok text') => applyRules text' rules'
      | other => other
      end
  end.

(** ** The outside world of a production run *)

Definition bytes := list Byte.byte.

(** What a network or SDK call gives back: a value, or a rejection whose
    [message] the caller reads. *)
Inductive reply (A : Type) :=
| Reply (a : A)
| Fails (message : jstr).
Arguments Reply {A} a.
Arguments Fails {A} message.

Inductive SvgProvider :=
| gemini_2_5_tts
| gemini_3_pro
| gemini_3_flash
| gemini_2_5_flash
| elevenlabs
| resemble.

Record CustomVoice := {
  voice_id : jstr;
  voice_name : jstr;
  instruction : jstr;
  baseVoice : jstr
}.

(** [narrationPrebuiltVoices], key and [voiceName] of each entry. *)
Definition narrationPrebuiltVoices : list (jstr * jstr) :=
  [ (lit "Charon (Deep Male)", lit "Charon");
    (lit "Zephyr (Warm Female)", lit "Zephyr");
    (lit "Hyperion (Authoritative Male)", lit "Charon");
    (lit "Puck (Friendly Male)", lit "Puck");
    (lit "Sadachbia (Warm Male)", lit "Puck");
    (lit "Fenrir (Serious Male)", lit "Fenrir");
    (lit "Kore (Clear Female)", lit "Kore");
    (lit "Aura (Calm Female)", lit "Kore") ].

(** A [fetch] response: [res.ok] and what [await res.arrayBuffer()] gives. *)
Record HttpResponse := { ok : bool; arrayBuffer : reply bytes }.

(** The Resemble clip response: [res.ok], and the audio reached through
    [res.json()], [data.item.link] and the second [fetch]. *)
Record ClipResponse := { clip_ok : bool; clip_audio : reply bytes }.

(** One part of a candidate's content: [part.inlineData?.data]. *)
Record Part := { inlineData_data : option jstr }.

(** A string is truthy when it is present and not empty. *)
Definition truthy (s : option jstr) : option jstr :=
  match s with
  | Some (_ :: _) => s
  | _ => None
  end.

Inductive Request :=
| TranslateRequest (model contents : jstr)
| ElevenLabsRequest (voiceId apiKey text : jstr)
| ResembleRequest (projectId apiKey body voice_uuid : jstr)
| GeminiRequest (model text voiceName : jstr).

(** The collaborators of a run.  The calls of the synthesis loop take the
    index of the iteration that makes them, so that two dispatches of one
    text may be answered differently.  [decode] is the base64 decoder of
    [utils/audio]. *)
Record World := {
  translateContent : jstr -> jstr -> reply (option jstr);
  elevenLabsFetch : nat -> jstr -> jstr -> jstr -> reply HttpResponse;
  resembleFetch : nat -> jstr -> jstr -> jstr -> jstr -> reply ClipResponse;
  generateContent : nat -> jstr -> jstr -> jstr -> reply (option (list Part));
  decode : jstr -> reply bytes
}.

(** Modelled from the spec: [concatenateBuffers] of [utils/audio], which is
    not among the sources; the buffers in input order, nothing re-encoded. *)
Definition concatenateBuffers (buffers : list bytes) : bytes := List.concat buffers.

(** The blob behind [audioUrl].  [pcmToWavBlob] of [utils/audio] is kept as
    the constructor applied to its arguments. *)
Inductive Blob :=
| MpegBlob (data : bytes)
| WavBlob (pcm : bytes) (sampleRate channels : Z).

Definition decimal (n : nat) : jstr := lit (NilEmpty.string_of_uint (Nat.to_uint n)).

(** ** NarrationOrchestrator: [generateNarration] of [App.tsx] *)

Module App.

Record Studio := {
  narrationText : jstr;
  pronunciationRules : list PronunciationRule;
  narrationLanguage : jstr;
  narrationProvider : SvgProvider;
  customVoices : list CustomVoice;
  selectedVoiceKey : jstr;
  elevenLabsVoiceId : jstr;
  elevenLabsKey : jstr;
  resembleProjectId : jstr;
  resembleKey : jstr;
  resembleVoiceId : jstr
}.

(** The state a run leaves behind, and the requests it sent, in order.
    The status line is shown only while [isGenerating] holds and is left
    out. *)
Record Run := {
  isGenerating : bool;
  error : option exn;
  audioUrl : option Blob;
  requests : list Request
}.

Definition SPEAK_OPEN : jstr := lit "<speak>".
Definition SPEAK_CLOSE : jstr := lit "</speak>".

(** Lines 544-548: the chunk as it is handed to the provider branch. *)
Definition rewrap (isSsml : bool) (chunk : jstr) : jstr :=
  if isSsml then
    let c := if negb (JS.startsWith chunk SPEAK_OPEN) then SPEAK_OPEN ++ chunk else chunk in
    if negb (JS.endsWith c SPEAK_CLOSE) then c ++ SPEAK_CLOSE else c
  else chunk.

Definition targetModel (p : SvgProvider) : jstr :=
  match p with
  | gemini_3_pro => lit "gemini-3-pro-preview"
  | gemini_3_flash => lit "gemini-3-flash-preview"
  | gemini_2_5_flash => lit "gemini-2.5-flash-native-audio-preview-09-2025"
  | _ => lit "gemini-2.5-flash-preview-tts"
  end.

Definition findVoice (vs : list CustomVoice) (key : jstr) : option CustomVoice :=
  find (fun v => jstr_eqb (voice_id v) key) vs.

Definition prebuiltVoiceName (key : jstr) : jstr :=
  match find (fun e => jstr_eqb (fst e) key) narrationPrebuiltVoices with
  | Some e => snd e
  | None => lit "Charon"
  end.

(** The first part whose inline data is truthy ([break] on the first). *)
Fixpoint firstInlineData (parts : list Part) : option jstr :=
  match parts with
  | [] => None
  | p :: parts' =>
      match truthy (inlineData_data p) with
      | Some d => Some d
      | None => firstInlineData parts'
      end
  end.

(** What a custom profile puts before the chunk in the primary engine's
    request: [`[Instruction: ${customProfile.instruction}] `]. *)
Definition instructionPrefix (customProfile : option CustomVoice) : jstr :=
  match customProfile with
  | Some v => lit "[Instruction: " ++ instruction v ++ lit "] "
  | None => []
  end.

Definition baseVoiceName (customProfile : option CustomVoice) (key : jstr) : jstr :=
  match customProfile with
  | Some v => baseVoice v
  | None => prebuiltVoiceName key
  end.

(** The request the provider branch sends for [chunkToSynthesize]. *)
Definition requestOf (st : Studio) (chunkToSynthesize : jstr) : Request :=
  match narrationProvider st with
  | elevenlabs =>
      ElevenLabsRequest (elevenLabsVoiceId st) (elevenLabsKey st) chunkToSynthesize
  | resemble =>
      ResembleRequest (resembleProjectId st) (resembleKey st) chunkToSynthesize
        (resembleVoiceId st)
  | p =>
      let customProfile := findVoice (customVoices st) (selectedVoiceKey st) in
      GeminiRequest (targetModel p)
        (instructionPrefix customProfile ++ chunkToSynthesize)
        (baseVoiceName customProfile (selectedVoiceKey st))
  end.

(** The body of the inner [try] for chunk [i] (0-based): either the buffer
    pushed on [audioParts] (none when the primary engine returned no inline
    data) or the message of what was thrown. *)
Definition synthesizeChunk (w : World) (st : Studio) (i : nat)
    (chunkToSynthesize : jstr) : reply (option bytes) :=
  match narrationProvider st with
  | elevenlabs =>
      match elevenLabsFetch w i (elevenLabsVoiceId st) (elevenLabsKey st) chunkToSynthesize with
      | Fails m => Fails m
      | Reply res =>
          if ok res then
            match arrayBuffer res with
            | Reply b => Reply (Some b)
            | Fails m => Fails m
            end
          else Fails (lit "ElevenLabs API Failed.")
      end
  | resemble =>
      match resembleFetch w i (resembleProjectId st) (resembleKey st) chunkToSynthesize (resembleVoiceId st) with
      | Fails m => Fails m
      | Reply res =>
          if clip_ok res then
            match clip_audio res with
            | Reply b => Reply (Some b)
            | Fails m => Fails m
            end
          else Fails (lit "Resemble AI API error.")
      end
  | p =>
      let customProfile := findVoice (customVoices st) (selectedVoiceKey st) in
      match generateContent w i (targetModel p)
              (instructionPrefix customProfile ++ chunkToSynthesize)
              (baseVoiceName customProfile (selectedVoiceKey st)) with
      | Fails m => Fails m
      | Reply parts =>
          match firstInlineData (match parts with Some ps => ps | None => [] end) with
          | Some base64 =>
              match decode w base64 with
              | Reply b => Reply (Some b)
              | Fails m => Fails m
              end
          | None => Reply None
          end
      end
  end.

Definition pushPart (audioParts : list bytes) (part : option bytes) : list bytes :=
  match part with
  | Some b => audioParts ++ [b]
  | None => audioParts
  end.

(** The [for] loop over [chunks], from index [i] on.  The inner [catch]
    rethrows with the 1-based index of the chunk. *)
Fixpoint synthesizeFrom (w : World) (st : Studio) (isSsml : bool) (i : nat)
    (chunks : list jstr) (audioParts : list bytes) (log : list Request)
    : result (list bytes) * list Request :=
  match chunks with
  | [] => (Ok audioParts, log)
  | chunk :: chunks' =>
      let chunkToSynthesize := rewrap isSsml chunk in
      let log := log ++ [requestOf st chunkToSynthesize] in
      match synthesizeChunk w st i chunkToSynthesize with
      | Reply part =>
          synthesizeFrom w st isSsml (S i) chunks' (pushPart audioParts part) log
      | Fails m =>
          (Throw (Error (lit "Sequence " ++ decimal (S i) ++ lit " Failed: " ++ m)), log)
      end
  end.

Definition isMpeg (p : SvgProvider) : bool :=
  match p with
  | elevenlabs | resemble => true
  | _ => false
  end.

Definition translationPrompt (language text : jstr) : jstr :=
  lit "Translate to " ++ language
  ++ lit ". Keep SSML tags <speak>, <break>, <prosody> intact. Script:"
  ++ [NEWLINE] ++ text.

Definition TRANSLATION_MODEL : jstr := lit "gemini-3-pro-preview".
Definition DEFAULT_LANGUAGE : jstr := lit "English (US)".

(** Lines 529-536: the text that goes on to the chunker, or what the
    translation call threw. *)
Definition translateStep (w : World) (st : Studio) (ruleAppliedText : jstr)
    : result jstr * list Request :=
  if negb (jstr_eqb (narrationLanguage st) DEFAULT_LANGUAGE) then
    let contents := translationPrompt (narrationLanguage st) ruleAppliedText in
    (match translateContent w TRANSLATION_MODEL contents with
     | Fails m => Throw (Error m)
     | Reply text =>
         match truthy text with
         | Some t => Ok t
         | None => Ok ruleAppliedText
         end
     end,
     [TranslateRequest TRANSLATION_MODEL contents])
  else (Ok ruleAppliedText, []).

(** [splitTextIntoChunks(ruleAppliedText)]: every iteration moves on by at
    least one code unit, so one unit of fuel per code unit lets the loop
    finish. *)
Definition chunksOf (text : jstr) : option (list jstr) :=
  splitTextIntoChunks (List.length text) text DEFAULT_MAX_CHARS.

(** The outer [catch] and [finally]; [setAudioUrl(null)] was done on entry. *)
Definition failed (e : exn) (log : list Request) : Run :=
  {| isGenerating := false; error := Some e; audioUrl := None; requests := log |}.

(** Lines 538-602: chunking, the synthesis loop and the final blob. *)
Definition finish (w : World) (st : Studio) (isSsml : bool) (text : jstr)
    (log : list Request) : option Run :=
  match chunksOf text with
  | None => None
  | Some chunks =>
      match synthesizeFrom w st isSsml O chunks [] log with
      | (Throw e, log') => Some (failed e log')
      | (Ok audioParts, log') =>
          let concatenated := concatenateBuffers audioParts in
          Some {| isGenerating := false;
                  error := None;
                  audioUrl :=
                    Some (if isMpeg (narrationProvider st)
                          then MpegBlob concatenated
                          else WavBlob concatenated 24000 1);
                  requests := log' |}
      end
  end.

(** The run from the rule-substituted text on (lines 527-603); [isSsml] is
    read off that text before any translation. *)
Definition produce (w : World) (st : Studio) (ruleAppliedText : jstr)
    : option Run :=
  let isSsml := JS.includes ruleAppliedText SPEAK_OPEN in
  match translateStep w st ruleAppliedText with
  | (Throw e, log) => Some (failed e log)
  | (Ok text, log) => finish w st isSsml text log
  end.

(** [generateNarration]: [None] only where a rule's word leaves the modelled
    pattern fragment. *)
Definition generateNarration (w : World) (st : Studio) : option Run :=
  match applyRules (narrationText st) (pronunciationRules st) with
  | None => None
  | Some (Throw e) => Some (failed e [])
  | Some (Ok ruleAppliedText) => produce w st ruleAppliedText
  end.

End App.

(** ** The single-request [generateNarration] (the other [App.tsx]) *)

Module AppSingle.

Record Studio := {
  geminiKey : jstr;
  narrationText : jstr;
  pronunciationRules : list PronunciationRule;
  previousAudioUrl : option Blob
}.

Record Run := {
  isGenerating : bool;
  error : option exn;
  audioUrl : option Blob;
  requests : list Request
}.

Definition TTS_MODEL : jstr := lit "gemini-2.5-flash-preview-tts".

(** The loop over the parts has no [break]: the last truthy payload wins. *)
Fixpoint lastInlineData (parts : list Part) (base64 : option jstr) : option jstr :=
  match parts with
  | [] => base64
  | p :: parts' =>
      lastInlineData parts'
        (match truthy (inlineData_data p) with
         | Some d => Some d
         | None => base64
         end)
  end.

Definition failed (e : exn) (log : list Request) : Run :=
  {| isGenerating := false; error := Some e; audioUrl := None; requests := log |}.

Definition generateNarration (w : World) (st : Studio) : option Run :=
  match geminiKey st with
  | [] =>
      Some {| isGenerating := false;
              error := Some (Error (lit "Gemini API key is missing."));
              audioUrl := previousAudioUrl st; requests := [] |}
  | _ :: _ =>
      match applyRules (narrationText st) (pronunciationRules st) with
      | None => None
      | Some (Throw e) => Some (failed e [])
      | Some (Ok text) =>
          let log := [GeminiRequest TTS_MODEL text []] in
          match generateContent w O TTS_MODEL text [] with
          | Fails m => Some (failed (Error m) log)
          | Reply parts =>
              match lastInlineData (match parts with Some ps => ps | None => [] end) None with
              | None => Some (failed (Error (lit "No audio returned")) log)
              | Some base64 =>
                  match decode w base64 with
                  | Fails m => Some (failed (Error m) log)
                  | Reply pcm =>
                      Some {| isGenerating := false; error := None;
                              audioUrl := Some (WavBlob pcm 24000 1);
                              requests := log |}
                  end
              end
          end
      end
  end.

End AppSingle.

(** ** DuplexSession and its PlaybackScheduler

    Times are the seconds of the output context's clock, as rationals. *)

Module Duplex.

(** An [AudioBuffer] as [decodeAudioData] hands it over: its length in
    sample frames and its rate; the duration is their quotient. *)
Record AudioBuffer := { frames : N; sampleRate : positive }.

Definition duration (b : AudioBuffer) : Q := Z.of_N (frames b) # sampleRate b.

Inductive Speaker := user | model.

Record TranscriptMessage := { speaker : Speaker; text : jstr; isFinal : bool }.

Inductive Context := InputContext | OutputContext.

(** What the session does to the objects it holds. *)
Inductive Effect :=
| SessionClose
| TrackStop (track : nat)
| ProcessorDisconnect
| ContextClose (c : Context)
| SourceStart (source : nat) (when : Q)
| SourceStop (source : nat).

(** The refs and state of [App] the session uses.  A stream is the list of
    its tracks; a source node is named by a number. *)
Record Session := {
  sessionRef : option nat;
  streamRef : option (list nat);
  scriptProcessorRef : option nat;
  inputAudioContextRef : option positive;
  outputAudioContextRef : option positive;
  sourcesRef : list nat;
  nextStartTimeRef : Q;
  isSessionActive : bool;
  error : option jstr;
  currentInputTranscriptionRef : jstr;
  currentOutputTranscriptionRef : jstr;
  transcript : list TranscriptMessage
}.

(** The state of a freshly mounted [App]. *)
Definition initial : Session :=
  {| sessionRef := None; streamRef := None; scriptProcessorRef := None;
     inputAudioContextRef := None; outputAudioContextRef := None;
     sourcesRef := []; nextStartTimeRef := 0%Q; isSessionActive := false;
     error := None; currentInputTranscriptionRef := [];
     currentOutputTranscriptionRef := []; transcript := [] |}.

Definition finalize (m : TranscriptMessage) : TranscriptMessage :=
  {| speaker := speaker m; text := text m; isFinal := true |}.

Definition whenSome {A} (r : option A) (effects : A -> list Effect) : list Effect :=
  match r with
  | Some a => effects a
  | None => []
  end.

(** [stopSession]. *)
Definition stopSession (s : Session) : Session * list Effect :=
  ({| sessionRef := None;
      streamRef := None;
      scriptProcessorRef := None;
      inputAudioContextRef := None;
      outputAudioContextRef := None;
      sourcesRef :=
        match outputAudioContextRef s with
        | Some _ => []
        | None => sourcesRef s
        end;
      nextStartTimeRef := nextStartTimeRef s;
      isSessionActive := false;
      error := error s;
      currentInputTranscriptionRef := [];
      currentOutputTranscriptionRef := [];
      transcript := map finalize (transcript s) |},
   whenSome (sessionRef s) (fun _ => [SessionClose])
   ++ whenSome (streamRef s) (fun tracks => map TrackStop tracks)
   ++ whenSome (scriptProcessorRef s) (fun _ => [ProcessorDisconnect])
   ++ whenSome (inputAudioContextRef s) (fun _ => [ContextClose InputContext])
   ++ whenSome (outputAudioContextRef s)
        (fun _ => map SourceStop (sourcesRef s) ++ [ContextClose OutputContext])).

(** [startSession] up to the resolution of [ai.live.connect]: the two
    contexts are created and the cursor is set to zero before the
    connection is attempted. *)
Definition startSession (connect : reply nat) (s : Session) : Session :=
  {| sessionRef :=
       match connect with
       | Reply handle => Some handle
       | Fails _ => sessionRef s
       end;
     streamRef := streamRef s;
     scriptProcessorRef := scriptProcessorRef s;
     inputAudioContextRef := Some 16000%positive;
     outputAudioContextRef := Some 24000%positive;
     sourcesRef := sourcesRef s;
     nextStartTimeRef := 0%Q;
     isSessionActive :=
       match connect with
       | Reply _ => true
       | Fails _ => false
       end;
     error :=
       match connect with
       | Reply _ => None
       | Fails m => Some m
       end;
     currentInputTranscriptionRef := currentInputTranscriptionRef s;
     currentOutputTranscriptionRef := currentOutputTranscriptionRef s;
     transcript := transcript s |}.

(** [onopen]: the microphone stream and the capture processor. *)
Definition onopen (tracks : list nat) (processor : nat) (s : Session) : Session :=
  {| sessionRef := sessionRef s;
     streamRef := Some tracks;
     scriptProcessorRef := Some processor;
     inputAudioContextRef := inputAudioContextRef s;
     outputAudioContextRef := outputAudioContextRef s;
     sourcesRef := sourcesRef s;
     nextStartTimeRef := nextStartTimeRef s;
     isSessionActive := isSessionActive s;
     error := error s;
     currentInputTranscriptionRef := currentInputTranscriptionRef s;
     currentOutputTranscriptionRef := currentOutputTranscriptionRef s;
     transcript := transcript s |}.

Definition withPlayback (s : Session) (sources : list nat) (cursor : Q) : Session :=
  {| sessionRef := sessionRef s;
     streamRef := streamRef s;
     scriptProcessorRef := scriptProcessorRef s;
     inputAudioContextRef := inputAudioContextRef s;
     outputAudioContextRef := outputAudioContextRef s;
     sourcesRef := sources;
     nextStartTimeRef := cursor;
     isSessionActive := isSessionActive s;
     error := error s;
     currentInputTranscriptionRef := currentInputTranscriptionRef s;
     currentOutputTranscriptionRef := currentOutputTranscriptionRef s;
     transcript := transcript s |}.

Definition addSource (source : nat) (sources : list nat) : list nat :=
  if existsb (Nat.eqb source) sources then sources else sources ++ [source].

Definition deleteSource (source : nat) (sources : list nat) : list nat :=
  filter (fun x => negb (Nat.eqb source x)) sources.

(** Lines 501-509 of [onmessage], for a decoded buffer: [currentTime] is the
    reading of the output clock, [source] the node just created.  Without
    an output context the handler throws before anything is scheduled. *)
Definition schedule (currentTime : Q) (audioBuffer : AudioBuffer) (source : nat)
    (s : Session) : option (Session * list Effect) :=
  match outputAudioContextRef s with
  | None => None
  | Some _ =>
      let startTime := Qmax currentTime (nextStartTimeRef s) in
      Some (withPlayback s (addSource source (sourcesRef s))
              (startTime + duration audioBuffer)%Q,
            [SourceStart source startTime])
  end.

(** [s.onended]. *)
Definition onended (source : nat) (s : Session) : Session :=
  withPlayback s (deleteSource source (sourcesRef s)) (nextStartTimeRef s).

(** The buffers of one session in arrival order, each with the clock
    reading at which its handler runs and the node created for it. *)
Fixpoint scheduleAll (arrivals : list (Q * AudioBuffer * nat)) (s : Session)
    : option (Session * list Effect) :=
  match arrivals with
  | [] => Some (s, [])
  | (currentTime, audioBuffer, source) :: rest =>
      match schedule currentTime audioBuffer source s with
      | None => None
      | Some (s1, effects1) =>
          match scheduleAll rest s1 with
          | None => None
          | Some (s2, effects2) => Some (s2, effects1 ++ effects2)
          end
      end
  end.

(** What may happen to a session. *)
Inductive Event :=
| Start (connect : reply nat)
| Open (tracks : list nat) (processor : nat)
| Audio (currentTime : Q) (audioBuffer : AudioBuffer) (source : nat)
| Ended (source : nat)
| Stop.

Definition step (e : Event) (s : Session) : Session :=
  match e with
  | Start connect => startSession connect s
  | Open tracks processor => onopen tracks processor s
  | Audio currentTime audioBuffer source =>
      match schedule currentTime audioBuffer source s with
      | Some (s', _) => s'
      | None => s
      end
  | Ended source => onended source s
  | Stop => fst (stopSession s)
  end.

Definition run (events : list Event) (s : Session) : Session :=
  fold_left (fun s e => step e s) events s.

(** The events that stay within the session under way: all but the start
    of a new one. *)
Definition inSession (e : Event) : bool :=
  match e with
  | Start _ => false
  | _ => true
  end.

(** The states an [App] can be in: those some sequence of events leads to. *)
Inductive Reachable : Session -> Prop :=
| reach_initial : Reachable initial
| reach_step e s : Reachable s -> Reachable (step e s).

End Duplex.

(** ** Settings, profiles and rules kept in [localStorage]

    The handlers of [App.tsx] that save and restore what the operator
    enters, with the two modals that feed them. *)

(** [localStorage]: string items under string keys. *)
Definition Storage := jstr -> option jstr.

Definition emptyStorage : Storage := fun _ => None.

Definition getItem (key : jstr) (ls : Storage) : option jstr := ls key.

Definition setItem (key value : jstr) (ls : Storage) : Storage :=
  fun k => if jstr_eqb k key then Some value else ls k.

(** The runtime's [JSON.stringify] and [JSON.parse] on the two kinds of
    value the app stores; a parse that throws gives [None].  Texts that
    parse to values of another shape are outside the model. *)
Record JSON := {
  stringifyVoices : list CustomVoice -> jstr;
  parseVoices : jstr -> option (list CustomVoice);
  stringifyRules : list PronunciationRule -> jstr;
  parseRules : jstr -> option (list PronunciationRule)
}.

Module Store.

Record State := {
  customVoices : list CustomVoice;
  selectedVoiceKey : jstr;
  isCustomVoiceModalOpen : bool;
  isApiKeyModalOpen : bool;
  error : option jstr;
  pronunciationRules : list PronunciationRule;
  resembleKey : jstr;
  elevenLabsKey : jstr;
  elevenLabsVoiceId : jstr;
  resembleProjectId : jstr;
  resembleVoiceId : jstr;
  localStorage : Storage
}.

Definition setCustomVoices (v : list CustomVoice) (st : State) : State :=
  {| customVoices := v;
     selectedVoiceKey := selectedVoiceKey st;
     isCustomVoiceModalOpen := isCustomVoiceModalOpen st;
     isApiKeyModalOpen := isApiKeyModalOpen st;
     error := error st;
     pronunciationRules := pronunciationRules st;
     resembleKey := resembleKey st;
     elevenLabsKey := elevenLabsKey st;
     elevenLabsVoiceId := elevenLabsVoiceId st;
     resembleProjectId := resembleProjectId st;
     resembleVoiceId := resembleVoiceId st;
     localStorage := localStorage st |}.

Definition setSelectedVoiceKey (v : jstr) (st : State) : State :=
  {| customVoices := customVoices st;
     selectedVoiceKey := v;
     isCustomVoiceModalOpen := isCustomVoiceModalOpen st;
     isApiKeyModalOpen := isApiKeyModalOpen st;
     error := error st;
     pronunciationRules := pronunciationRules st;
     resembleKey := resembleKey st;
     elevenLabsKey := elevenLabsKey st;
     elevenLabsVoiceId := elevenLabsVoiceId st;
     resembleProjectId := resembleProjectId st;
     resembleVoiceId := resembleVoiceId st;
     localStorage := localStorage st |}.

Definition setIsCustomVoiceModalOpen (v : bool) (st : State) : State :=
  {| customVoices := customVoices st;
     selectedVoiceKey := selectedVoiceKey st;
     isCustomVoiceModalOpen := v;
     isApiKeyModalOpen := isApiKeyModalOpen st;
     error := error st;
     pronunciationRules := pronunciationRules st;
     resembleKey := resembleKey st;
     elevenLabsKey := elevenLabsKey st;
     elevenLabsVoiceId := elevenLabsVoiceId st;
     resembleProjectId := resembleProjectId st;
     resembleVoiceId := resembleVoiceId st;
     localStorage := localStorage st |}.

Definition setIsApiKeyModalOpen (v : bool) (st : State) : State :=
  {| customVoices := customVoices st;
     selectedVoiceKey := selectedVoiceKey st;
     isCustomVoiceModalOpen := isCustomVoiceModalOpen st;
     isApiKeyModalOpen := v;
     error := error st;
     pronunciationRules := pronunciationRules st;
     resembleKey := resembleKey st;
     elevenLabsKey := elevenLabsKey st;
     elevenLabsVoiceId := elevenLabsVoiceId st;
     resembleProjectId := resembleProjectId st;
     resembleVoiceId := resembleVoiceId st;
     localStorage := localStorage st |}.

Definition setError (v : option jstr) (st : State) : State :=
  {| customVoices := customVoices st;
     selectedVoiceKey := selectedVoiceKey st;
     isCustomVoiceModalOpen := isCustomVoiceModalOpen st;
     isApiKeyModalOpen := isApiKeyModalOpen st;
     error := v;
     pronunciationRules := pronunciationRules st;
     resembleKey := resembleKey st;
     elevenLabsKey := elevenLabsKey st;
     elevenLabsVoiceId := elevenLabsVoiceId st;
     resembleProjectId := resembleProjectId st;
     resembleVoiceId := resembleVoiceId st;
     localStorage := localStorage st |}.

Definition setPronunciationRules (v : list PronunciationRule) (st : State) : State :=
  {| customVoices := customVoices st;
     selectedVoiceKey := selectedVoiceKey st;
     isCustomVoiceModalOpen := isCustomVoiceModalOpen st;
     isApiKeyModalOpen := isApiKeyModalOpen st;
     error := error st;
     pronunciationRules := v;
     resembleKey := resembleKey st;
     elevenLabsKey := elevenLabsKey st;
     elevenLabsVoiceId := elevenLabsVoiceId st;
     resembleProjectId := resembleProjectId st;
     resembleVoiceId := resembleVoiceId st;
     localStorage := localStorage st |}.

Definition setResembleKey (v : jstr) (st : State) : State :=
  {| customVoices := customVoices st;
     selectedVoiceKey := selectedVoiceKey st;
     isCustomVoiceModalOpen := isCustomVoiceModalOpen st;
     isApiKeyModalOpen := isApiKeyModalOpen st;
     error := error st;
     pronunciationRules := pronunciationRules st;
     resembleKey := v;
     elevenLabsKey := elevenLabsKey st;
     elevenLabsVoiceId := elevenLabsVoiceId st;
     resembleProjectId := resembleProjectId st;
     resembleVoiceId := resembleVoiceId st;
     localStorage := localStorage st |}.

Definition setElevenLabsKey (v : jstr) (st : State) : State :=
  {| customVoices := customVoices st;
     selectedVoiceKey := selectedVoiceKey st;
     isCustomVoiceModalOpen := isCustomVoiceModalOpen st;
     isApiKeyModalOpen := isApiKeyModalOpen st;
     error := error st;
     pronunciationRules := pronunciationRules st;
     resembleKey := resembleKey st;
     elevenLabsKey := v;
     elevenLabsVoiceId := elevenLabsVoiceId st;
     resembleProjectId := resembleProjectId st;
     resembleVoiceId := resembleVoiceId st;
     localStorage := localStorage st |}.

Definition setElevenLabsVoiceId (v : jstr) (st : State) : State :=
  {| customVoices := customVoices st;
     selectedVoiceKey := selectedVoiceKey st;
     isCustomVoiceModalOpen := isCustomVoiceModalOpen st;
     isApiKeyModalOpen := isApiKeyModalOpen st;
     error := error st;
     pronunciationRules := pronunciationRules st;
     resembleKey := resembleKey st;
     elevenLabsKey := elevenLabsKey st;
     elevenLabsVoiceId := v;
     resembleProjectId := resembleProjectId st;
     resembleVoiceId := resembleVoiceId st;
     localStorage := localStorage st |}.

Definition setResembleProjectId (v : jstr) (st : State) : State :=
  {| customVoices := customVoices st;
     selectedVoiceKey := selectedVoiceKey st;
     isCustomVoiceModalOpen := isCustomVoiceModalOpen st;
     isApiKeyModalOpen := isApiKeyModalOpen st;
     error := error st;
     pronunciationRules := pronunciationRules st;
     resembleKey := resembleKey st;
     elevenLabsKey := elevenLabsKey st;
     elevenLabsVoiceId := elevenLabsVoiceId st;
     resembleProjectId := v;
     resembleVoiceId := resembleVoiceId st;
     localStorage := localStorage st |}.

Definition setResembleVoiceId (v : jstr) (st : State) : State :=
  {| customVoices := customVoices st;
     selectedVoiceKey := selectedVoiceKey st;
     isCustomVoiceModalOpen := isCustomVoiceModalOpen st;
     isApiKeyModalOpen := isApiKeyModalOpen st;
     error := error st;
     pronunciationRules := pronunciationRules st;
     resembleKey := resembleKey st;
     elevenLabsKey := elevenLabsKey st;
     elevenLabsVoiceId := elevenLabsVoiceId st;
     resembleProjectId := resembleProjectId st;
     resembleVoiceId := v;
     localStorage := localStorage st |}.

Definition setLocalStorage (v : Storage) (st : State) : State :=
  {| customVoices := customVoices st;
     selectedVoiceKey := selectedVoiceKey st;
     isCustomVoiceModalOpen := isCustomVoiceModalOpen st;
     isApiKeyModalOpen := isApiKeyModalOpen st;
     error := error st;
     pronunciationRules := pronunciationRules st;
     resembleKey := resembleKey st;
     elevenLabsKey := elevenLabsKey st;
     elevenLabsVoiceId := elevenLabsVoiceId st;
     resembleProjectId := resembleProjectId st;
     resembleVoiceId := resembleVoiceId st;
     localStorage := v |}.

(** The state of the component when it mounts on [ls]: the [useState]
    defaults. *)
Definition mounted (ls : Storage) : State :=
  {| customVoices := [];
     selectedVoiceKey := lit "Charon (Deep Male)";
     isCustomVoiceModalOpen := false;
     isApiKeyModalOpen := false;
     error := None;
     pronunciationRules := [];
     resembleKey := [];
     elevenLabsKey := [];
     elevenLabsVoiceId := [];
     resembleProjectId := [];
     resembleVoiceId := [];
     localStorage := ls |}.

(** [if (stored) set(stored)]. *)
Definition whenStored (key : jstr) (set : jstr -> State -> State) (st : State) : State :=
  match truthy (getItem key (localStorage st)) with
  | Some stored => set stored st
  | None => st
  end.

(** [if (stored) { try { set(JSON.parse(stored)) } catch (e) {} }]. *)
Definition whenParsed {A} (key : jstr) (parse : jstr -> option A)
    (set : A -> State -> State) (st : State) : State :=
  match truthy (getItem key (localStorage st)) with
  | Some stored =>
      match parse stored with
      | Some v => set v st
      | None => st
      end
  | None => st
  end.

(** The mount effect (lines 291-312). *)
Definition loadStored (json : JSON) (st : State) : State :=
  let st := whenStored (lit "resemble_api_key") setResembleKey st in
  let st := whenStored (lit "elevenlabs_api_key") setElevenLabsKey st in
  let st := whenStored (lit "elevenlabs_voice_id") setElevenLabsVoiceId st in
  let st := whenStored (lit "resemble_project_id") setResembleProjectId st in
  let st := whenStored (lit "resemble_voice_id") setResembleVoiceId st in
  let st := whenParsed (lit "custom_voice_profiles") (parseVoices json) setCustomVoices st in
  whenParsed (lit "pronunciation_rules") (parseRules json) setPronunciationRules st.

Definition store (key value : jstr) (st : State) : State :=
  setLocalStorage (setItem key value (localStorage st)) st.

(** [handleSaveApiKey]. *)
Definition handleSaveApiKey (resemble eleven : jstr) (st : State) : State :=
  let st := store (lit "resemble_api_key") resemble st in
  let st := store (lit "elevenlabs_api_key") eleven st in
  setElevenLabsKey eleven (setResembleKey resemble st).

(** [handleSave] of the API-key modal: the two inputs go to
    [handleSaveApiKey] trimmed, and the modal closes. *)
Definition apiKeyModalSave (resembleKeyInput elevenLabsKeyInput : jstr) (st : State)
    : State :=
  setIsApiKeyModalOpen false
    (handleSaveApiKey (JS.trim resembleKeyInput) (JS.trim elevenLabsKeyInput) st).

(** The [onChange] handlers of the three identifier inputs (lines 733, 750
    and 756). *)
Definition changeElevenLabsVoiceId (value : jstr) (st : State) : State :=
  store (lit "elevenlabs_voice_id") value (setElevenLabsVoiceId value st).

Definition changeResembleVoiceId (value : jstr) (st : State) : State :=
  store (lit "resemble_voice_id") value (setResembleVoiceId value st).

Definition changeResembleProjectId (value : jstr) (st : State) : State :=
  store (lit "resemble_project_id") value (setResembleProjectId value st).

(** [handleSavePronunciationRules]. *)
Definition handleSavePronunciationRules (json : JSON) (rules : list PronunciationRule)
    (st : State) : State :=
  store (lit "pronunciation_rules") (stringifyRules json rules)
    (setPronunciationRules rules st).

(** What the voice modal hands to [onSave]: a profile without its id. *)
Record VoiceData := {
  data_name : jstr;
  data_instruction : jstr;
  data_baseVoice : jstr
}.

Definition newVoiceId (now : N) : jstr :=
  lit "custom-" ++ lit (NilEmpty.string_of_uint (N.to_uint now)).

Definition newVoice (now : N) (voiceData : VoiceData) : CustomVoice :=
  {| voice_id := newVoiceId now;
     voice_name := data_name voiceData;
     instruction := data_instruction voiceData;
     baseVoice := data_baseVoice voiceData |}.

(** [handleSaveCustomVoice]; [now] is the reading of [Date.now()], in
    milliseconds. *)
Definition handleSaveCustomVoice (json : JSON) (now : N) (voiceData : VoiceData)
    (st : State) : State :=
  let updated := customVoices st ++ [newVoice now voiceData] in
  setIsCustomVoiceModalOpen false
    (setSelectedVoiceKey (newVoiceId now)
       (store (lit "custom_voice_profiles") (stringifyVoices json updated)
          (setCustomVoices updated st))).

(** [customVoices.some(cv => cv.id === iv.id)]. *)
Definition known (voices : list CustomVoice) (iv : CustomVoice) : bool :=
  existsb (fun cv => jstr_eqb (voice_id cv) (voice_id iv)) voices.

Definition merge (voices imported : list CustomVoice) : list CustomVoice :=
  voices ++ filter (fun iv => negb (known voices iv)) imported.

(** [reader.onload] of [importVoices], on the text of the chosen file. *)
Definition importVoices (json : JSON) (fileText : jstr) (st : State) : State :=
  match parseVoices json fileText with
  | Some imported =>
      let merged := merge (customVoices st) imported in
      store (lit "custom_voice_profiles") (stringifyVoices json merged)
        (setCustomVoices merged st)
  | None => setError (Some (lit "Invalid Voice Profile File")) st
  end.

End Store.

(** ** The rule editor ([PronunciationModal]) *)

Module PronunciationModal.

Record Editor := {
  localRules : list PronunciationRule;
  newWord : jstr;
  newAlias : jstr
}.

(** [useState(rules)], [useState('')], [useState('')]: the state of the
    editor at its first render, [rules] being the prop of that render.  The
    prop is not read again: later values of the app's rules do not reach
    [localRules]. *)
Definition opened (rules : list PronunciationRule) : Editor :=
  {| localRules := rules; newWord := []; newAlias := [] |}.

Definition isEmpty (s : jstr) : bool :=
  match s with
  | [] => true
  | _ :: _ => false
  end.

(** [handleAddRule]. *)
Definition handleAddRule (ed : Editor) : Editor :=
  if isEmpty (JS.trim (newWord ed)) || isEmpty (JS.trim (newAlias ed)) then ed
  else {| localRules :=
            localRules ed
            ++ [{| word := JS.trim (newWord ed); alias := JS.trim (newAlias ed) |}];
          newWord := [];
          newAlias := [] |}.

(** [rules.filter((_, i) => i !== index)], [i] counted from [from]. *)
Fixpoint filterIndex (from index : nat) (rules : list PronunciationRule)
    : list PronunciationRule :=
  match rules with
  | [] => []
  | r :: rules' =>
      if Nat.eqb from index then filterIndex (S from) index rules'
      else r :: filterIndex (S from) index rules'
  end.

(** [handleRemoveRule]. *)
Definition handleRemoveRule (index : nat) (ed : Editor) : Editor :=
  {| localRules := filterIndex O index (localRules ed);
     newWord := newWord ed;
     newAlias := newAlias ed |}.

(** What the operator does in the editor. *)
Inductive Action :=
| TypeWord (value : jstr)
| TypeAlias (value : jstr)
| AddRule
| RemoveRule (index : nat).

Definition act (a : Action) (ed : Editor) : Editor :=
  match a with
  | TypeWord value =>
      {| localRules := localRules ed; newWord := value; newAlias := newAlias ed |}
  | TypeAlias value =>
      {| localRules := localRules ed; newWord := newWord ed; newAlias := value |}
  | AddRule => handleAddRule ed
  | RemoveRule index => handleRemoveRule index ed
  end.

(** [handleFinalSave], into [handleSavePronunciationRules] of the app. *)
Definition handleFinalSave (json : JSON) (ed : Editor) (st : Store.State) : Store.State :=
  Store.handleSavePronunciationRules json (localRules ed) st.

End PronunciationModal.

(** ** [syncExternalVoices] *)

Module Sync.

Record ExternalVoice := {
  ext_id : jstr;
  ext_name : jstr;
  ext_provider : SvgProvider
}.

Record State := {
  narrationProvider : SvgProvider;
  elevenLabsKey : jstr;
  resembleKey : jstr;
  elevenLabsVoices : list ExternalVoice;
  resembleVoices : list ExternalVoice;
  isSyncingVoices : bool;
  error : option jstr
}.

(** The value of a provider as the string it is in the source. *)
Definition providerName (p : SvgProvider) : jstr :=
  match p with
  | gemini_2_5_tts => lit "gemini-2.5-tts"
  | gemini_3_pro => lit "gemini-3-pro"
  | gemini_3_flash => lit "gemini-3-flash"
  | gemini_2_5_flash => lit "gemini-2.5-flash"
  | elevenlabs => lit "elevenlabs"
  | resemble => lit "resemble"
  end.

Inductive VoicesRequest :=
| ElevenLabsVoices (apiKey : jstr)
| ResembleVoices (apiKey : jstr).

(** The answer to a voices request: [res.ok], and the id and name of each
    entry of [data.voices] (or [data.items]) as [res.json()] and the [map]
    over it give them, or what reading them threw. *)
Record VoicesResponse := {
  voices_ok : bool;
  voices_entries : reply (list (jstr * jstr))
}.

Definition tagged (p : SvgProvider) (entry : jstr * jstr) : ExternalVoice :=
  {| ext_id := fst entry; ext_name := snd entry; ext_provider := p |}.

(** The body of the [try]: the voices to set, or the message thrown. *)
Definition fetchVoices (fetch : VoicesRequest -> reply VoicesResponse)
    (request : VoicesRequest) (failure : jstr) (p : SvgProvider)
    : reply (list ExternalVoice) :=
  match fetch request with
  | Fails m => Fails m
  | Reply res =>
      if voices_ok res then
        match voices_entries res with
        | Reply entries => Reply (map (tagged p) entries)
        | Fails m => Fails m
        end
      else Fails failure
  end.

Definition finished (st : State) (elevenVoices resembleVoices' : list ExternalVoice)
    (err : option jstr) : State :=
  {| narrationProvider := narrationProvider st;
     elevenLabsKey := elevenLabsKey st;
     resembleKey := resembleKey st;
     elevenLabsVoices := elevenVoices;
     resembleVoices := resembleVoices';
     isSyncingVoices := false;
     error := err |}.

Definition syncError (m : jstr) : option jstr := Some (lit "Sync Error: " ++ m).

(** [syncExternalVoices]: the state it leaves and the requests it sent. *)
Definition syncExternalVoices (fetch : VoicesRequest -> reply VoicesResponse)
    (st : State) : State * list VoicesRequest :=
  match narrationProvider st, elevenLabsKey st, resembleKey st with
  | elevenlabs, _ :: _, _ =>
      let request := ElevenLabsVoices (elevenLabsKey st) in
      (match fetchVoices fetch request (lit "ElevenLabs Sync Failed - Check API Key")
               elevenlabs with
       | Reply voices => finished st voices (resembleVoices st) None
       | Fails m => finished st (elevenLabsVoices st) (resembleVoices st) (syncError m)
       end,
       [request])
  | resemble, _, _ :: _ =>
      let request := ResembleVoices (resembleKey st) in
      (match fetchVoices fetch request (lit "Resemble Sync Failed - Check API Key")
               resemble with
       | Reply voices => finished st (elevenLabsVoices st) voices None
       | Fails m => finished st (elevenLabsVoices st) (resembleVoices st) (syncError m)
       end,
       [request])
  | p, _, _ =>
      (finished st (elevenLabsVoices st) (resembleVoices st)
         (syncError (lit "Please provide an API key for " ++ providerName p
                     ++ lit " in Settings.")),
       [])
  end.

End Sync.

(** * The properties' vocabulary *)

Definition notWhiteSpace (c : code_unit) : bool := negb (JS.isWhiteSpace c).

(** A string [trimStart] leaves alone: empty, or led by a non-blank. *)
Definition ledByNonBlank (s : jstr) : Prop :=
  match s with
  | [] => True
  | c :: _ => JS.isWhiteSpace c = false
  end.

(** ** The rewriter as the specification words it

    "Every case-insensitive whole-word match of [rule.word] is replaced by
    [rule.alias]", read from left to right: where the word stands, letter
    case aside, with no character of a word right before it or right after
    it, the alias is written as it is and reading resumes after the word;
    any other code unit is copied.  The words do not say which characters
    make up words, nor what letter case is outside the Latin alphabet: a
    [Reading] settles both. *)

Module Reference.

Record Reading := {
  wordCharacter : code_unit -> bool;
  caseFold : code_unit -> code_unit
}.

(** The code unit before the position reached after reading [m]. *)
Definition lastOf (m : jstr) (prev : option code_unit) : option code_unit :=
  List.last (map Some m) prev.

Section Reading.

Variable rd : Reading.

Definition wordCharacterAt (c : option code_unit) : bool :=
  match c with
  | Some x => wordCharacter rd x
  | None => false
  end.

(** [word] stands at the head of [s], the case of letters ignored. *)
Fixpoint occursAt (word s : jstr) : bool :=
  match word, s with
  | [], _ => true
  | _ :: _, [] => false
  | p :: word', c :: s' => (caseFold rd p =? caseFold rd c)%N && occursAt word' s'
  end.

Definition wholeWordAt (word : jstr) (prev : option code_unit) (s : jstr) : bool :=
  negb (wordCharacterAt prev)
  && occursAt word s
  && negb (wordCharacterAt (nth_error s (List.length word))).

Inductive Rewritten (word alias : jstr)
  : option code_unit -> jstr -> jstr -> Prop :=
| rw_end prev : Rewritten word alias prev [] []
| rw_match prev m rest out :
    wholeWordAt word prev (m ++ rest) = true ->
    List.length m = List.length word ->
    Rewritten word alias (lastOf m prev) rest out ->
    Rewritten word alias prev (m ++ rest) (alias ++ out)
| rw_copy prev c s out :
    wholeWordAt word prev (c :: s) = false ->
    Rewritten word alias (Some c) s out ->
    Rewritten word alias prev (c :: s) (c :: out).

(** Rules in list order, each reading what the previous one wrote. *)
Inductive RewrittenBy : list PronunciationRule -> jstr -> jstr -> Prop :=
| rb_nil text : RewrittenBy [] text text
| rb_cons r rules text text' out :
    Rewritten (word r) (alias r) None text text' ->
    RewrittenBy rules text' out ->
    RewrittenBy (r :: rules) text out.

End Reading.

End Reference.

(** The reading that [\b] and the [i] flag of the pattern implement: the
    characters of words are the ASCII letters, the digits and the
    underscore, and only the ASCII letters have a case. *)
Definition regexReading : Reference.Reading :=
  {| Reference.wordCharacter := RegExp.isWordChar;
     Reference.caseFold := RegExp.canonicalize |}.

Definition E_ACUTE : code_unit := 233%N.

(** A reading for Western European text: the characters of words are the
    letters of Latin-1 and the digits; a small letter and its capital are
    the same. *)
Definition latinReading : Reference.Reading :=
  {| Reference.wordCharacter := fun c =>
       (((97 <=? c) && (c <=? 122)) || ((65 <=? c) && (c <=? 90))
        || ((48 <=? c) && (c <=? 57))
        || ((192 <=? c) && (c <=? 255) && negb (c =? 215) && negb (c =? 247)))%N;
     Reference.caseFold := fun c =>
       if (((97 <=? c) && (c <=? 122))
           || ((224 <=? c) && (c <=? 254) && negb (c =? 247)))%N
       then (c - 32)%N else c |}.

(** A code unit that stands for itself in a pattern of the fragment. *)
Definition literalChar (c : code_unit) : bool :=
  negb (RegExp.isSyntaxCharacter c) && (c <=? 127)%N.

(** The word begins and ends with a word character (so is not empty). *)
Definition wordEdges (w : jstr) : bool :=
  RegExp.isWordCharAt (hd_error w) && RegExp.isWordCharAt (Reference.lastOf w None).

(** An alias that [GetSubstitution] writes as it is: no [$] of it is
    followed by [$], [&], a backtick or a quote. *)
Fixpoint plainAlias (a : jstr) : bool :=
  match a with
  | [] => true
  | c :: rest =>
      (if (c =? RegExp.DOLLAR)%N then
         match rest with
         | [] => true
         | d :: _ =>
             negb ((d =? RegExp.DOLLAR) || (d =? RegExp.AMPERSAND)
                   || (d =? RegExp.BACKTICK) || (d =? RegExp.QUOTE))%N
         end
       else true)
      && plainAlias rest
  end.

(** A rule the pattern reads as plain text: the word is made of ASCII
    characters without pattern syntax and begins and ends with a letter,
    digit or underscore; the alias has no substitution mark. *)
Definition plainRule (r : PronunciationRule) : bool :=
  wordEdges (word r)
  && forallb literalChar (word r)
  && plainAlias (alias r).

(** The terms of a word of literal characters. *)
Definition plainTerms (w : jstr) : list RegExp.term :=
  map (fun c => (RegExp.AChar c, RegExp.QOne)) w.

Definition rule (w a : string) : PronunciationRule :=
  {| word := lit w; alias := lit a |}.

(** The rewriter answers [out] for [rules] on [text], and that is not what
    the specification's words give there under the reading [rd]. *)
Definition departsAt (rd : Reference.Reading) (rules : list PronunciationRule)
    (text out : jstr) : Prop :=
  applyRules text rules = Some (Ok out)
  /\ (exists out', Reference.RewrittenBy rd rules text out')
  /\ (forall out', Reference.RewrittenBy rd rules text out' -> out' <> out).

(** ** Reading a run *)

Definition sentText (r : Request) : jstr :=
  match r with
  | TranslateRequest _ contents => contents
  | ElevenLabsRequest _ _ text => text
  | ResembleRequest _ _ body _ => body
  | GeminiRequest _ text _ => text
  end.

Definition isTranslateRequest (r : Request) : bool :=
  match r with
  | TranslateRequest _ _ => true
  | _ => false
  end.

(** What stands before the chunk in a synthesis request's text: nothing,
    but for the primary engine with a custom profile selected. *)
Definition promptPrefix (st : App.Studio) : jstr :=
  match App.narrationProvider st with
  | elevenlabs | resemble => []
  | _ => App.instructionPrefix
           (App.findVoice (App.customVoices st) (App.selectedVoiceKey st))
  end.

(** The rewrapped chunk is well-formed on its own where the script is
    markup, and the chunk itself where it is not. *)
Definition wrappedAs (isSsml : bool) (chunk dispatched : jstr) : Prop :=
  if isSsml
  then JS.startsWith dispatched App.SPEAK_OPEN = true
       /\ JS.endsWith dispatched App.SPEAK_CLOSE = true
  else dispatched = chunk.

(** [p] stands somewhere in [s]; [s] begins with [p]; [s] ends in [p]. *)
Definition contains (s p : jstr) : Prop := exists before after, s = before ++ p ++ after.
Definition beginsWith (s p : jstr) : Prop := exists rest, s = p ++ rest.
Definition endsIn (s p : jstr) : Prop := exists rest, s = rest ++ p.

(** [sent] is [chunk] put into a container of its own: it begins with the
    opening tag and ends in the closing tag, and it is the chunk with
    nothing added but the opening tag before it, where the chunk does not
    begin with it, and the closing tag after it, where that does not end in
    it. *)
Definition rewrapped (chunk sent : jstr) : Prop :=
  beginsWith sent App.SPEAK_OPEN
  /\ endsIn sent App.SPEAK_CLOSE
  /\ exists pre post,
       sent = pre ++ chunk ++ post
       /\ (pre = [] \/ pre = App.SPEAK_OPEN /\ ~ beginsWith chunk App.SPEAK_OPEN)
       /\ (post = [] \/ post = App.SPEAK_CLOSE /\ ~ endsIn (pre ++ chunk) App.SPEAK_CLOSE).

(** The synthesis request of a chunk. *)
Definition dispatch (st : App.Studio) (isSsml : bool) (chunk : jstr) : Request :=
  App.requestOf st (App.rewrap isSsml chunk).

Definition withRequestFirst (req : Request) (run : App.Run) : App.Run :=
  {| App.isGenerating := App.isGenerating run;
     App.error := App.error run;
     App.audioUrl := App.audioUrl run;
     App.requests := req :: App.requests run |}.

Definition withLanguage (language : jstr) (st : App.Studio) : App.Studio :=
  {| App.narrationText := App.narrationText st;
     App.pronunciationRules := App.pronunciationRules st;
     App.narrationLanguage := language;
     App.narrationProvider := App.narrationProvider st;
     App.customVoices := App.customVoices st;
     App.selectedVoiceKey := App.selectedVoiceKey st;
     App.elevenLabsVoiceId := App.elevenLabsVoiceId st;
     App.elevenLabsKey := App.elevenLabsKey st;
     App.resembleProjectId := App.resembleProjectId st;
     App.resembleKey := App.resembleKey st;
     App.resembleVoiceId := App.resembleVoiceId st |}.

(** ** Sample studios and worlds for the examples *)

Definition studio (provider : SvgProvider) (language text : jstr)
    (rules : list PronunciationRule) : App.Studio :=
  {| App.narrationText := text;
     App.pronunciationRules := rules;
     App.narrationLanguage := language;
     App.narrationProvider := provider;
     App.customVoices := [];
     App.selectedVoiceKey := lit "Charon (Deep Male)";
     App.elevenLabsVoiceId := lit "voice-1";
     App.elevenLabsKey := lit "key-1";
     App.resembleProjectId := lit "project-1";
     App.resembleKey := lit "key-2";
     App.resembleVoiceId := lit "voice-2" |}.

Definition byteOf (c : code_unit) : Byte.byte :=
  match Byte.of_N c with
  | Some b => b
  | None => Byte.x00
  end.

(** A world that answers the translation with [translation], the primary
    engine's call for chunk [i] with [audio i] and the ElevenLabs call for
    chunk [i] with [http i]. *)
Definition scripted (translation : reply (option jstr))
    (audio : nat -> reply (option (list Part)))
    (http : nat -> reply HttpResponse) : World :=
  {| translateContent := fun _ _ => translation;
     elevenLabsFetch := fun i _ _ _ => http i;
     resembleFetch := fun _ _ _ _ _ => Fails (lit "offline");
     generateContent := fun i _ _ _ => audio i;
     decode := fun base64 => Reply (map byteOf base64) |}.

Definition audioPart (base64 : string) : Part := {| inlineData_data := Some (lit base64) |}.
Definition textPart : Part := {| inlineData_data := None |}.

(** Scenario A and D's script: ["Hello. "] a number of times. *)
Definition hellos (n : nat) : jstr := List.concat (repeat (lit "Hello. ") n).

(** Scenario D's chunks: [n] times ["Hello. "] and a last ["Hello."]. *)
Definition helloChunk (n : nat) : jstr := hellos n ++ lit "Hello.".

Definition httpOk : reply HttpResponse :=
  Reply {| ok := true; arrayBuffer := Reply [Byte.x01] |}.
Definition httpRejected : reply HttpResponse :=
  Reply {| ok := false; arrayBuffer := Reply [] |}.

(** ElevenLabs rejects the second chunk. *)
Definition secondFails : World :=
  scripted (Reply None) (fun _ => Fails (lit "unused"))
    (fun i => if Nat.eqb i 1 then httpRejected else httpOk).

(** The primary engine answers every chunk with text parts only. *)
Definition noAudio : World :=
  scripted (Reply None) (fun _ => Reply (Some [textPart])) (fun _ => httpOk).

(** The translation call is rejected. *)
Definition translationDown : World :=
  scripted (Fails (lit "quota exceeded")) (fun _ => Reply (Some [audioPart "AAAA"]))
    (fun _ => httpOk).

(** The translation call answers without text. *)
Definition translationEmpty : World :=
  scripted (Reply None) (fun _ => Reply (Some [audioPart "AAAA"])) (fun _ => httpOk).

(** Every call is answered; the translation is a thousand times
    ["Hello. "]. *)
Definition allAnswered : World :=
  scripted (Reply (Some (hellos 1000))) (fun _ => Reply (Some [audioPart "AAAA"]))
    (fun _ => httpOk).

Definition second (frames : N) : Duplex.AudioBuffer :=
  {| Duplex.frames := frames; Duplex.sampleRate := 24000 |}.

(** A session under way: connected, microphone open, one buffer of one
    second scheduled at clock reading 0. *)
Definition playing : Duplex.Session :=
  Duplex.step (Duplex.Audio 0%Q (second 24000) 1%nat)
    (Duplex.step (Duplex.Open [1%nat; 2%nat] 5%nat)
       (Duplex.step (Duplex.Start (Reply 7%nat)) Duplex.initial)).

(** ** Where the chunker cuts *)

(** The characters the chunker backs off to. *)
Definition isBreak (c : code_unit) : bool := ((c =? SPACE) || (c =? NEWLINE))%N.

Definition noBreak (s : jstr) : bool := forallb (fun c => negb (isBreak c)) s.

Definition ledByBreak (s : jstr) : bool :=
  match s with
  | c :: _ => isBreak c
  | [] => false
  end.

(** A cutting of a text is word-safe for windows of [maxChars] when every
    piece but the last is followed by a break character, or else is a full
    window with no break character after its first unit nor right behind
    it: the piece could not have been cut at a break. *)
Fixpoint wordSafe (maxChars : Z) (pieces : list jstr) : Prop :=
  match pieces with
  | [] => True
  | p :: rest =>
      (rest = []
       \/ ledByBreak (List.concat rest) = true
       \/ (jlen p = maxChars
           /\ noBreak (tl p) = true
           /\ ledByBreak (List.concat rest) = false))
      /\ wordSafe maxChars rest
  end.

(** ** The master of a run *)

(** What the loop pushes for one answer. *)
Definition pushed (r : reply (option bytes)) : list bytes :=
  match r with
  | Reply (Some b) => [b]
  | _ => []
  end.

(** The buffers the providers return for [chunks], in the order of the
    chunks; [i] is the index of the first. *)
Fixpoint audioOf (w : World) (st : App.Studio) (isSsml : bool) (i : nat)
    (chunks : list jstr) : list bytes :=
  match chunks with
  | [] => []
  | c :: chunks' =>
      pushed (App.synthesizeChunk w st i (App.rewrap isSsml c))
      ++ audioOf w st isSsml (S i) chunks'
  end.

Definition master (st : App.Studio) (audio : bytes) : Blob :=
  if App.isMpeg (App.narrationProvider st) then MpegBlob audio else WavBlob audio 24000 1.

(** The same world with another translation capability. *)
Definition withTranslation (translate : jstr -> jstr -> reply (option jstr))
    (w : World) : World :=
  {| translateContent := translate;
     elevenLabsFetch := elevenLabsFetch w;
     resembleFetch := resembleFetch w;
     generateContent := generateContent w;
     decode := decode w |}.

(** The longest a rewrapped chunk can be: [maxChars] and the two tags. *)
Definition WRAPPED_MAX_CHARS : Z :=
  DEFAULT_MAX_CHARS + jlen App.SPEAK_OPEN + jlen App.SPEAK_CLOSE.

(** ** Playback back to back *)

(** The start times of buffers played one right after the other from
    [start] on. *)
Fixpoint backToBack (start : Q) (buffers : list Duplex.AudioBuffer) : list Q :=
  match buffers with
  | [] => []
  | b :: buffers' => start :: backToBack (start + Duplex.duration b)%Q buffers'
  end.

(** Each buffer arrives no later than the end of the one before it, the
    first no later than [cursor]. *)
Fixpoint timely (cursor : Q) (arrivals : list (Q * Duplex.AudioBuffer * nat)) : Prop :=
  match arrivals with
  | [] => True
  | (currentTime, b, _) :: rest =>
      (currentTime <= cursor)%Q /\ timely (cursor + Duplex.duration b)%Q rest
  end.

(** Where the cursor stands after [buffers] played one right after the
    other from [start] on: each duration added to the sum so far, in the
    order of the buffers. *)
Definition playedUntil (start : Q) (buffers : list Duplex.AudioBuffer) : Q :=
  fold_left (fun cursor b => (cursor + Duplex.duration b)%Q) buffers start.

Definition startedAt (e : Duplex.Effect) (q : Q) : Prop :=
  match e with
  | Duplex.SourceStart _ q' => (q' == q)%Q
  | _ => False
  end.

(** ** Reading the store *)

(** The studio a production run sees over the stored settings. *)
Definition studioOf (st : Store.State) (provider : SvgProvider) (language text : jstr)
    : App.Studio :=
  {| App.narrationText := text;
     App.pronunciationRules := Store.pronunciationRules st;
     App.narrationLanguage := language;
     App.narrationProvider := provider;
     App.customVoices := Store.customVoices st;
     App.selectedVoiceKey := Store.selectedVoiceKey st;
     App.elevenLabsVoiceId := Store.elevenLabsVoiceId st;
     App.elevenLabsKey := Store.elevenLabsKey st;
     App.resembleProjectId := Store.resembleProjectId st;
     App.resembleKey := Store.resembleKey st;
     App.resembleVoiceId := Store.resembleVoiceId st |}.

(** A rule with nothing blank about it: word and alias are not empty and
    have no blank at either end. *)
Definition cleanRule (r : PronunciationRule) : Prop :=
  word r <> [] /\ alias r <> [] /\ JS.trim (word r) = word r /\ JS.trim (alias r) = alias r.

(** A JSON whose serializer is never consulted by the examples. *)
Definition plainJSON : JSON :=
  {| stringifyVoices := fun _ => lit "[voices]";
     parseVoices := fun _ => None;
     stringifyRules := fun _ => lit "[rules]";
     parseRules := fun _ => None |}.

(** What a string setting is after a mount: the stored item, or the empty
    default. *)
Definition storedOr (key : jstr) (ls : Storage) : jstr :=
  match truthy (getItem key ls) with
  | Some v => v
  | None => []
  end.

(** The key of the provider selected, if that provider has voices to
    sync. *)
Definition usableKey (st : Sync.State) : option Sync.VoicesRequest :=
  match Sync.narrationProvider st, Sync.elevenLabsKey st, Sync.resembleKey st with
  | elevenlabs, _ :: _, _ => Some (Sync.ElevenLabsVoices (Sync.elevenLabsKey st))
  | resemble, _, _ :: _ => Some (Sync.ResembleVoices (Sync.resembleKey st))
  | _, _, _ => None
  end.


Ltac sync_split := repeat match goal with |- _ /\ _ => split end; try reflexivity.

(** ** More samples for the examples *)

Definition sampleVoice (voiceId : string) : CustomVoice :=
  {| voice_id := lit voiceId; voice_name := lit "Narrator";
     instruction := lit "slow and low"; baseVoice := lit "Kore" |}.

(** A JSON that reads every file as the same two profiles. *)
Definition twoProfiles : JSON :=
  {| stringifyVoices := fun _ => lit "[voices]";
     parseVoices := fun _ => Some [sampleVoice "custom-1"; sampleVoice "custom-2"];
     stringifyRules := fun _ => lit "[rules]";
     parseRules := fun _ => None |}.

Definition geminiSync : Sync.State :=
  {| Sync.narrationProvider := gemini_3_pro;
     Sync.elevenLabsKey := lit "key-1";
     Sync.resembleKey := lit "key-2";
     Sync.elevenLabsVoices := [];
     Sync.resembleVoices := [];
     Sync.isSyncingVoices := true;
     Sync.error := None |}.


(** * Properties *)

(** ** Strings *)

Section StringFacts.

Import JS.

Lemma trimStart_split (s : jstr) :
  exists ws, s = ws ++ trimStart s /\ forallb isWhiteSpace ws = true.
Proof.
  induction s as [|c s IH]; simpl.
  - exists []. auto.
  - destruct (isWhiteSpace c) eqn:Hc.
    + destruct IH as [ws [E F]]. exists (c :: ws). simpl.
      rewrite Hc, F. split; [congruence | reflexivity].
    + exists []. auto.
Qed.

Lemma filter_whitespace_nil (ws : jstr) :
  forallb isWhiteSpace ws = true -> filter notWhiteSpace ws = [].
Proof.
  induction ws as [|c ws IH]; simpl; intros H; [reflexivity|].
  apply andb_true_iff in H. destruct H as [Hc Hws].
  unfold notWhiteSpace at 1. rewrite Hc. simpl. auto.
Qed.

Lemma trimStart_length (s : jstr) : (List.length (trimStart s) <= List.length s)%nat.
Proof.
  destruct (trimStart_split s) as [ws [E _]].
  rewrite E at 2. rewrite length_app. lia.
Qed.

Lemma trimStart_filter (s : jstr) :
  filter notWhiteSpace (trimStart s) = filter notWhiteSpace s.
Proof.
  destruct (trimStart_split s) as [ws [E F]].
  rewrite E at 2. rewrite filter_app, (filter_whitespace_nil F). reflexivity.
Qed.

Lemma filter_rev_comm (f : code_unit -> bool) (l : jstr) :
  filter f (rev l) = rev (filter f l).
Proof.
  induction l as [|x l IH]; simpl; [reflexivity|].
  rewrite filter_app, IH. simpl. destruct (f x); simpl.
  - reflexivity.
  - rewrite app_nil_r. reflexivity.
Qed.

Lemma trimEnd_length (s : jstr) : (List.length (trimEnd s) <= List.length s)%nat.
Proof.
  unfold trimEnd. rewrite length_rev.
  etransitivity; [apply trimStart_length|]. rewrite length_rev. lia.
Qed.

Lemma trimEnd_filter (s : jstr) :
  filter notWhiteSpace (trimEnd s) = filter notWhiteSpace s.
Proof.
  unfold trimEnd. rewrite filter_rev_comm, trimStart_filter, filter_rev_comm.
  apply rev_involutive.
Qed.

Lemma trim_length (s : jstr) : (List.length (trim s) <= List.length s)%nat.
Proof.
  unfold trim. etransitivity; [apply trimEnd_length | apply trimStart_length].
Qed.

Lemma trim_filter (s : jstr) :
  filter notWhiteSpace (trim s) = filter notWhiteSpace s.
Proof.
  unfold trim. rewrite trimEnd_filter. apply trimStart_filter.
Qed.

Lemma trimStart_led (s : jstr) : ledByNonBlank (trimStart s).
Proof.
  induction s as [|c s IH]; simpl; [exact I|].
  destruct (isWhiteSpace c) eqn:Hc; [exact IH | exact Hc].
Qed.

Lemma trimStart_fixed (s : jstr) : ledByNonBlank s -> trimStart s = s.
Proof.
  destruct s as [|c s]; simpl; [reflexivity|]. intros H. rewrite H. reflexivity.
Qed.

Lemma trimStart_app_nonblank (s : jstr) (c : code_unit) :
  isWhiteSpace c = false -> exists p, trimStart (s ++ [c]) = p ++ [c].
Proof.
  intros Hc. induction s as [|x s IH]; simpl.
  - rewrite Hc. exists []. reflexivity.
  - destruct (isWhiteSpace x); [exact IH|]. exists (x :: s). reflexivity.
Qed.

Lemma trimEnd_led (s : jstr) : ledByNonBlank s -> ledByNonBlank (trimEnd s).
Proof.
  destruct s as [|c s]; [intros _; exact I|]. simpl. intros Hc.
  unfold trimEnd. simpl rev.
  destruct (trimStart_app_nonblank (rev s) Hc) as [p E]. rewrite E.
  rewrite rev_app_distr. simpl. exact Hc.
Qed.

Lemma trimEnd_idem (s : jstr) : trimEnd (trimEnd s) = trimEnd s.
Proof.
  unfold trimEnd. rewrite rev_involutive.
  rewrite (trimStart_fixed (trimStart_led (rev s))). reflexivity.
Qed.

Lemma trim_idem (s : jstr) : trim (trim s) = trim s.
Proof.
  unfold trim at 1.
  rewrite (trimStart_fixed (s := trim s)).
  - unfold trim. apply trimEnd_idem.
  - unfold trim. apply trimEnd_led, trimStart_led.
Qed.

Lemma lastIndexOf_scan_bounds (c : code_unit) (s : jstr) (k start found : Z) :
  -1 <= found <= start -> -1 <= k ->
  -1 <= lastIndexOf_scan c s k start found <= start.
Proof.
  revert k found. induction s as [|x s IH]; simpl; intros k found Hf Hk; [exact Hf|].
  apply IH; [|lia].
  destruct (k <=? start) eqn:Hks; simpl; [|exact Hf].
  destruct (x =? c)%N; [|exact Hf].
  apply Z.leb_le in Hks. lia.
Qed.

Lemma lastIndexOf_bounds (c : code_unit) (s : jstr) (from : Z) :
  s <> [] -> -1 <= lastIndexOf c s from <= Z.max from 0.
Proof.
  intros Hs. unfold lastIndexOf.
  assert (0 < jlen s) by (destruct s; [congruence | unfold jlen; simpl; lia]).
  pose proof (@lastIndexOf_scan_bounds c s 0
                (Z.min (Z.max from 0) (jlen s - 1)) (-1)) as B.
  lia.
Qed.

Lemma substring_firstn_skipn (s : jstr) (a b : Z) :
  0 <= a <= b -> b <= jlen s ->
  substring s a b = firstn (Z.to_nat (b - a)) (skipn (Z.to_nat a) s).
Proof.
  intros Hab Hb. unfold substring.
  replace (Z.min (Z.max a 0) (jlen s)) with a by lia.
  replace (Z.min (Z.max b 0) (jlen s)) with b by lia.
  replace (Z.min a b) with a by lia.
  replace (Z.max a b) with b by lia. reflexivity.
Qed.

Lemma substring_length (s : jstr) (a b : Z) :
  0 <= a <= b -> b <= jlen s -> jlen (substring s a b) = b - a.
Proof.
  intros Hab Hb. rewrite substring_firstn_skipn by assumption.
  unfold jlen in *. rewrite length_firstn, length_skipn. lia.
Qed.

Lemma substring_skipn (s : jstr) (a b : Z) :
  0 <= a <= b -> b <= jlen s ->
  skipn (Z.to_nat a) s = substring s a b ++ skipn (Z.to_nat b) s.
Proof.
  intros Hab Hb. rewrite substring_firstn_skipn by assumption.
  replace (Z.to_nat b) with (Z.to_nat (b - a) + Z.to_nat a)%nat by lia.
  rewrite <- skipn_skipn. symmetry. apply firstn_skipn.
Qed.

End StringFacts.

(** ** TextChunker *)

Section Chunker.

Variable text : jstr.
Variable maxChars : Z.
Hypothesis maxChars_pos : 1 <= maxChars.

(** Each iteration moves on, and by no more than [maxChars]. *)
Lemma nextEndPos_bounds (currentPos : Z) :
  0 <= currentPos < jlen text ->
  currentPos < nextEndPos text maxChars currentPos
  /\ nextEndPos text maxChars currentPos <= currentPos + maxChars
  /\ nextEndPos text maxChars currentPos <= jlen text.
Proof.
  intros Hc. unfold nextEndPos.
  assert (Ht : text <> []) by (destruct text; [unfold jlen in Hc; simpl in Hc; lia | congruence]).
  set (e := if currentPos + maxChars >? jlen text then jlen text else currentPos + maxChars).
  assert (He : currentPos < e /\ e <= currentPos + maxChars /\ e <= jlen text).
  { unfold e. destruct (currentPos + maxChars >? jlen text) eqn:G.
    - apply Z.gtb_lt in G. lia.
    - rewrite Z.gtb_ltb in G. apply Z.ltb_ge in G. lia. }
  destruct (e <? jlen text); [|exact He].
  pose proof (lastIndexOf_bounds SPACE e Ht) as B1.
  pose proof (lastIndexOf_bounds NEWLINE e Ht) as B2.
  destruct (Z.max (JS.lastIndexOf SPACE text e) (JS.lastIndexOf NEWLINE text e) >? currentPos) eqn:G.
  - apply Z.gtb_lt in G. lia.
  - exact He.
Qed.

(** The loop, run from [currentPos] with enough fuel, cuts the rest of the
    text into pieces of at most [maxChars] units and pushes each one
    trimmed. *)
Lemma splitLoop_pieces (fuel : nat) :
  forall (currentPos : Z) (chunks : list jstr),
    0 <= currentPos <= jlen text ->
    jlen text - currentPos <= Z.of_nat fuel ->
    exists pieces,
      splitLoop fuel text maxChars currentPos chunks = Some (chunks ++ map JS.trim pieces)
      /\ List.concat pieces = skipn (Z.to_nat currentPos) text
      /\ Forall (fun p => 0 < jlen p <= maxChars) pieces.
Proof.
  induction fuel as [|fuel IH]; intros currentPos chunks Hc Hf.
  - assert (currentPos = jlen text) by lia. subst currentPos.
    exists []. simpl. rewrite Z.ltb_irrefl, app_nil_r.
    split; [reflexivity|]. split; [|constructor].
    unfold jlen. rewrite Nat2Z.id, skipn_all. reflexivity.
  - simpl. destruct (currentPos <? jlen text) eqn:L.
    + apply Z.ltb_lt in L.
      destruct (@nextEndPos_bounds currentPos) as [B1 [B2 B3]]; [lia|].
      set (endPos := nextEndPos text maxChars currentPos) in *.
      destruct (IH endPos (chunks ++ [JS.trim (JS.substring text currentPos endPos)]))
        as [pieces [E [C F]]]; [lia | lia |].
      exists (JS.substring text currentPos endPos :: pieces).
      split; [|split].
      * rewrite E, <- app_assoc. reflexivity.
      * simpl. rewrite C. symmetry. apply substring_skipn; lia.
      * constructor; [|exact F]. rewrite substring_length by lia. lia.
    + apply Z.ltb_ge in L. assert (currentPos = jlen text) by lia. subst currentPos.
      exists []. simpl. rewrite app_nil_r.
      split; [reflexivity|]. split; [|constructor].
      unfold jlen. rewrite Nat2Z.id, skipn_all. reflexivity.
Qed.

(** A text longer than [maxChars] comes back as its pieces, trimmed, the
    empty ones dropped. *)
Lemma splitTextIntoChunks_pieces (fuel : nat) :
  maxChars < jlen text -> (List.length text <= fuel)%nat ->
  exists pieces,
    splitTextIntoChunks fuel text maxChars = Some (filter nonEmpty (map JS.trim pieces))
    /\ List.concat pieces = text
    /\ Forall (fun p => 0 < jlen p <= maxChars) pieces.
Proof.
  intros Hlong Hfuel. unfold splitTextIntoChunks.
  destruct (jlen text <=? maxChars) eqn:L; [apply Z.leb_le in L; lia|].
  destruct (@splitLoop_pieces fuel 0 []) as [pieces [E [C F]]].
  - unfold jlen. lia.
  - unfold jlen. lia.
  - exists pieces. rewrite E. simpl. auto.
Qed.

Lemma concat_filter_nonEmpty (l : list jstr) :
  List.concat (filter nonEmpty l) = List.concat l.
Proof.
  induction l as [|c l IH]; [reflexivity|].
  cbn [filter]. destruct (nonEmpty c) eqn:N; cbn [List.concat].
  - rewrite IH. reflexivity.
  - destruct c as [|x c]; [exact IH|].
    unfold nonEmpty, jlen in N. apply Z.ltb_ge in N. simpl in N. lia.
Qed.

Lemma filter_concat_trim (pieces : list jstr) :
  filter notWhiteSpace (List.concat (map JS.trim pieces))
  = filter notWhiteSpace (List.concat pieces).
Proof.
  induction pieces as [|p pieces IH]; simpl; [reflexivity|].
  rewrite !filter_app, trim_filter, IH. reflexivity.
Qed.

(** C1: for a text longer than [maxChars >= 1], with fuel for one
    iteration per code unit, [splitTextIntoChunks] returns, and every chunk
    it returns has at most [maxChars] code units, is not empty, and is not
    changed (so not emptied) by trimming. *)
Theorem splitTextIntoChunks_bounded (fuel : nat) :
  maxChars < jlen text -> (List.length text <= fuel)%nat ->
  exists chunks,
    splitTextIntoChunks fuel text maxChars = Some chunks
    /\ Forall (fun c => 0 < jlen c <= maxChars /\ JS.trim c = c /\ c <> []) chunks.
Proof.
  intros Hlong Hfuel.
  destruct (splitTextIntoChunks_pieces Hlong Hfuel) as [pieces [E [_ F]]].
  exists (filter nonEmpty (map JS.trim pieces)). split; [exact E|].
  apply Forall_forall. intros c Hin.
  apply filter_In in Hin. destruct Hin as [Hin Hne].
  apply in_map_iff in Hin. destruct Hin as [p [Ep Hp]]. subst c.
  rewrite Forall_forall in F. specialize (F p Hp).
  unfold nonEmpty in Hne. apply Z.ltb_lt in Hne.
  pose proof (trim_length p) as Hl. unfold jlen in *.
  repeat split.
  - exact Hne.
  - lia.
  - apply trim_idem.
  - intros N. rewrite N in Hne. simpl in Hne. lia.
Qed.

(** C2: for every text and [maxChars >= 1], the chunks returned, put
    together in order, hold exactly the non-blank code units of the text in
    their order: the chunks are the trimmed pieces of a cutting of the text,
    so nothing but blanks at the ends of a piece is dropped. *)
Theorem splitTextIntoChunks_preserves_content (fuel : nat) :
  (List.length text <= fuel)%nat ->
  exists chunks,
    splitTextIntoChunks fuel text maxChars = Some chunks
    /\ (chunks = [text]
        \/ exists pieces,
             List.concat pieces = text
             /\ chunks = filter nonEmpty (map JS.trim pieces))
    /\ filter notWhiteSpace (List.concat chunks) = filter notWhiteSpace text.
Proof.
  intros Hfuel.
  destruct (Z_lt_le_dec maxChars (jlen text)) as [Hlong | Hshort].
  - destruct (splitTextIntoChunks_pieces Hlong Hfuel) as [pieces [E [C _]]].
    exists (filter nonEmpty (map JS.trim pieces)).
    split; [exact E|]. split.
    + right. exists pieces. auto.
    + rewrite concat_filter_nonEmpty, filter_concat_trim, C. reflexivity.
  - exists [text]. unfold splitTextIntoChunks.
    apply Z.leb_le in Hshort. rewrite Hshort. simpl. rewrite app_nil_r. auto.
Qed.

End Chunker.

(** ** PronunciationRewriter *)

Section Rewriter.

Import RegExp Reference.

Lemma wordChar_range (c : code_unit) :
  isWordChar c = true ->
  (97 <= c <= 122 \/ 65 <= c <= 90 \/ 48 <= c <= 57 \/ c = 95)%N.
Proof.
  unfold isWordChar. rewrite !orb_true_iff, !andb_true_iff, !N.leb_le, N.eqb_eq.
  tauto.
Qed.

Lemma literalChar_atom (c : code_unit) :
  literalChar c = true ->
  isQuantifierChar c = false /\ atomOf c = Some (AChar c).
Proof.
  unfold literalChar. rewrite andb_true_iff, negb_true_iff, N.leb_le.
  intros [Hs Ha]. unfold atomOf. rewrite Hs.
  unfold isSyntaxCharacter in Hs. rewrite !orb_false_iff, !N.eqb_neq in Hs.
  unfold isQuantifierChar, DOT, STAR, PLUS, QUESTION.
  replace (c =? 46)%N with false by (symmetry; apply N.eqb_neq; lia).
  replace (127 <? c)%N with false by (symmetry; apply N.ltb_ge; lia).
  rewrite !orb_false_iff, !N.eqb_neq. repeat split; lia.
Qed.

(** Letter case aside, only a word character equals a word character. *)
Lemma canonicalize_wordChar (p c : code_unit) :
  isWordChar p = true -> canonicalize p = canonicalize c -> isWordChar c = true.
Proof.
  intros Hp E. apply wordChar_range in Hp.
  unfold canonicalize in E.
  unfold isWordChar. rewrite !orb_true_iff, !andb_true_iff, !N.leb_le, N.eqb_eq.
  destruct (N.leb_spec 97 p), (N.leb_spec p 122), (N.leb_spec 97 c), (N.leb_spec c 122);
    cbn [andb] in E; lia.
Qed.

Lemma parseTerms_plain (w : jstr) :
  forallb literalChar w = true -> parseTerms w = Pattern (plainTerms w).
Proof.
  induction w as [|c w IH]; [reflexivity|].
  intros H. cbn [forallb] in H. apply andb_true_iff in H. destruct H as [Hc Hw].
  specialize (IH Hw). cbn [parseTerms].
  destruct (literalChar_atom Hc) as [Q A]. rewrite Q, A.
  destruct w as [|q w]; [reflexivity|].
  cbn [forallb] in Hw. apply andb_true_iff in Hw. destruct Hw as [Hq _].
  destruct (literalChar_atom Hq) as [Q' _]. rewrite Q', IH. reflexivity.
Qed.

Lemma last_cons_default (A : Type) (a d : A) (l : list A) :
  List.last (a :: l) d = List.last l a.
Proof.
  revert a d. induction l as [|b l IH]; intros a d; [reflexivity|].
  change (List.last (a :: b :: l) d) with (List.last (b :: l) d).
  rewrite !IH. reflexivity.
Qed.

Lemma lastOf_cons (c : code_unit) (m : jstr) (prev : option code_unit) :
  lastOf (c :: m) prev = lastOf m (Some c).
Proof. unfold lastOf. cbn [map]. apply last_cons_default. Qed.

Lemma hd_rev_lastOf (m before : jstr) (c : code_unit) :
  hd_error (rev m ++ c :: before) = lastOf m (Some c).
Proof.
  revert c before. induction m as [|x m IH]; intros c before; [reflexivity|].
  rewrite lastOf_cons. cbn [rev]. rewrite <- app_assoc. cbn [app]. apply IH.
Qed.

Lemma wordCharacterAt_regex (c : option code_unit) :
  wordCharacterAt regexReading c = isWordCharAt c.
Proof. destruct c; reflexivity. Qed.

Lemma occursAt_length (rd : Reading) (w s : jstr) :
  occursAt rd w s = true -> (List.length w <= List.length s)%nat.
Proof.
  revert s. induction w as [|p w IH]; intros s H; [simpl; lia|].
  destruct s as [|c s]; [discriminate|].
  cbn [occursAt] in H. apply andb_true_iff in H. destruct H as [_ H].
  apply IH in H. simpl. lia.
Qed.

(** The terms of a plain word match where the word stands and a word
    boundary follows it. *)
Lemma matchTerms_plain (w : jstr) :
  forall prev s,
    matchTerms (plainTerms w) prev s =
    if occursAt regexReading w s
       && isBoundary (lastOf (firstn (List.length w) s) prev)
            (nth_error s (List.length w))
    then Some (List.length w) else None.
Proof.
  induction w as [|p w IH]; intros prev s.
  - cbn. destruct s; reflexivity.
  - cbn [plainTerms map matchTerms occursAt].
    destruct s as [|c s]; [reflexivity|].
    cbn [atomMatches List.length firstn nth_error caseFold regexReading].
    destruct (canonicalize p =? canonicalize c)%N; [|reflexivity].
    fold (plainTerms w). rewrite IH, lastOf_cons. cbn [andb].
    destruct (occursAt regexReading w s && _); reflexivity.
Qed.

Lemma lastOf_default (m : jstr) (d d' : option code_unit) :
  m <> [] -> lastOf m d = lastOf m d'.
Proof.
  destruct m as [|c m]; [congruence|]. intros _. rewrite !lastOf_cons. reflexivity.
Qed.

(** Where a word that begins and ends with word characters stands, the
    text begins and ends with word characters too. *)
Lemma occursAt_edges (w : jstr) :
  forall prev s, occursAt regexReading w s = true ->
    (isWordCharAt (hd_error w) = true -> isWordCharAt (hd_error s) = true)
    /\ (isWordCharAt (lastOf w None) = true ->
        isWordCharAt (lastOf (firstn (List.length w) s) prev) = true).
Proof.
  induction w as [|p w IH]; intros prev s Ho.
  - cbn. split; discriminate.
  - destruct s as [|c s]; [discriminate|].
    cbn [occursAt caseFold regexReading] in Ho.
    apply andb_true_iff in Ho. destruct Ho as [E Ho].
    apply N.eqb_eq in E. split.
    + cbn. intros Hp. exact (canonicalize_wordChar Hp E).
    + cbn [List.length firstn]. rewrite !lastOf_cons.
      destruct w as [|q w].
      * cbn. intros Hp. exact (canonicalize_wordChar Hp E).
      * intros Hl. apply (IH (Some c) s Ho).
        rewrite (@lastOf_default (q :: w) None (Some p)) by congruence. exact Hl.
Qed.

Lemma matchAt_plain (w : jstr) :
  wordEdges w = true ->
  forall prev s,
    matchAt (plainTerms w) prev s =
    if wholeWordAt regexReading w prev s then Some (List.length w) else None.
Proof.
  unfold wordEdges. rewrite andb_true_iff. intros [Hh Hl] prev s.
  unfold matchAt, wholeWordAt.
  rewrite matchTerms_plain, (wordCharacterAt_regex prev),
    (wordCharacterAt_regex (nth_error s (List.length w))).
  destruct (occursAt regexReading w s) eqn:Ho.
  - destruct (occursAt_edges prev Ho) as [Eh El].
    unfold isBoundary. rewrite (Eh Hh), (El Hl).
    destruct (isWordCharAt prev), (isWordCharAt (nth_error s (List.length w))); reflexivity.
  - rewrite andb_false_r. cbn. destruct (isBoundary _ _); reflexivity.
Qed.

Lemma wordEdges_nonempty (w : jstr) : wordEdges w = true -> w <> [].
Proof. intros H E. subst w. discriminate. Qed.

Lemma getSubstitution_plain (matched before after template : jstr) :
  plainAlias template = true ->
  getSubstitution matched before after template = template.
Proof.
  induction template as [|c rest IH]; [reflexivity|].
  intros H. cbn [plainAlias] in H. apply andb_true_iff in H. destruct H as [Hc Hr].
  cbn [getSubstitution]. rewrite (IH Hr).
  destruct (c =? DOLLAR)%N; [|reflexivity].
  destruct rest as [|d r]; [reflexivity|].
  apply negb_true_iff in Hc. rewrite !orb_false_iff in Hc.
  destruct Hc as [[[H1 H2] H3] H4]. rewrite H1, H2, H3, H4. reflexivity.
Qed.

(** Passing over the [skip] units of a match leads to the position after
    them. *)
Lemma replaceFrom_skip (ts : list term) (replacement : jstr) (skip : nat) :
  forall s before, (skip <= List.length s)%nat ->
    replaceFrom ts replacement before s skip =
    replaceFrom ts replacement (rev (firstn skip s) ++ before) (skipn skip s) O.
Proof.
  induction skip as [|k IH]; intros s before Hk.
  - destruct s; reflexivity.
  - destruct s as [|c s]; [simpl in Hk; lia|].
    cbn [replaceFrom firstn skipn rev]. rewrite IH by (simpl in Hk; lia).
    rewrite <- app_assoc. reflexivity.
Qed.

Lemma app_eq_length (A : Type) (m m' r r' : list A) :
  List.length m = List.length m' -> m ++ r = m' ++ r' -> m = m' /\ r = r'.
Proof.
  revert m'. induction m as [|x m IH]; intros [|y m'] L E; try discriminate.
  - auto.
  - cbn in E. injection E as -> E. injection L as L.
    destruct (IH m' L E) as [-> ->]. auto.
Qed.

Section AnyReading.

Variable rd : Reading.

Lemma rw_match_at (w alias : jstr) prev s m rest out :
  s = m ++ rest ->
  wholeWordAt rd w prev s = true ->
  List.length m = List.length w ->
  Rewritten rd w alias (lastOf m prev) rest out ->
  Rewritten rd w alias prev s (alias ++ out).
Proof. intros -> H1 H2 H3. apply rw_match; assumption. Qed.

Lemma wholeWordAt_length (w : jstr) prev s :
  wholeWordAt rd w prev s = true -> (List.length w <= List.length s)%nat.
Proof.
  unfold wholeWordAt. rewrite !andb_true_iff. intros [[_ H] _].
  exact (occursAt_length H).
Qed.

(** Where the word stands as a whole word the alias is written; elsewhere
    the code unit is copied. *)
Lemma Rewritten_step (w alias : jstr) prev c s out :
  w <> [] ->
  Rewritten rd w alias prev (c :: s) out ->
  if wholeWordAt rd w prev (c :: s)
  then exists out',
         out = alias ++ out'
         /\ Rewritten rd w alias
              (lastOf (firstn (List.length w) (c :: s)) prev)
              (skipn (List.length w) (c :: s)) out'
  else exists out', out = c :: out' /\ Rewritten rd w alias (Some c) s out'.
Proof.
  intros Hne H. remember (c :: s) as cs eqn:Es.
  destruct H as [prev | prev m rest out M L R | prev c' s' out M R].
  - discriminate.
  - rewrite M. exists out. split; [reflexivity|].
    rewrite <- L, firstn_app, Nat.sub_diag, firstn_all, skipn_app, Nat.sub_diag, skipn_all.
    cbn [firstn skipn app]. rewrite app_nil_r. exact R.
  - rewrite M. injection Es as -> ->. exists out. auto.
Qed.

(** The reading of a rule fixes the output. *)
Lemma Rewritten_functional (w alias : jstr) :
  w <> [] ->
  forall prev s o1, Rewritten rd w alias prev s o1 ->
  forall o2, Rewritten rd w alias prev s o2 -> o1 = o2.
Proof.
  intros Hne prev s o1 H1.
  induction H1 as [prev | prev m rest out M L R IH | prev c s out M R IH]; intros o2 H2.
  - inversion H2; subst; [reflexivity|].
    match goal with H : _ ++ _ = [] |- _ => apply app_eq_nil in H; destruct H as [-> _] end.
    destruct w; [congruence | discriminate].
  - remember (m ++ rest) as s eqn:Es.
    destruct H2 as [prev | prev m' rest' out' M' L' R' | prev c s out' M' R'].
    + symmetry in Es. apply app_eq_nil in Es. destruct Es as [-> _].
      destruct w; [congruence | discriminate].
    + destruct (@app_eq_length _ m' m rest' rest) as [-> ->]; [congruence | assumption |].
      f_equal. apply IH. exact R'.
    + congruence.
  - remember (c :: s) as cs eqn:Es.
    destruct H2 as [prev | prev m' rest' out' M' L' R' | prev c' s' out' M' R'].
    + discriminate.
    + congruence.
    + injection Es as -> ->. f_equal. apply IH. exact R'.
Qed.

(** And there is always one. *)
Lemma Rewritten_total (w alias : jstr) :
  w <> [] ->
  forall (n : nat) (s : jstr) prev, (List.length s <= n)%nat ->
    exists out, Rewritten rd w alias prev s out.
Proof.
  intros Hne. induction n as [|n IH]; intros s prev Hn.
  - destruct s; [|simpl in Hn; lia]. exists []. constructor.
  - destruct s as [|c s]; [exists []; constructor|].
    destruct (wholeWordAt rd w prev (c :: s)) eqn:M.
    + pose proof (wholeWordAt_length M) as Hlen.
      destruct (IH (skipn (List.length w) (c :: s))
                  (lastOf (firstn (List.length w) (c :: s)) prev)) as [out R].
      { rewrite length_skipn. destruct w; [congruence|]. simpl in *. lia. }
      exists (alias ++ out).
      apply (@rw_match_at w alias prev (c :: s) (firstn (List.length w) (c :: s))
               (skipn (List.length w) (c :: s)) out).
      * symmetry. apply firstn_skipn.
      * exact M.
      * rewrite length_firstn. lia.
      * exact R.
    + destruct (IH s (Some c)) as [out R]; [simpl in Hn; lia|].
      exists (c :: out). apply rw_copy; assumption.
Qed.

Lemma RewrittenBy_single (r : PronunciationRule) (text out : jstr) :
  RewrittenBy rd [r] text out -> Rewritten rd (word r) (alias r) None text out.
Proof.
  intros H. inversion H as [ | r' rules' t t' o R RB ]; subst.
  inversion RB; subst. exact R.
Qed.

Lemma RewrittenBy_one (r : PronunciationRule) (text out : jstr) :
  Rewritten rd (word r) (alias r) None text out -> RewrittenBy rd [r] text out.
Proof. intros H. econstructor; [exact H | constructor]. Qed.

Lemma RewrittenBy_functional (rules : list PronunciationRule) :
  Forall (fun r => word r <> []) rules ->
  forall text o1, RewrittenBy rd rules text o1 ->
  forall o2, RewrittenBy rd rules text o2 -> o1 = o2.
Proof.
  intros H text o1 H1.
  induction H1 as [text | r rules text text' out R1 RB IH]; intros o2 H2.
  - inversion H2. reflexivity.
  - inversion H as [ | r0 rules0 Hne Hrs ]; subst.
    inversion H2 as [ | r' rules' text0 text2 out2 R2 RB2 ]; subst.
    rewrite (Rewritten_functional Hne R2 R1) in RB2.
    apply (IH Hrs). exact RB2.
Qed.

End AnyReading.

Lemma replaceFrom_rewritten (w alias : jstr) :
  wordEdges w = true ->
  plainAlias alias = true ->
  forall (n : nat) (s before : jstr), (List.length s <= n)%nat ->
    Rewritten regexReading w alias (hd_error before) s
      (replaceFrom (plainTerms w) alias before s O).
Proof.
  intros Hw Ha. pose proof (wordEdges_nonempty Hw) as Hne.
  assert (Hnil : forall prev, wholeWordAt regexReading w prev [] = false).
  { intros prev. unfold wholeWordAt. destruct w; [congruence|].
    cbn [occursAt]. rewrite andb_false_r. reflexivity. }
  induction n as [|n IH]; intros s before Hn.
  - destruct s; [|simpl in Hn; lia].
    cbn [replaceFrom]. rewrite (matchAt_plain Hw), Hnil. constructor.
  - destruct s as [|c s].
    { cbn [replaceFrom]. rewrite (matchAt_plain Hw), Hnil. constructor. }
    cbn [replaceFrom]. rewrite (matchAt_plain Hw).
    destruct (wholeWordAt regexReading w (hd_error before) (c :: s)) eqn:M.
    + rewrite (getSubstitution_plain _ _ _ Ha).
      pose proof (wholeWordAt_length M) as Hlen.
      destruct (List.length w) as [|k] eqn:Lw.
      { destruct w; [congruence | discriminate]. }
      simpl in Hlen. rewrite replaceFrom_skip by lia.
      apply (@rw_match_at regexReading w alias _ (c :: s) (c :: firstn k s) (skipn k s)).
      * cbn [app]. rewrite firstn_skipn. reflexivity.
      * exact M.
      * cbn [List.length]. rewrite Lw, length_firstn. lia.
      * rewrite lastOf_cons, <- (hd_rev_lastOf (firstn k s) before c).
        apply IH. rewrite length_skipn. simpl in Hn. lia.
    + apply rw_copy; [exact M|].
      apply (IH s (c :: before)). simpl in Hn. lia.
Qed.

Lemma replace_plain (text : jstr) (r : PronunciationRule) :
  plainRule r = true ->
  exists out,
    RegExp.replace text (word r) (alias r) = Some (Ok out)
    /\ Rewritten regexReading (word r) (alias r) None text out.
Proof.
  unfold plainRule. rewrite !andb_true_iff.
  intros [[He Hw] Ha].
  unfold RegExp.replace. rewrite (parseTerms_plain Hw).
  eexists. split; [reflexivity|].
  apply (@replaceFrom_rewritten (word r) (alias r) He Ha (List.length text) text []).
  lia.
Qed.

Lemma plainRule_words (rules : list PronunciationRule) :
  forallb plainRule rules = true -> Forall (fun r => word r <> []) rules.
Proof.
  rewrite forallb_forall. intros H. apply Forall_forall. intros r Hr.
  apply wordEdges_nonempty. specialize (H r Hr). unfold plainRule in H.
  rewrite !andb_true_iff in H. tauto.
Qed.

Lemma applyRules_plain (rules : list PronunciationRule) :
  forallb plainRule rules = true ->
  forall text, exists out,
    applyRules text rules = Some (Ok out) /\ RewrittenBy regexReading rules text out.
Proof.
  induction rules as [|r rules IH]; intros H text.
  - exists text. split; [reflexivity | constructor].
  - cbn [forallb] in H. apply andb_true_iff in H. destruct H as [Hr Hrs].
    destruct (replace_plain text Hr) as [t' [E R]].
    destruct (IH Hrs t') as [out [E' R']].
    exists out. cbn [applyRules]. rewrite E. split; [exact E'|].
    econstructor; eassumption.
Qed.

End Rewriter.

(** ** NarrationOrchestrator *)

Section Orchestrator.

Import App.

Lemma chunksOf_defined (text : jstr) : exists chunks, chunksOf text = Some chunks.
Proof.
  unfold chunksOf, splitTextIntoChunks.
  destruct (jlen text <=? DEFAULT_MAX_CHARS) eqn:L; [eexists; reflexivity|].
  apply Z.leb_gt in L.
  assert (P : 1 <= DEFAULT_MAX_CHARS) by (unfold DEFAULT_MAX_CHARS; lia).
  destruct (@splitLoop_pieces text DEFAULT_MAX_CHARS P (List.length text) 0 [])
    as [pieces [E _]]; [unfold jlen; lia | unfold jlen; lia |].
  rewrite E. eexists. reflexivity.
Qed.

Lemma startsWith_refl_app (p s : jstr) : JS.startsWith (p ++ s) p = true.
Proof.
  induction p as [|x p IH]; [destruct s; reflexivity|].
  cbn. rewrite N.eqb_refl. exact IH.
Qed.

Lemma startsWith_app (s p t : jstr) :
  JS.startsWith s p = true -> JS.startsWith (s ++ t) p = true.
Proof.
  revert s. induction p as [|y p IH]; intros s H; [destruct (s ++ t); reflexivity|].
  destruct s as [|x s]; [discriminate|].
  cbn in *. apply andb_true_iff in H. destruct H as [E H].
  rewrite E. cbn. apply IH. exact H.
Qed.

Lemma endsWith_app_refl (s p : jstr) : JS.endsWith (s ++ p) p = true.
Proof. unfold JS.endsWith. rewrite rev_app_distr. apply startsWith_refl_app. Qed.

(** Lines 545-548 leave a chunk that opens and closes the container. *)
Lemma rewrap_wrapped (isSsml : bool) (chunk : jstr) :
  wrappedAs isSsml chunk (rewrap isSsml chunk).
Proof.
  unfold wrappedAs, rewrap. destruct isSsml; [|reflexivity].
  set (c := if negb (JS.startsWith chunk SPEAK_OPEN) then SPEAK_OPEN ++ chunk else chunk).
  assert (Hc : JS.startsWith c SPEAK_OPEN = true).
  { unfold c. destruct (JS.startsWith chunk SPEAK_OPEN) eqn:S; cbn [negb].
    - exact S.
    - apply startsWith_refl_app. }
  destruct (JS.endsWith c SPEAK_CLOSE) eqn:E; cbn [negb].
  - auto.
  - split; [apply startsWith_app; exact Hc | apply endsWith_app_refl].
Qed.

Lemma startsWith_spec (s p : jstr) : JS.startsWith s p = true <-> beginsWith s p.
Proof.
  unfold beginsWith. revert s. induction p as [|y p IH]; intros s.
  - split; [intros _; exists s; reflexivity | destruct s; reflexivity].
  - destruct s as [|x s].
    + split; [discriminate | intros [rest E]; discriminate E].
    + cbn [JS.startsWith]. rewrite andb_true_iff, N.eqb_eq, IH. split.
      * intros [-> [rest ->]]. exists rest. reflexivity.
      * intros [rest E]. injection E as -> ->. split; [reflexivity | exists rest; reflexivity].
Qed.

Lemma endsWith_spec (s p : jstr) : JS.endsWith s p = true <-> endsIn s p.
Proof.
  unfold JS.endsWith, endsIn. rewrite startsWith_spec. unfold beginsWith. split.
  - intros [rest E]. exists (rev rest).
    rewrite <- (rev_involutive s), E, rev_app_distr, rev_involutive. reflexivity.
  - intros [rest ->]. exists (rev rest). apply rev_app_distr.
Qed.

Lemma includes_unfold (s p : jstr) :
  JS.includes s p
  = JS.startsWith s p || match s with [] => false | _ :: s' => JS.includes s' p end.
Proof. destruct s; reflexivity. Qed.

(** [includes] is containment as a substring. *)
Lemma includes_spec (s p : jstr) : JS.includes s p = true <-> contains s p.
Proof.
  unfold contains. split.
  - induction s as [|c s IH]; rewrite includes_unfold, orb_true_iff.
    + intros [H | H]; [|discriminate]. apply startsWith_spec in H.
      destruct H as [rest E]. exists [], rest. exact E.
    + intros [H | H].
      * apply startsWith_spec in H. destruct H as [rest E]. exists [], rest. exact E.
      * destruct (IH H) as [before [after ->]]. exists (c :: before), after. reflexivity.
  - intros [before [after ->]]. induction before as [|c before IH].
    + rewrite includes_unfold. cbn [app]. rewrite startsWith_refl_app. reflexivity.
    + rewrite includes_unfold. cbn [app]. rewrite IH. apply orb_true_r.
Qed.

Lemma includes_false (s p : jstr) : JS.includes s p = false <-> ~ contains s p.
Proof.
  rewrite <- includes_spec. destruct (JS.includes s p); split; congruence.
Qed.

(** Lines 545-548 put the chunk into a container of its own. *)
Lemma rewrap_rewrapped (chunk : jstr) : rewrapped chunk (rewrap true chunk).
Proof.
  pose proof (rewrap_wrapped true chunk) as [B E].
  apply startsWith_spec in B. apply endsWith_spec in E.
  split; [exact B|]. split; [exact E|]. clear B E.
  unfold rewrap.
  destruct (JS.startsWith chunk SPEAK_OPEN) eqn:S; cbn [negb].
  - destruct (JS.endsWith chunk SPEAK_CLOSE) eqn:C; cbn [negb].
    + exists [], []. rewrite app_nil_r. auto.
    + exists [], SPEAK_CLOSE. split; [reflexivity|]. split; [auto|]. right.
      split; [reflexivity|]. cbn [app]. rewrite <- endsWith_spec. congruence.
  - assert (N : ~ beginsWith chunk SPEAK_OPEN) by (rewrite <- startsWith_spec; congruence).
    destruct (JS.endsWith (SPEAK_OPEN ++ chunk) SPEAK_CLOSE) eqn:C; cbn [negb].
    + exists SPEAK_OPEN, []. rewrite app_nil_r. auto.
    + exists SPEAK_OPEN, SPEAK_CLOSE. rewrite <- app_assoc. split; [reflexivity|].
      split; [auto|]. right. split; [reflexivity|]. rewrite <- endsWith_spec. congruence.
Qed.

Lemma rewrapped_all (chunks : list jstr) :
  Forall2 rewrapped chunks (map (rewrap true) chunks).
Proof.
  induction chunks as [|c chunks IH]; constructor; [apply rewrap_rewrapped | exact IH].
Qed.

Lemma sentText_requestOf (st : Studio) (chunkToSynthesize : jstr) :
  sentText (requestOf st chunkToSynthesize) = promptPrefix st ++ chunkToSynthesize
  /\ isTranslateRequest (requestOf st chunkToSynthesize) = false.
Proof.
  unfold requestOf, promptPrefix. destruct (narrationProvider st); split; reflexivity.
Qed.

Variable w : World.
Variable st : Studio.
Variable isSsml : bool.

(** The loop sends the chunks in order, one request each, and stops at
    the first that fails. *)
Lemma synthesizeFrom_requests (chunks : list jstr) :
  forall i audioParts log,
  exists n,
    (n <= List.length chunks)%nat
    /\ snd (synthesizeFrom w st isSsml i chunks audioParts log)
       = log ++ map (dispatch st isSsml) (firstn n chunks)
    /\ (forall parts, fst (synthesizeFrom w st isSsml i chunks audioParts log) = Ok parts ->
        n = List.length chunks).
Proof.
  induction chunks as [|c chunks IH]; intros i audioParts log.
  - exists O. cbn. rewrite app_nil_r. auto.
  - cbn [synthesizeFrom].
    destruct (synthesizeChunk w st i (rewrap isSsml c)) as [part | m].
    + destruct (IH (S i) (pushPart audioParts part) (log ++ [requestOf st (rewrap isSsml c)]))
        as [n [Hn [E F]]].
      exists (S n). cbn [List.length firstn map]. split; [lia|]. split.
      * rewrite E, <- app_assoc. reflexivity.
      * intros parts Hp. rewrite (F parts Hp). reflexivity.
    + exists 1%nat. cbn. split; [lia|]. split; [reflexivity | discriminate].
Qed.


(** The requests already sent only stand before the loop's own. *)
Lemma synthesizeFrom_log (chunks : list jstr) :
  forall i audioParts log,
    synthesizeFrom w st isSsml i chunks audioParts log
    = (fst (synthesizeFrom w st isSsml i chunks audioParts []),
       log ++ snd (synthesizeFrom w st isSsml i chunks audioParts [])).
Proof.
  induction chunks as [|c chunks IH]; intros i audioParts log.
  - cbn. rewrite app_nil_r. reflexivity.
  - cbn [synthesizeFrom].
    destruct (synthesizeChunk w st i (rewrap isSsml c)) as [part | m].
    + rewrite IH.
      rewrite (IH (S i) (pushPart audioParts part) ([] ++ [requestOf st (rewrap isSsml c)])).
      cbn [fst snd app]. rewrite <- app_assoc. reflexivity.
    + cbn. reflexivity.
Qed.

Lemma finish_log (text : jstr) (req : Request) :
  finish w st isSsml text [req]
  = option_map (withRequestFirst req) (finish w st isSsml text []).
Proof.
  unfold finish. destruct (chunksOf text) as [chunks|]; [|reflexivity].
  rewrite (synthesizeFrom_log chunks O [] [req]).
  destruct (synthesizeFrom w st isSsml O chunks [] []) as [[parts | e] log']; reflexivity.
Qed.

Lemma finish_requests (text : jstr) (log : list Request) (run : Run) :
  finish w st isSsml text log = Some run ->
  exists all n,
    chunksOf text = Some all
    /\ requests run = log ++ map (dispatch st isSsml) (firstn n all).
Proof.
  unfold finish. destruct (chunksOf text) as [chunks|]; [|discriminate].
  destruct (synthesizeFrom_requests chunks O [] log) as [n [_ [E _]]].
  destruct (synthesizeFrom w st isSsml O chunks [] log) as [[parts | e] log'];
    cbn [snd] in E; intros H; injection H as <-; exists chunks, n; auto.
Qed.

(** From the rule-substituted text on, a run always comes to its end. *)
Lemma produce_defined (t : jstr) : exists run, produce w st t = Some run.
Proof.
  unfold produce. destruct (translateStep w st t) as [[text | e] log].
  - unfold finish. destruct (chunksOf_defined text) as [chunks ->].
    destruct (synthesizeFrom w st _ O chunks [] log) as [[parts | e] log'];
      eexists; reflexivity.
  - eexists. reflexivity.
Qed.

End Orchestrator.

Section Runs.

Import App.

Variable w : World.
Variable st : Studio.

Lemma synthesizeFrom_language (language : jstr) (isSsml : bool) (chunks : list jstr) :
  forall i audioParts log,
    synthesizeFrom w (withLanguage language st) isSsml i chunks audioParts log
    = synthesizeFrom w st isSsml i chunks audioParts log.
Proof.
  induction chunks as [|c chunks IH]; intros i audioParts log; [reflexivity|].
  cbn [synthesizeFrom].
  change (synthesizeChunk w (withLanguage language st) i (rewrap isSsml c))
    with (synthesizeChunk w st i (rewrap isSsml c)).
  change (requestOf (withLanguage language st) (rewrap isSsml c))
    with (requestOf st (rewrap isSsml c)).
  destruct (synthesizeChunk w st i (rewrap isSsml c)); [apply IH | reflexivity].
Qed.

Lemma finish_language (language : jstr) (isSsml : bool) (text : jstr) (log : list Request) :
  finish w (withLanguage language st) isSsml text log = finish w st isSsml text log.
Proof.
  unfold finish. destruct (chunksOf text) as [chunks|]; [|reflexivity].
  rewrite synthesizeFrom_language. reflexivity.
Qed.

Lemma jstr_eqb_refl (a : jstr) : jstr_eqb a a = true.
Proof. unfold jstr_eqb. destruct (list_eq_dec N.eq_dec a a); congruence. Qed.

Lemma produce_default_language (t : jstr) :
  produce w (withLanguage DEFAULT_LANGUAGE st) t
  = finish w st (JS.includes t SPEAK_OPEN) t [].
Proof.
  unfold produce, translateStep.
  change (narrationLanguage (withLanguage DEFAULT_LANGUAGE st)) with DEFAULT_LANGUAGE.
  rewrite jstr_eqb_refl. cbn [negb]. apply finish_language.
Qed.

Lemma no_translate_in_dispatch (isSsml : bool) (chunks : list jstr) :
  forallb (fun r => negb (isTranslateRequest r)) (map (dispatch st isSsml) chunks) = true.
Proof.
  induction chunks as [|c chunks IH]; [reflexivity|].
  cbn [map forallb]. unfold dispatch at 1.
  rewrite (proj2 (sentText_requestOf st (rewrap isSsml c))). exact IH.
Qed.


(** C8 (amended): when the requested language is not the default one, the
    whole rule-substituted script goes to the translation capability in one
    request, the first of the run and its only translation request.  If the
    reply carries no usable text, the run is the run of the untranslated
    script with that request before its own; if it carries text, that text
    is chunked and synthesized; if the call itself fails, the run ends
    there with the failure as its error and no audio. *)
Theorem translation_pre_pass (t : jstr) :
  jstr_eqb (narrationLanguage st) DEFAULT_LANGUAGE = false ->
  let req := TranslateRequest TRANSLATION_MODEL
               (translationPrompt (narrationLanguage st) t) in
  match translateContent w TRANSLATION_MODEL
          (translationPrompt (narrationLanguage st) t) with
  | Fails m => produce w st t = Some (failed (Error m) [req])
  | Reply r =>
      match truthy r with
      | None =>
          produce w st t
          = option_map (withRequestFirst req)
              (produce w (withLanguage DEFAULT_LANGUAGE st) t)
      | Some t' => produce w st t = finish w st (JS.includes t SPEAK_OPEN) t' [req]
      end
  end
  /\ forall run, produce w st t = Some run ->
       exists rest,
         requests run = req :: rest
         /\ forallb (fun r => negb (isTranslateRequest r)) rest = true.
Proof.
  intros Hlang req. split.
  - destruct (translateContent w TRANSLATION_MODEL
                (translationPrompt (narrationLanguage st) t)) as [r | m] eqn:T.
    + destruct (truthy r) as [t'|] eqn:U.
      * unfold produce, translateStep. rewrite Hlang. cbn [negb]. rewrite T, U.
        reflexivity.
      * rewrite produce_default_language, <- finish_log.
        unfold produce, translateStep. rewrite Hlang. cbn [negb]. rewrite T, U.
        reflexivity.
    + unfold produce, translateStep. rewrite Hlang. cbn [negb]. rewrite T.
      reflexivity.
  - intros run. unfold produce, translateStep. rewrite Hlang. cbn [negb]. fold req.
    destruct (translateContent w TRANSLATION_MODEL _) as [r | m].
    + set (text := match truthy r with Some t0 => t0 | None => t end).
      replace (match truthy r with Some t0 => Ok t0 | None => Ok t end)
        with (@Ok jstr text) by (unfold text; destruct (truthy r); reflexivity).
      intros H. destruct (finish_requests H) as [all [n [_ E]]].
      exists (map (dispatch st (JS.includes t SPEAK_OPEN)) (firstn n all)).
      split; [exact E | apply no_translate_in_dispatch].
    + intros H. injection H as <-. exists []. auto.
Qed.

(** The requests of the synthesis loop are those of a prefix of the
    chunks, which is all of them when the loop comes to its end. *)
Lemma finish_dispatched (isSsml : bool) (text : jstr) (log : list Request) :
  exists run chunks n,
    finish w st isSsml text log = Some run
    /\ chunksOf text = Some chunks
    /\ (n <= List.length chunks)%nat
    /\ (error run = None -> n = List.length chunks)
    /\ requests run = log ++ map (requestOf st) (map (rewrap isSsml) (firstn n chunks)).
Proof.
  unfold finish. destruct (chunksOf_defined text) as [chunks C]. rewrite C.
  destruct (synthesizeFrom_requests w st isSsml chunks O [] log) as [n [Hn [E F]]].
  unfold dispatch in E. rewrite <- map_map in E.
  destruct (synthesizeFrom w st isSsml O chunks [] log) as [[parts | e] log'];
    cbn [snd fst] in E, F; eexists; exists chunks, n;
    (split; [reflexivity|]); (split; [reflexivity|]); (split; [exact Hn|]);
    (split; [|exact E]).
  - intros _. exact (F parts eq_refl).
  - discriminate.
Qed.

(** C10: whether the chunks are put into containers is decided by whether
    the rule-substituted script contains ["<speak>"] somewhere, and by
    nothing else.  The run sends, after the translation request if there is
    one, one request for each chunk of the text it works on (the translated
    script, or the rule-substituted one), in order, up to the chunk that
    fails if one does.  If the rule-substituted script contains
    ["<speak>"], what is sent for a chunk begins with ["<speak>"] and ends
    in ["</speak>"]: the chunk with the opening tag put before it unless it
    begins with it, and the closing tag after it unless it ends in it.  If
    the script does not contain ["<speak>"], what is sent is the chunk
    itself.  The text of a request is what is sent, after the instruction
    prefix of a custom profile where one is selected for the primary
    engine. *)
Theorem rewrap_by_containment (ruleAppliedText : jstr) :
  applyRules (narrationText st) (pronunciationRules st) = Some (Ok ruleAppliedText) ->
  exists run,
    generateNarration w st = Some run
    /\ match translateStep w st ruleAppliedText with
       | (Throw _, log) => requests run = log
       | (Ok text, log) =>
           exists chunks n sent,
             chunksOf text = Some chunks
             /\ (n <= List.length chunks)%nat
             /\ (error run = None -> n = List.length chunks)
             /\ requests run = log ++ map (requestOf st) sent
             /\ map sentText (map (requestOf st) sent)
                = map (fun s => promptPrefix st ++ s) sent
             /\ (contains ruleAppliedText SPEAK_OPEN ->
                 Forall2 rewrapped (firstn n chunks) sent)
             /\ (~ contains ruleAppliedText SPEAK_OPEN -> sent = firstn n chunks)
       end.
Proof.
  intros Hrules. unfold generateNarration. rewrite Hrules. unfold produce.
  destruct (translateStep w st ruleAppliedText) as [[text | e] log].
  - destruct (finish_dispatched (JS.includes ruleAppliedText SPEAK_OPEN) text log)
      as [run [chunks [n [R [C [Hn [F E]]]]]]].
    exists run. split; [exact R|].
    exists chunks, n, (map (rewrap (JS.includes ruleAppliedText SPEAK_OPEN)) (firstn n chunks)).
    split; [exact C|]. split; [exact Hn|]. split; [exact F|]. split; [exact E|].
    split; [|split].
    + rewrite map_map. apply map_ext. intros s. apply sentText_requestOf.
    + intros H. apply includes_spec in H. rewrite H. apply rewrapped_all.
    + intros H. apply includes_false in H. rewrite H.
      unfold rewrap. apply map_id.
  - eexists. split; reflexivity.
Qed.

End Runs.

(** ** DuplexSession *)

Section Playback.

Import Duplex.

Lemma duration_nonneg (b : AudioBuffer) : (0 <= duration b)%Q.
Proof. unfold duration, Qle. simpl. lia. Qed.

Lemma cursor_advances (currentTime cursor : Q) (b : AudioBuffer) :
  (cursor <= Qmax currentTime cursor + duration b)%Q.
Proof.
  apply Qle_trans with (Qmax currentTime cursor); [apply Q.le_max_r|].
  rewrite <- (Qplus_0_r (Qmax currentTime cursor)) at 1.
  apply Qplus_le_r. apply duration_nonneg.
Qed.

(** No event of a session moves the cursor back. *)
Lemma step_cursor (e : Event) (s : Session) :
  inSession e = true -> (nextStartTimeRef s <= nextStartTimeRef (step e s))%Q.
Proof.
  destruct e as [connect | tracks processor | currentTime b x | x | ]; intros H;
    try discriminate; try apply Qle_refl.
  cbn [step]. unfold schedule.
  destruct (outputAudioContextRef s); [|apply Qle_refl].
  cbn. apply cursor_advances.
Qed.

Lemma run_cursor (events : list Event) :
  forall s, forallb inSession events = true ->
    (nextStartTimeRef s <= nextStartTimeRef (run events s))%Q.
Proof.
  induction events as [|e events IH]; intros s H; [apply Qle_refl|].
  cbn [forallb] in H. apply andb_true_iff in H. destruct H as [He Hes].
  cbn [run fold_left]. apply Qle_trans with (nextStartTimeRef (step e s)).
  - apply step_cursor. exact He.
  - apply (IH (step e s) Hes).
Qed.

(** Sources are only ever held while there is an output context. *)
Lemma sources_need_context (s : Session) :
  Reachable s -> outputAudioContextRef s = None -> sourcesRef s = [].
Proof.
  induction 1 as [|e s R IH]; [reflexivity|].
  destruct e as [connect | tracks processor | currentTime b x | x | ]; cbn [step].
  - discriminate.
  - exact IH.
  - unfold schedule. destruct (outputAudioContextRef s) eqn:C.
    + cbn. rewrite C. discriminate.
    + intros _. apply IH. reflexivity.
  - cbn. intros C. rewrite (IH C). reflexivity.
  - cbn. intros _. destruct (outputAudioContextRef s) eqn:C; [reflexivity|].
    apply IH. reflexivity.
Qed.

Lemma map_finalize_idem (l : list TranscriptMessage) :
  map finalize (map finalize l) = map finalize l.
Proof. rewrite map_map. apply map_ext. intros []; reflexivity. Qed.

(** C3: with an output context open, a decoded buffer is started at the
    later of the clock reading and the cursor, and the cursor moves to that
    start plus the buffer's duration; a buffer scheduled later in the
    session, whatever happens in between, starts no earlier than that; the
    cursor never decreases along the events of the session; and three
    buffers, each arriving no later than the end of the one before, the
    first no earlier than the cursor, start at t1, t1 + d1 and
    t1 + d1 + d2. *)
Theorem playback_schedule (s : Session) (ctx : positive) :
  outputAudioContextRef s = Some ctx ->
  (forall currentTime b x,
     schedule currentTime b x s
     = Some (withPlayback s (addSource x (sourcesRef s))
               (Qmax currentTime (nextStartTimeRef s) + duration b)%Q,
             [SourceStart x (Qmax currentTime (nextStartTimeRef s))]))
  /\ (forall t1 b1 x1 events t2 b2 x2 s1 q1 s2 q2,
        schedule t1 b1 x1 s = Some (s1, [SourceStart x1 q1]) ->
        forallb inSession events = true ->
        schedule t2 b2 x2 (run events s1) = Some (s2, [SourceStart x2 q2]) ->
        (q1 + duration b1 <= q2)%Q)
  /\ (forall events, forallb inSession events = true ->
        (nextStartTimeRef s <= nextStartTimeRef (run events s))%Q)
  /\ (forall t1 t2 t3 b1 b2 b3 x1 x2 x3,
        (nextStartTimeRef s <= t1)%Q ->
        (t2 <= t1 + duration b1)%Q ->
        (t3 <= t1 + duration b1 + duration b2)%Q ->
        exists s' q1 q2 q3,
          scheduleAll [(t1, b1, x1); (t2, b2, x2); (t3, b3, x3)] s
          = Some (s', [SourceStart x1 q1; SourceStart x2 q2; SourceStart x3 q3])
          /\ (q1 == t1)%Q
          /\ (q2 == t1 + duration b1)%Q
          /\ (q3 == t1 + duration b1 + duration b2)%Q).
Proof.
  intros C. split; [|split; [|split]].
  - intros currentTime b x. unfold schedule. rewrite C. reflexivity.
  - intros t1 b1 x1 events t2 b2 x2 s1 q1 s2 q2 H1 Hev H2.
    unfold schedule in H1. rewrite C in H1. injection H1 as <- <-.
    unfold schedule in H2.
    destruct (outputAudioContextRef (run events _)); [|discriminate].
    injection H2 as _ <-.
    eapply Qle_trans; [|apply Q.le_max_r].
    eapply Qle_trans; [|apply (run_cursor Hev)].
    cbn. apply Qle_refl.
  - intros events H. apply (run_cursor H).
  - intros t1 t2 t3 b1 b2 b3 x1 x2 x3 H1 H2 H3.
    cbn [scheduleAll]. unfold schedule. rewrite C. cbn. rewrite C. cbn. rewrite C. cbn.
    do 4 eexists. split; [reflexivity|].
    assert (E1 : (Qmax t1 (nextStartTimeRef s) == t1)%Q) by (apply Q.max_l; exact H1).
    assert (E2 : (Qmax t2 (Qmax t1 (nextStartTimeRef s) + duration b1) == t1 + duration b1)%Q).
    { rewrite Q.max_r; [rewrite E1; reflexivity|]. rewrite E1. exact H2. }
    split; [exact E1|]. split; [exact E2|].
    rewrite Q.max_r; [rewrite E2; reflexivity|]. rewrite E2. exact H3.
Qed.

(** C9 (amended): from any state the app can be in, [stopSession] leaves
    no session, stream, processor or context and no source, active flag
    off; it closes the session, stops every track of the stream,
    disconnects the processor, stops every source still held and closes
    both contexts, whichever of them are there; it leaves the playback
    cursor as it is, and the next [startSession] sets it to zero; a second
    call does nothing and changes nothing. *)
Theorem stopSession_teardown (s : Session) :
  Reachable s ->
  let s' := fst (stopSession s) in
  let effects := snd (stopSession s) in
  (sessionRef s' = None /\ streamRef s' = None /\ scriptProcessorRef s' = None
   /\ inputAudioContextRef s' = None /\ outputAudioContextRef s' = None
   /\ sourcesRef s' = [] /\ isSessionActive s' = false)
  /\ ((sessionRef s <> None -> In SessionClose effects)
      /\ (forall tracks track, streamRef s = Some tracks -> In track tracks ->
            In (TrackStop track) effects)
      /\ (scriptProcessorRef s <> None -> In ProcessorDisconnect effects)
      /\ (forall x, In x (sourcesRef s) -> In (SourceStop x) effects)
      /\ (inputAudioContextRef s <> None -> In (ContextClose InputContext) effects)
      /\ (outputAudioContextRef s <> None -> In (ContextClose OutputContext) effects))
  /\ nextStartTimeRef s' = nextStartTimeRef s
  /\ (forall connect, nextStartTimeRef (startSession connect s') = 0%Q)
  /\ stopSession s' = (s', []).
Proof.
  intros R s' effects. pose proof (sources_need_context R) as Inv.
  split; [|split; [|split; [|split]]].
  - subst s'. cbn. repeat split.
    destruct (outputAudioContextRef s); [reflexivity | apply Inv; reflexivity].
  - subst effects. cbn [stopSession snd]. repeat split.
    + intros H. destruct (sessionRef s); [|congruence]. cbn. auto.
    + intros tracks track E Hin. rewrite E. cbn [whenSome].
      apply in_or_app. right. apply in_or_app. left.
      apply in_map. exact Hin.
    + intros H. destruct (scriptProcessorRef s); [|congruence].
      do 2 (apply in_or_app; right). apply in_or_app. left. cbn. auto.
    + intros x Hin. destruct (outputAudioContextRef s) eqn:C.
      * do 4 (apply in_or_app; right). cbn [whenSome].
        apply in_or_app. left. apply in_map. exact Hin.
      * rewrite (Inv eq_refl) in Hin. destruct Hin.
    + intros H. destruct (inputAudioContextRef s); [|congruence].
      do 3 (apply in_or_app; right). apply in_or_app. left. cbn. auto.
    + intros H. destruct (outputAudioContextRef s); [|congruence].
      do 4 (apply in_or_app; right). cbn [whenSome].
      apply in_or_app. right. cbn. auto.
  - reflexivity.
  - reflexivity.
  - subst s'. unfold stopSession. cbn. rewrite map_finalize_idem. reflexivity.
Qed.

End Playback.

(** ** The claims on concrete runs *)

Section Examples.

Import RegExp Reference.

Lemma occursAt_here (rd : Reading) (w s : jstr) : occursAt rd w (w ++ s) = true.
Proof.
  induction w as [|p w IH]; [reflexivity|].
  cbn [app occursAt]. rewrite N.eqb_refl. exact IH.
Qed.

Lemma nth_error_after (A : Type) (w s : list A) :
  nth_error (w ++ s) (List.length w) = hd_error s.
Proof. induction w as [|p w IH]; [destruct s; reflexivity | exact IH]. Qed.

(** A word between two places that hold no character of a word stands
    there as a whole word, whatever the reading. *)
Lemma wholeWordAt_here (rd : Reading) (w s : jstr) (prev : option code_unit) :
  wordCharacterAt rd prev = false ->
  wordCharacterAt rd (hd_error s) = false ->
  wholeWordAt rd w prev (w ++ s) = true.
Proof.
  intros Hp Hs. unfold wholeWordAt.
  rewrite Hp, occursAt_here, nth_error_after, Hs. reflexivity.
Qed.

Lemma departsAt_whole_word (rd : Reading) (r : PronunciationRule) (after out : jstr) :
  word r <> [] ->
  wordCharacterAt rd (hd_error after) = false ->
  applyRules (word r ++ after) [r] = Some (Ok out) ->
  (forall out', out <> alias r ++ out') ->
  departsAt rd [r] (word r ++ after) out.
Proof.
  intros Hne Ha E D. split; [exact E|]. split.
  - destruct (@Rewritten_total rd (word r) (alias r) Hne
                (List.length (word r ++ after)) (word r ++ after) None) as [o R]; [lia|].
    exists o. apply RewrittenBy_one. exact R.
  - intros out' H. apply RewrittenBy_single in H.
    destruct (word r ++ after) as [|c s] eqn:T.
    { destruct (word r); [congruence | discriminate]. }
    apply (Rewritten_step Hne) in H. rewrite <- T in H.
    rewrite (@wholeWordAt_here rd (word r) after None eq_refl Ha) in H.
    destruct H as [o [-> _]]. intros C. exact (D o (eq_sym C)).
Qed.

(** C6: the rule word is read as a pattern between two [\b] and the alias
    as a replacement pattern, so the rewriter does not replace the whole-word
    matches of the word by the alias, whichever characters are taken to
    make up words as long as a space is not one of them and e-acute is.
    For the rule U.S. -> United States it leaves "U.S." alone and rewrites
    "USSR"; it does not find "C#" where it stands between the start of the
    text and a space; for the alias "$$" it writes "$"; and it rewrites
    "kit" inside the word "kit" followed by e-acute. *)
Theorem applyRules_not_whole_words (rd : Reading) :
  wordCharacter rd SPACE = false ->
  wordCharacter rd E_ACUTE = true ->
  departsAt rd [rule "U.S." "United States"] (lit "U.S. and USSR")
    (lit "U.S. and United States")
  /\ departsAt rd [rule "C#" "C sharp"] (lit "C# rocks") (lit "C# rocks")
  /\ departsAt rd [rule "cash" "$$"] (lit "cash") (lit "$")
  /\ departsAt rd [rule "kit" "Z"] (lit "kit" ++ [E_ACUTE]) (lit "Z" ++ [E_ACUTE]).
Proof.
  intros Hs He. split; [|split; [|split]].
  - apply (@departsAt_whole_word rd (rule "U.S." "United States") (lit " and USSR")).
    + discriminate.
    + exact Hs.
    + vm_compute. reflexivity.
    + intros out' C. vm_compute in C. discriminate C.
  - apply (@departsAt_whole_word rd (rule "C#" "C sharp") (lit " rocks")).
    + discriminate.
    + exact Hs.
    + vm_compute. reflexivity.
    + intros out' C. vm_compute in C. discriminate C.
  - apply (@departsAt_whole_word rd (rule "cash" "$$") []).
    + discriminate.
    + reflexivity.
    + vm_compute. reflexivity.
    + intros out' C. vm_compute in C. discriminate C.
  - split; [vm_compute; reflexivity|]. split.
    + destruct (@Rewritten_total rd (lit "kit") (lit "Z") ltac:(discriminate)
                  4%nat (lit "kit" ++ [E_ACUTE]) None) as [o R]; [simpl; lia|].
      exists o. apply (@RewrittenBy_one rd (rule "kit" "Z")). exact R.
    + intros out' H. apply RewrittenBy_single in H.
      change (Rewritten rd (lit "kit") (lit "Z") None (107%N :: lit "it" ++ [E_ACUTE]) out')
        in H.
      apply Rewritten_step in H; [|discriminate].
      assert (W : wholeWordAt rd (lit "kit") None (lit "kit" ++ [E_ACUTE]) = false).
      { unfold wholeWordAt.
        rewrite (@nth_error_after _ (lit "kit") [E_ACUTE]).
        cbn [hd_error wordCharacterAt]. rewrite He. apply andb_false_r. }
      change (107%N :: lit "it" ++ [E_ACUTE]) with (lit "kit" ++ [E_ACUTE]) in H.
      rewrite W in H. destruct H as [o [-> _]]. discriminate.
Qed.

Lemma applyRules_not_whole_words_witness :
  departsAt latinReading [rule "U.S." "United States"] (lit "U.S. and USSR")
    (lit "U.S. and United States").
Proof.
  exact (proj1 (@applyRules_not_whole_words latinReading eq_refl eq_refl)).
Defined.

(** Scenario C: Gemini -> Jeminai turns "Ask Gemini about Gemini." into
    "Ask Jeminai about Jeminai.", whatever the case of the letters in the
    text, and leaves "Geminis" alone; cat -> dog then dog -> bird turns
    "cat dog" into "bird bird": each rule reads what the one before it
    wrote. *)
Example scenario_C :
  applyRules (lit "Ask Gemini about Gemini.") [rule "Gemini" "Jeminai"]
  = Some (Ok (lit "Ask Jeminai about Jeminai."))
  /\ applyRules (lit "Two Geminis ask gemini.") [rule "Gemini" "Jeminai"]
     = Some (Ok (lit "Two Geminis ask Jeminai."))
  /\ applyRules (lit "cat dog") [rule "cat" "dog"; rule "dog" "bird"]
     = Some (Ok (lit "bird bird")).
Proof. repeat split; vm_compute; reflexivity. Qed.

Lemma applyRules_nil (text : jstr) : applyRules text [] = Some (Ok text).
Proof. reflexivity. Qed.

(** A word with pattern syntax is read as a pattern: ["a.c"] also rewrites
    ["abc"], and the alias ["<$&>"] writes the match back between angle
    brackets. *)
Example word_read_as_pattern :
  applyRules (lit "abc a.c") [rule "a.c" "<$&>"] = Some (Ok (lit "<abc> <a.c>")).
Proof. vm_compute. reflexivity. Qed.

(** C7: the rule word "C++" makes [new RegExp] throw: rule application
    raises a SyntaxError, and the run ends with that error, no request
    sent and no audio. *)
Theorem applyRules_throws :
  applyRules (lit "I like C++.") [rule "C++" "C plus plus"]
  = Some (Throw (SyntaxError (lit "\bC++\b")))
  /\ App.generateNarration noAudio
       (studio gemini_2_5_tts App.DEFAULT_LANGUAGE (lit "I like C++.")
          [rule "C++" "C plus plus"])
     = Some (App.failed (SyntaxError (lit "\bC++\b")) []).
Proof. split; vm_compute; reflexivity. Qed.

(** C5: the primary engine answers a chunk without inline audio.  The
    run of [App.tsx] goes on and ends without error, its audio the WAV of
    no samples; the single-request [generateNarration] throws
    "No audio returned" on the same answer.  Of several payloads the first
    takes the first, the second the last. *)
Theorem primary_engine_without_audio :
  App.generateNarration noAudio
    (studio gemini_2_5_tts App.DEFAULT_LANGUAGE (lit "Hello.") [])
  = Some {| App.isGenerating := false;
            App.error := None;
            App.audioUrl := Some (WavBlob [] 24000 1);
            App.requests :=
              [GeminiRequest (lit "gemini-2.5-flash-preview-tts") (lit "Hello.")
                 (lit "Charon")] |}
  /\ AppSingle.generateNarration noAudio
       {| AppSingle.geminiKey := lit "key";
          AppSingle.narrationText := lit "Hello.";
          AppSingle.pronunciationRules := [];
          AppSingle.previousAudioUrl := None |}
     = Some (AppSingle.failed (Error (lit "No audio returned"))
               [GeminiRequest (lit "gemini-2.5-flash-preview-tts") (lit "Hello.") []])
  /\ App.firstInlineData [textPart; audioPart "AAAA"; audioPart "BBBB"] = Some (lit "AAAA")
  /\ AppSingle.lastInlineData [textPart; audioPart "AAAA"; audioPart "BBBB"] None
     = Some (lit "BBBB").
Proof. repeat split; vm_compute; reflexivity. Qed.

(** C8 as stated fails: the translation call is rejected, and the run
    ends there, with the rejection as its error, no audio, and no chunk
    sent to synthesis. *)
Lemma translation_failure_aborts :
  App.generateNarration translationDown
    (studio gemini_2_5_tts (lit "French (FR)") (lit "Hello.") [])
  = Some (App.failed (Error (lit "quota exceeded"))
            [TranslateRequest App.TRANSLATION_MODEL
               (App.translationPrompt (lit "French (FR)") (lit "Hello."))]).
Proof. vm_compute. reflexivity. Qed.

End Examples.

(** ** Instances *)

Section Instances.

Lemma splitTextIntoChunks_bounded_witness :
  exists chunks,
    splitTextIntoChunks 19 (lit "hello world foo bar") 7 = Some chunks
    /\ Forall (fun c => 0 < jlen c <= 7 /\ JS.trim c = c /\ c <> []) chunks.
Proof.
  apply (@splitTextIntoChunks_bounded (lit "hello world foo bar") 7).
  - lia.
  - vm_compute. reflexivity.
  - vm_compute. lia.
Defined.

Lemma splitTextIntoChunks_preserves_content_witness :
  exists chunks,
    splitTextIntoChunks 21 (lit "  hello world foo bar") 5 = Some chunks
    /\ (chunks = [lit "  hello world foo bar"]
        \/ exists pieces,
             List.concat pieces = lit "  hello world foo bar"
             /\ chunks = filter nonEmpty (map JS.trim pieces))
    /\ filter notWhiteSpace (List.concat chunks)
       = filter notWhiteSpace (lit "  hello world foo bar").
Proof.
  apply (@splitTextIntoChunks_preserves_content (lit "  hello world foo bar") 5).
  - lia.
  - vm_compute. lia.
Defined.

(** Scenario A: a thousand times ["Hello. "] comes back as three chunks,
    none longer than 3000. *)
Example scenario_A :
  option_map (map jlen) (App.chunksOf (hellos 1000)) = Some [2995; 2995; 1007].
Proof. vm_compute. reflexivity. Qed.

(** With [maxChars = 0] the loop of the source never ends on a text that
    is not empty: no amount of fuel gives a result. *)
Lemma splitTextIntoChunks_zero (fuel : nat) (text : jstr) :
  text <> [] -> splitTextIntoChunks fuel text 0 = None.
Proof.
  intros Ht. unfold splitTextIntoChunks.
  assert (L : 0 < jlen text) by (destruct text; [congruence | unfold jlen; simpl; lia]).
  replace (jlen text <=? 0) with false by (symmetry; apply Z.leb_gt; exact L).
  assert (E : nextEndPos text 0 0 = 0).
  { unfold nextEndPos. cbn [Z.add].
    replace (0 >? jlen text) with false by (symmetry; rewrite Z.gtb_ltb; apply Z.ltb_ge; lia).
    replace (0 <? jlen text) with true by (symmetry; apply Z.ltb_lt; exact L).
    pose proof (lastIndexOf_bounds SPACE 0 Ht) as B1.
    pose proof (lastIndexOf_bounds NEWLINE 0 Ht) as B2.
    replace (Z.max (JS.lastIndexOf SPACE text 0) (JS.lastIndexOf NEWLINE text 0) >? 0)
      with false; [reflexivity|].
    symmetry. rewrite Z.gtb_ltb. apply Z.ltb_ge. lia. }
  assert (G : forall chunks, splitLoop fuel text 0 0 chunks = None).
  { induction fuel as [|fuel IH]; intros chunks; cbn [splitLoop];
      replace (0 <? jlen text) with true by (symmetry; apply Z.ltb_lt; exact L).
    - reflexivity.
    - rewrite E. apply IH. }
  rewrite G. reflexivity.
Qed.


Lemma translation_pre_pass_witness :
  App.produce translationEmpty
    (studio gemini_2_5_tts (lit "French (FR)") (lit "Hello.") []) (lit "Hello.")
  = option_map
      (withRequestFirst
         (TranslateRequest App.TRANSLATION_MODEL
            (App.translationPrompt (lit "French (FR)") (lit "Hello."))))
      (App.produce translationEmpty
         (withLanguage App.DEFAULT_LANGUAGE
            (studio gemini_2_5_tts (lit "French (FR)") (lit "Hello.") []))
         (lit "Hello.")).
Proof.
  assert (H : jstr_eqb
                (App.narrationLanguage
                   (studio gemini_2_5_tts (lit "French (FR)") (lit "Hello.") []))
                App.DEFAULT_LANGUAGE = false) by (vm_compute; reflexivity).
  exact (proj1 (@translation_pre_pass translationEmpty
                  (studio gemini_2_5_tts (lit "French (FR)") (lit "Hello.") [])
                  (lit "Hello.") H)).
Defined.

Lemma rewrap_by_containment_witness :
  exists run,
    App.generateNarration secondFails
      (studio elevenlabs App.DEFAULT_LANGUAGE (lit "Intro <speak>Hello</speak> outro")
         [rule "Hello" "Hi"])
    = Some run
    /\ exists chunks n sent,
         App.chunksOf (lit "Intro <speak>Hi</speak> outro") = Some chunks
         /\ (n <= List.length chunks)%nat
         /\ (App.error run = None -> n = List.length chunks)
         /\ App.requests run
            = [] ++ map (App.requestOf
                           (studio elevenlabs App.DEFAULT_LANGUAGE
                              (lit "Intro <speak>Hello</speak> outro") [rule "Hello" "Hi"]))
                      sent
         /\ map sentText
              (map (App.requestOf
                      (studio elevenlabs App.DEFAULT_LANGUAGE
                         (lit "Intro <speak>Hello</speak> outro") [rule "Hello" "Hi"]))
                 sent)
            = map (fun s =>
                     promptPrefix
                       (studio elevenlabs App.DEFAULT_LANGUAGE
                          (lit "Intro <speak>Hello</speak> outro") [rule "Hello" "Hi"])
                     ++ s)
                sent
         /\ (contains (lit "Intro <speak>Hi</speak> outro") App.SPEAK_OPEN ->
             Forall2 rewrapped (firstn n chunks) sent)
         /\ (~ contains (lit "Intro <speak>Hi</speak> outro") App.SPEAK_OPEN ->
             sent = firstn n chunks).
Proof.
  apply (@rewrap_by_containment secondFails
           (studio elevenlabs App.DEFAULT_LANGUAGE (lit "Intro <speak>Hello</speak> outro")
              [rule "Hello" "Hi"])
           (lit "Intro <speak>Hi</speak> outro")).
  vm_compute. reflexivity.
Defined.

(** A script with ["<speak>"] in its middle goes out in a container; one
    with only the closing tag goes out as it is. *)
Example rewrap_runs :
  option_map App.requests
    (App.generateNarration secondFails
       (studio elevenlabs App.DEFAULT_LANGUAGE (lit "Intro <speak>Hello</speak> outro")
          [rule "Hello" "Hi"]))
  = Some [ElevenLabsRequest (lit "voice-1") (lit "key-1")
            (lit "<speak>Intro <speak>Hi</speak> outro</speak>")]
  /\ option_map App.requests
       (App.generateNarration secondFails
          (studio elevenlabs App.DEFAULT_LANGUAGE (lit "Hello</speak>") [rule "Hello" "Hi"]))
     = Some [ElevenLabsRequest (lit "voice-1") (lit "key-1") (lit "Hi</speak>")].
Proof. split; vm_compute; reflexivity. Qed.

Import Duplex.

Lemma playback_schedule_witness :
  exists s' q1 q2 q3,
    scheduleAll [(1%Q, second 24000, 1%nat); ((3 # 2)%Q, second 12000, 2%nat);
                 (2%Q, second 24000, 3%nat)]
      (startSession (Reply 7%nat) initial)
    = Some (s', [SourceStart 1 q1; SourceStart 2 q2; SourceStart 3 q3])
    /\ (q1 == 1)%Q
    /\ (q2 == 1 + duration (second 24000))%Q
    /\ (q3 == 1 + duration (second 24000) + duration (second 12000))%Q.
Proof.
  apply (proj2 (proj2 (proj2
           (@playback_schedule (startSession (Reply 7%nat) initial) 24000%positive
              eq_refl)))).
  - apply Qle_bool_imp_le. reflexivity.
  - apply Qle_bool_imp_le. reflexivity.
  - apply Qle_bool_imp_le. reflexivity.
Defined.

Lemma playing_reachable : Reachable playing.
Proof. unfold playing. repeat apply reach_step. apply reach_initial. Qed.

(** C9 as stated fails: after a buffer has been scheduled, [stopSession]
    leaves the cursor where it was, not at zero. *)
Lemma stopSession_keeps_cursor :
  Reachable playing
  /\ nextStartTimeRef playing = (Qmax 0 0 + duration (second 24000))%Q
  /\ nextStartTimeRef (fst (stopSession playing)) = nextStartTimeRef playing
  /\ ~ (nextStartTimeRef (fst (stopSession playing)) == 0)%Q.
Proof.
  split; [exact playing_reachable|]. split; [reflexivity|]. split; [reflexivity|].
  vm_compute. discriminate.
Qed.

Lemma stopSession_teardown_witness :
  In (TrackStop 1) (snd (stopSession playing))
  /\ In (SourceStop 1) (snd (stopSession playing))
  /\ stopSession (fst (stopSession playing)) = (fst (stopSession playing), []).
Proof.
  pose proof (@stopSession_teardown playing
                (reach_step (Audio 0%Q (second 24000) 1%nat)
                   (reach_step (Open [1%nat; 2%nat] 5%nat)
                      (reach_step (Start (Reply 7%nat)) reach_initial)))) as T.
  destruct T as [_ [[_ [Tr [_ [Sr _]]]] [_ [_ Idem]]]].
  split; [|split].
  - apply (Tr [1%nat; 2%nat] 1%nat); [reflexivity | left; reflexivity].
  - apply Sr. left. reflexivity.
  - exact Idem.
Defined.

End Instances.

(** * Further properties of the code *)

(** ** TextChunker: where it cuts, and when it does not return *)

Section ChunkerCuts.

Lemma lastIndexOf_scan_spec (c : code_unit) (s : jstr) :
  forall k start found,
    found < k ->
    let r := JS.lastIndexOf_scan c s k start found in
    found <= r
    /\ (r = found \/ (k <= r <= start /\ nth_error s (Z.to_nat (r - k)) = Some c))
    /\ (forall j, k <= j <= start -> nth_error s (Z.to_nat (j - k)) = Some c -> j <= r).
Proof.
  induction s as [|x s IH]; intros k start found Hf; cbn [JS.lastIndexOf_scan]; cbn zeta.
  - split; [lia|]. split; [left; reflexivity|].
    intros j _ H. destruct (Z.to_nat (j - k)); discriminate.
  - set (found' := if (k <=? start) && (x =? c)%N then k else found).
    assert (Hf' : found' < k + 1) by (unfold found'; destruct (_ && _); lia).
    assert (Hle : found <= found') by (unfold found'; destruct (_ && _); lia).
    destruct (IH (k + 1) start found' Hf') as [A [B C]]. cbn zeta in A, B, C.
    split; [lia|]. split.
    + destruct B as [B | [B1 B2]].
      * rewrite B. unfold found'.
        destruct ((k <=? start) && (x =? c)%N) eqn:E; [|left; reflexivity].
        apply andb_true_iff in E. destruct E as [E1 E2].
        apply Z.leb_le in E1. apply N.eqb_eq in E2. subst x.
        right. split; [lia|]. rewrite Z.sub_diag. reflexivity.
      * right. split; [lia|].
        replace (Z.to_nat (JS.lastIndexOf_scan c s (k + 1) start found' - k))
          with (S (Z.to_nat (JS.lastIndexOf_scan c s (k + 1) start found' - (k + 1))))
          by lia.
        exact B2.
    + intros j Hj Hn. destruct (Z.eq_dec j k) as [-> | Hne].
      * rewrite Z.sub_diag in Hn. cbn in Hn. injection Hn as Hx.
        assert (Ek : found' = k).
        { unfold found'. rewrite Hx, N.eqb_refl, andb_true_r.
          replace (k <=? start) with true by (symmetry; apply Z.leb_le; lia).
          reflexivity. }
        lia.
      * apply C; [lia|].
        replace (Z.to_nat (j - k)) with (S (Z.to_nat (j - (k + 1)))) in Hn by lia.
        exact Hn.
Qed.

(** [lastIndexOf] gives an index holding the unit, at or before the start
    of the search, with no later one up to there; or -1 if there is none. *)
Lemma lastIndexOf_spec (c : code_unit) (s : jstr) (from : Z) :
  0 <= from < jlen s ->
  let r := JS.lastIndexOf c s from in
  (r = -1 \/ (0 <= r <= from /\ nth_error s (Z.to_nat r) = Some c))
  /\ (forall j, 0 <= j <= from -> nth_error s (Z.to_nat j) = Some c -> j <= r).
Proof.
  intros Hf. unfold JS.lastIndexOf.
  replace (Z.min (Z.max from 0) (jlen s - 1)) with from by lia.
  destruct (@lastIndexOf_scan_spec c s 0 from (-1)) as [A [B C]]; [lia|].
  split.
  - destruct B as [B | [B1 B2]]; [left; exact B | right].
    rewrite Z.sub_0_r in B2. auto.
  - intros j Hj Hn. apply C; [lia|]. rewrite Z.sub_0_r. exact Hn.
Qed.

Lemma hd_error_skipn (A : Type) (l : list A) (n : nat) :
  hd_error (skipn n l) = nth_error l n.
Proof.
  revert l. induction n as [|n IH]; intros [|x l]; try reflexivity. apply IH.
Qed.

Lemma ledByBreak_skipn (text : jstr) (n : nat) :
  ledByBreak (skipn n text)
  = match nth_error text n with Some c => isBreak c | None => false end.
Proof.
  rewrite <- hd_error_skipn. destruct (skipn n text); reflexivity.
Qed.

Lemma in_tl_window (text : jstr) (a n : nat) (x : code_unit) :
  In x (tl (firstn n (skipn a text))) ->
  exists j, (a < j < a + n)%nat /\ nth_error text j = Some x.
Proof.
  intros H.
  destruct (skipn a text) as [|y l] eqn:E; [destruct n; destruct H|].
  destruct n as [|n]; [destruct H|]. cbn [firstn tl] in H.
  apply In_nth_error in H. destruct H as [i Hi].
  assert (Hlt : (i < n)%nat).
  { assert (Hs : nth_error (firstn n l) i <> None) by congruence.
    apply nth_error_Some in Hs. rewrite length_firstn in Hs. lia. }
  rewrite nth_error_firstn in Hi.
  replace (i <? n)%nat with true in Hi by (symmetry; apply Nat.ltb_lt; exact Hlt).
  exists (a + S i)%nat. split; [lia|].
  rewrite <- nth_error_skipn, E. exact Hi.
Qed.

Variable text : jstr.
Variable maxChars : Z.
Hypothesis maxChars_pos : 1 <= maxChars.

(** One iteration: the window ends at the end of the text, or on a break
    character, or it is a full window without a break character after its
    first unit and with none right behind it. *)
Lemma nextEndPos_cut (currentPos : Z) :
  0 <= currentPos < jlen text ->
  let endPos := nextEndPos text maxChars currentPos in
  endPos = jlen text
  \/ ledByBreak (skipn (Z.to_nat endPos) text) = true
  \/ (endPos = currentPos + maxChars
      /\ noBreak (tl (JS.substring text currentPos endPos)) = true
      /\ ledByBreak (skipn (Z.to_nat endPos) text) = false).
Proof.
  intros Hc. cbn zeta. unfold nextEndPos.
  set (e := if currentPos + maxChars >? jlen text then jlen text else currentPos + maxChars).
  assert (He : currentPos < e /\ e <= jlen text
               /\ (e = jlen text \/ e = currentPos + maxChars)).
  { unfold e. destruct (currentPos + maxChars >? jlen text) eqn:G.
    - apply Z.gtb_lt in G. lia.
    - rewrite Z.gtb_ltb in G. apply Z.ltb_ge in G. lia. }
  destruct (e <? jlen text) eqn:L; [|apply Z.ltb_ge in L; left; lia].
  apply Z.ltb_lt in L.
  destruct (@lastIndexOf_spec SPACE text e) as [S1 S2]; [lia|].
  destruct (@lastIndexOf_spec NEWLINE text e) as [N1 N2]; [lia|].
  set (ls := JS.lastIndexOf SPACE text e) in *.
  set (ln := JS.lastIndexOf NEWLINE text e) in *.
  destruct (Z.max ls ln >? currentPos) eqn:G.
  - apply Z.gtb_lt in G. right. left. rewrite ledByBreak_skipn.
    destruct (Z.max_spec ls ln) as [[_ M] | [_ M]]; rewrite M in *.
    + destruct N1 as [N1 | [_ N1]]; [lia|]. rewrite N1. reflexivity.
    + destruct S1 as [S1 | [_ S1]]; [lia|]. rewrite S1. reflexivity.
  - rewrite Z.gtb_ltb in G. apply Z.ltb_ge in G.
    assert (Hno : forall j c, currentPos < j <= e ->
                    nth_error text (Z.to_nat j) = Some c -> isBreak c = false).
    { intros j c Hj Hn. unfold isBreak.
      destruct (c =? SPACE)%N eqn:E1.
      - apply N.eqb_eq in E1. subst c.
        assert (j <= ls) by (apply S2; [lia | exact Hn]). lia.
      - destruct (c =? NEWLINE)%N eqn:E2; [|reflexivity].
        apply N.eqb_eq in E2. subst c.
        assert (j <= ln) by (apply N2; [lia | exact Hn]). lia. }
    right. right. split; [lia|]. split.
    + unfold noBreak. apply forallb_forall. intros x Hx.
      rewrite substring_firstn_skipn in Hx by lia.
      apply in_tl_window in Hx. destruct Hx as [j [Hj Hn]].
      rewrite (Hno (Z.of_nat j) x); [reflexivity | lia | rewrite Nat2Z.id; exact Hn].
    + rewrite ledByBreak_skipn.
      destruct (nth_error text (Z.to_nat e)) as [c|] eqn:E; [|reflexivity].
      apply (Hno e c); [lia | exact E].
Qed.

Lemma splitLoop_wordSafe (fuel : nat) :
  forall (currentPos : Z) (chunks : list jstr),
    0 <= currentPos <= jlen text ->
    jlen text - currentPos <= Z.of_nat fuel ->
    exists pieces,
      splitLoop fuel text maxChars currentPos chunks = Some (chunks ++ map JS.trim pieces)
      /\ List.concat pieces = skipn (Z.to_nat currentPos) text
      /\ wordSafe maxChars pieces.
Proof.
  induction fuel as [|fuel IH]; intros currentPos chunks Hc Hf.
  - assert (currentPos = jlen text) by lia. subst currentPos.
    exists []. simpl. rewrite Z.ltb_irrefl, app_nil_r.
    split; [reflexivity|]. split; [|exact I].
    unfold jlen. rewrite Nat2Z.id, skipn_all. reflexivity.
  - simpl. destruct (currentPos <? jlen text) eqn:L.
    + apply Z.ltb_lt in L.
      destruct (@nextEndPos_bounds text maxChars maxChars_pos currentPos) as [B1 [B2 B3]]; [lia|].
      pose proof (@nextEndPos_cut currentPos (conj (proj1 Hc) L)) as Cut. cbn zeta in Cut.
      set (endPos := nextEndPos text maxChars currentPos) in *.
      destruct (IH endPos (chunks ++ [JS.trim (JS.substring text currentPos endPos)]))
        as [pieces [E [C W]]]; [lia | lia |].
      exists (JS.substring text currentPos endPos :: pieces).
      split; [|split].
      * rewrite E, <- app_assoc. reflexivity.
      * simpl. rewrite C. symmetry. apply substring_skipn; lia.
      * cbn [wordSafe]. split; [|exact W]. rewrite C.
        destruct Cut as [Cut | [Cut | [Cut1 [Cut2 Cut3]]]].
        -- left. destruct pieces as [|p ps]; [reflexivity|].
           exfalso. rewrite Cut in C. unfold jlen in C.
           rewrite Nat2Z.id, skipn_all in C.
           destruct (IH endPos (chunks ++ [JS.trim (JS.substring text currentPos endPos)]))
             as [pieces' [E' _]]; [lia | lia |].
           rewrite E in E'. clear - E E' C Cut L fuel.
           assert (Hz : splitLoop fuel text maxChars endPos
                          (chunks ++ [JS.trim (JS.substring text currentPos endPos)])
                        = Some (chunks ++ [JS.trim (JS.substring text currentPos endPos)])).
           { rewrite Cut. destruct fuel; simpl; rewrite Z.ltb_irrefl; reflexivity. }
           rewrite Hz in E. injection E as E.
           rewrite <- (app_nil_r (chunks ++ [_])) in E at 1.
           apply app_inv_head in E. discriminate.
        -- right. left. exact Cut.
        -- right. right. split; [|split; assumption].
           rewrite substring_length by lia. lia.
    + apply Z.ltb_ge in L. assert (currentPos = jlen text) by lia. subst currentPos.
      exists []. simpl. rewrite app_nil_r.
      split; [reflexivity|]. split; [|exact I].
      unfold jlen. rewrite Nat2Z.id, skipn_all. reflexivity.
Qed.

(** X1: a text longer than [maxChars >= 1] is cut word-safely: the chunks
    are the trimmed, non-empty pieces of a cutting of the text in which
    every piece but the last either ends right before a space or newline,
    or is a full window of [maxChars] units that had no space or newline
    to back off to. *)
Theorem splitTextIntoChunks_word_safe (fuel : nat) :
  maxChars < jlen text -> (List.length text <= fuel)%nat ->
  exists pieces,
    splitTextIntoChunks fuel text maxChars = Some (filter nonEmpty (map JS.trim pieces))
    /\ List.concat pieces = text
    /\ wordSafe maxChars pieces.
Proof.
  intros Hlong Hfuel. unfold splitTextIntoChunks.
  destruct (jlen text <=? maxChars) eqn:L; [apply Z.leb_le in L; lia|].
  destruct (@splitLoop_wordSafe fuel 0 []) as [pieces [E [C W]]].
  - unfold jlen. lia.
  - unfold jlen. lia.
  - exists pieces. rewrite E. simpl. auto.
Qed.

End ChunkerCuts.

Lemma splitTextIntoChunks_word_safe_witness :
  exists pieces,
    splitTextIntoChunks 19 (lit "hello world foo bar") 7
    = Some (filter nonEmpty (map JS.trim pieces))
    /\ List.concat pieces = lit "hello world foo bar"
    /\ wordSafe 7 pieces.
Proof.
  apply (@splitTextIntoChunks_word_safe (lit "hello world foo bar") 7).
  - lia.
  - vm_compute. reflexivity.
  - vm_compute. lia.
Defined.

Section ChunkerHangs.

Variable text : jstr.
Variable maxChars : Z.
Hypothesis maxChars_nonpos : maxChars <= 0.
Hypothesis text_nonempty : text <> [].

Lemma nextEndPos_stays (currentPos : Z) :
  currentPos <= 0 -> nextEndPos text maxChars currentPos <= 0.
Proof.
  intros Hc. unfold nextEndPos.
  assert (L : 0 < jlen text) by (destruct text; [congruence | unfold jlen; simpl; lia]).
  replace (currentPos + maxChars >? jlen text) with false
    by (symmetry; rewrite Z.gtb_ltb; apply Z.ltb_ge; lia).
  replace (currentPos + maxChars <? jlen text) with true
    by (symmetry; apply Z.ltb_lt; lia).
  pose proof (lastIndexOf_bounds SPACE (currentPos + maxChars) text_nonempty) as B1.
  pose proof (lastIndexOf_bounds NEWLINE (currentPos + maxChars) text_nonempty) as B2.
  destruct (_ >? currentPos); lia.
Qed.

Lemma splitLoop_hangs (fuel : nat) :
  forall currentPos chunks,
    currentPos <= 0 -> splitLoop fuel text maxChars currentPos chunks = None.
Proof.
  assert (L : 0 < jlen text) by (destruct text; [congruence | unfold jlen; simpl; lia]).
  induction fuel as [|fuel IH]; intros currentPos chunks Hc; cbn [splitLoop];
    replace (currentPos <? jlen text) with true by (symmetry; apply Z.ltb_lt; lia).
  - reflexivity.
  - apply IH. apply nextEndPos_stays. exact Hc.
Qed.

(** X2: with [maxChars <= 0] and a text that is not empty, the loop never
    gets past the start of the text: however many iterations are allowed,
    the call has not returned. *)
Theorem splitTextIntoChunks_hangs (fuel : nat) :
  splitTextIntoChunks fuel text maxChars = None.
Proof.
  unfold splitTextIntoChunks.
  assert (L : 0 < jlen text) by (destruct text; [congruence | unfold jlen; simpl; lia]).
  replace (jlen text <=? maxChars) with false by (symmetry; apply Z.leb_gt; lia).
  rewrite splitLoop_hangs by lia. reflexivity.
Qed.

End ChunkerHangs.

Lemma splitTextIntoChunks_hangs_witness :
  splitTextIntoChunks 1000 (lit " a b") (-2) = None.
Proof.
  apply (@splitTextIntoChunks_hangs (lit " a b") (-2)).
  - lia.
  - discriminate.
Defined.

(** ** NarrationOrchestrator: what a run sends and leaves *)

Section RunFacts.

Import App.

Variable w : World.
Variable st : Studio.

(** X3: however a run ends, [isGenerating] is off again, and there is an
    audio URL exactly when there is no error. *)
Theorem generateNarration_outcome (run : Run) :
  generateNarration w st = Some run ->
  isGenerating run = false
  /\ (error run = None <-> audioUrl run <> None).
Proof.
  unfold generateNarration.
  destruct (applyRules (narrationText st) (pronunciationRules st)) as [[t | e]|];
    [| intros H; injection H as <-; cbn; split; [reflexivity | split; congruence]
     | discriminate].
  unfold produce. destruct (translateStep w st t) as [[text | e] log].
  - unfold finish. destruct (chunksOf text) as [chunks|]; [|discriminate].
    destruct (synthesizeFrom w st _ O chunks [] log) as [[parts | e] log'];
      intros H; injection H as <-; cbn; split; try reflexivity; split; congruence.
  - intros H. injection H as <-. cbn. split; [reflexivity | split; congruence].
Qed.

Lemma synthesizeFrom_all (isSsml : bool) (chunks : list jstr) :
  forall i audioParts log,
    (forall j c, nth_error chunks j = Some c ->
       exists part, synthesizeChunk w st (i + j) (rewrap isSsml c) = Reply part) ->
    synthesizeFrom w st isSsml i chunks audioParts log
    = (Ok (audioParts ++ audioOf w st isSsml i chunks),
       log ++ map (dispatch st isSsml) chunks).
Proof.
  induction chunks as [|c chunks IH]; intros i audioParts log H.
  - cbn. rewrite !app_nil_r. reflexivity.
  - cbn [synthesizeFrom audioOf map].
    destruct (H O c eq_refl) as [part Hp]. rewrite Nat.add_0_r in Hp. rewrite Hp.
    rewrite IH.
    + unfold dispatch at 2. rewrite <- !app_assoc. cbn [app].
      destruct part; cbn [pushPart pushed]; rewrite <- ?app_assoc; reflexivity.
    + intros j c' Hj. replace (S i + j)%nat with (i + S j)%nat by lia.
      apply H. exact Hj.
Qed.

(** X4: when every chunk is answered, the run ends without error, has sent
    one synthesis request per chunk in the order of the script, and its
    audio is the buffers returned, concatenated in that order, as MPEG
    for the clone services and as 24 kHz mono WAV otherwise. *)
Theorem produce_in_order (t text : jstr) (log : list Request) (chunks : list jstr) :
  translateStep w st t = (Ok text, log) ->
  chunksOf text = Some chunks ->
  (forall j c, nth_error chunks j = Some c ->
     exists part,
       synthesizeChunk w st j (rewrap (JS.includes t SPEAK_OPEN) c) = Reply part) ->
  produce w st t
  = Some {| isGenerating := false;
            error := None;
            audioUrl :=
              Some (master st
                      (List.concat (audioOf w st (JS.includes t SPEAK_OPEN) O chunks)));
            requests := log ++ map (dispatch st (JS.includes t SPEAK_OPEN)) chunks |}.
Proof.
  intros T C H. unfold produce. rewrite T. unfold finish. rewrite C.
  rewrite synthesizeFrom_all by exact H. reflexivity.
Qed.

Lemma synthesizeFrom_translation (translate : jstr -> jstr -> reply (option jstr))
    (isSsml : bool) (chunks : list jstr) :
  forall i audioParts log,
    synthesizeFrom (withTranslation translate w) st isSsml i chunks audioParts log
    = synthesizeFrom w st isSsml i chunks audioParts log.
Proof.
  induction chunks as [|c chunks IH]; intros i audioParts log; [reflexivity|].
  cbn [synthesizeFrom].
  replace (synthesizeChunk (withTranslation translate w) st i (rewrap isSsml c))
    with (synthesizeChunk w st i (rewrap isSsml c))
    by (unfold synthesizeChunk; destruct (narrationProvider st); reflexivity).
  destruct (synthesizeChunk w st i (rewrap isSsml c)); [apply IH | reflexivity].
Qed.

(** X5: in the default language the translation capability plays no part:
    the run is the same whatever it would answer, and no translation
    request is among those sent. *)
Theorem produce_without_translation
    (translate : jstr -> jstr -> reply (option jstr)) (t : jstr) :
  narrationLanguage st = DEFAULT_LANGUAGE ->
  produce (withTranslation translate w) st t = produce w st t
  /\ forall run, produce w st t = Some run ->
       forallb (fun r => negb (isTranslateRequest r)) (requests run) = true.
Proof.
  intros L. unfold produce, translateStep. rewrite L, jstr_eqb_refl. cbn [negb].
  split.
  - unfold finish. destruct (chunksOf t); [|reflexivity].
    rewrite synthesizeFrom_translation. reflexivity.
  - intros run H. destruct (finish_requests H) as [all [n [_ E]]].
    rewrite E. cbn [app]. apply no_translate_in_dispatch.
Qed.

Lemma rewrap_fixed (isSsml : bool) (c : jstr) :
  wrappedAs isSsml c c -> rewrap isSsml c = c.
Proof.
  unfold wrappedAs, rewrap. destruct isSsml; [|reflexivity].
  intros [S E]. rewrite S. cbn [negb]. rewrite E. reflexivity.
Qed.

Lemma rewrap_length (isSsml : bool) (chunk : jstr) :
  jlen chunk <= jlen (rewrap isSsml chunk)
  <= jlen chunk + jlen SPEAK_OPEN + jlen SPEAK_CLOSE.
Proof.
  unfold rewrap. destruct isSsml; [|unfold jlen; lia].
  destruct (JS.startsWith chunk SPEAK_OPEN); cbn [negb];
    match goal with |- context [JS.endsWith ?c SPEAK_CLOSE] =>
      destruct (JS.endsWith c SPEAK_CLOSE) end;
    cbn [negb]; unfold jlen; rewrite ?length_app; lia.
Qed.

Lemma firstn_incl (A : Type) (n : nat) (l : list A) (x : A) :
  In x (firstn n l) -> In x l.
Proof.
  intros H. rewrite <- (firstn_skipn n l). apply in_or_app. left. exact H.
Qed.

(** X7: re-wrapping settles at once: a chunk that already opens and closes
    the container is handed on as it is, so wrapping what has been wrapped
    changes nothing; and wrapping adds the two tags at most. *)
Theorem rewrap_idempotent (isSsml : bool) (chunk : jstr) :
  rewrap isSsml (rewrap isSsml chunk) = rewrap isSsml chunk
  /\ jlen chunk <= jlen (rewrap isSsml chunk)
     <= jlen chunk + jlen SPEAK_OPEN + jlen SPEAK_CLOSE.
Proof.
  split; [|apply rewrap_length].
  apply rewrap_fixed. pose proof (rewrap_wrapped isSsml chunk) as W.
  unfold wrappedAs in *. destruct isSsml; [exact W | reflexivity].
Qed.

Lemma chunksOf_bounded (text : jstr) (chunks : list jstr) :
  chunksOf text = Some chunks -> Forall (fun c => jlen c <= DEFAULT_MAX_CHARS) chunks.
Proof.
  unfold chunksOf. intros H.
  destruct (Z_lt_le_dec DEFAULT_MAX_CHARS (jlen text)) as [Hlong | Hshort].
  - assert (P : 1 <= DEFAULT_MAX_CHARS) by (unfold DEFAULT_MAX_CHARS; lia).
    destruct (@splitTextIntoChunks_pieces text DEFAULT_MAX_CHARS P (List.length text)
                Hlong (le_n _)) as [pieces [E [_ F]]].
    rewrite E in H. injection H as <-.
    apply Forall_forall. intros c Hin. apply filter_In in Hin. destruct Hin as [Hin _].
    apply in_map_iff in Hin. destruct Hin as [p [<- Hp]].
    rewrite Forall_forall in F. specialize (F p Hp).
    pose proof (trim_length p). unfold jlen in *. lia.
  - unfold splitTextIntoChunks in H. apply Z.leb_le in Hshort. rewrite Hshort in H.
    injection H as <-. constructor; [apply Z.leb_le; exact Hshort | constructor].
Qed.

(** X6: whatever the length of the script, no synthesis request of a run
    carries more than the instruction prefix, 3000 code units of script and
    the two container tags; only the translation request carries the whole
    script. *)
Theorem requests_bounded (t : jstr) (run : Run) :
  produce w st t = Some run ->
  Forall (fun r =>
            if isTranslateRequest r
            then sentText r = translationPrompt (narrationLanguage st) t
            else jlen (sentText r) <= jlen (promptPrefix st) + WRAPPED_MAX_CHARS)
    (requests run).
Proof.
  unfold produce. intros H.
  assert (T : Forall (fun r =>
                if isTranslateRequest r
                then sentText r = translationPrompt (narrationLanguage st) t
                else jlen (sentText r) <= jlen (promptPrefix st) + WRAPPED_MAX_CHARS)
              (snd (translateStep w st t))).
  { unfold translateStep.
    destruct (negb (jstr_eqb (narrationLanguage st) DEFAULT_LANGUAGE)); cbn [snd].
    - constructor; [reflexivity | constructor].
    - constructor. }
  destruct (translateStep w st t) as [[text | e] log]; cbn [snd] in T.
  - destruct (finish_requests H) as [all [n [C E]]]. rewrite E.
    apply Forall_app. split; [exact T|].
    apply Forall_forall. intros r Hin. apply in_map_iff in Hin.
    destruct Hin as [c [<- Hc]].
    unfold dispatch. destruct (sentText_requestOf st (rewrap (JS.includes t SPEAK_OPEN) c))
      as [-> ->].
    pose proof (chunksOf_bounded C) as B. rewrite Forall_forall in B.
    specialize (B c (firstn_incl Hc)).
    destruct (rewrap_length (JS.includes t SPEAK_OPEN) c) as [_ U].
    unfold WRAPPED_MAX_CHARS. unfold jlen in *. rewrite length_app. lia.
  - injection H as <-. exact T.
Qed.

End RunFacts.

(** ** The single-request orchestrator *)

Section SingleRequest.

Lemma lastInlineData_rev (parts : list Part) :
  forall base64,
    AppSingle.lastInlineData parts base64
    = match App.firstInlineData (rev parts) with
      | Some d => Some d
      | None => base64
      end.
Proof.
  induction parts as [|p parts IH]; intros base64; [reflexivity|].
  cbn [AppSingle.lastInlineData rev]. rewrite IH.
  assert (F : forall l, App.firstInlineData (l ++ [p])
                        = match App.firstInlineData l with
                          | Some d => Some d
                          | None => truthy (inlineData_data p)
                          end).
  { induction l as [|x l IHl]; cbn [App.firstInlineData app].
    - destruct (truthy (inlineData_data p)); reflexivity.
    - destruct (truthy (inlineData_data x)); [reflexivity | exact IHl]. }
  rewrite F. destruct (App.firstInlineData (rev parts)); [reflexivity|].
  destruct (truthy (inlineData_data p)); reflexivity.
Qed.

(** X8: of the inline payloads of an answer, the chunked orchestrator
    takes the first and the single-request one the last: the one's choice
    is the other's on the parts in reverse order, so they agree when at
    most one part carries audio. *)
Theorem inline_data_first_and_last (parts : list Part) :
  AppSingle.lastInlineData parts None = App.firstInlineData (rev parts)
  /\ (App.firstInlineData parts = None <-> AppSingle.lastInlineData parts None = None).
Proof.
  assert (E : AppSingle.lastInlineData parts None = App.firstInlineData (rev parts)).
  { rewrite lastInlineData_rev. destruct (App.firstInlineData (rev parts)); reflexivity. }
  split; [exact E|]. rewrite E.
  assert (N : forall l, App.firstInlineData l = None
                        <-> Forall (fun p => truthy (inlineData_data p) = None) l).
  { induction l as [|x l IHl]; cbn [App.firstInlineData].
    - split; [constructor | reflexivity].
    - destruct (truthy (inlineData_data x)) eqn:T.
      + split; [discriminate|]. intros H. inversion H; congruence.
      + rewrite IHl. split; [intros H; constructor; assumption|].
        intros H. inversion H; assumption. }
  rewrite !N. split; intros H; apply Forall_forall; intros p Hp;
    rewrite Forall_forall in H; apply H.
  - apply in_rev. exact Hp.
  - apply in_rev in Hp. exact Hp.
Qed.

(** X9: the single-request orchestrator never chunks: with a key it sends
    the whole rule-substituted script in one request, however long, and
    ends with an audio URL exactly when it ends without error; without a
    key it sends nothing, reports the missing key and leaves the audio of
    the previous run in place. *)
Theorem single_request (w : World) (st : AppSingle.Studio) (run : AppSingle.Run) :
  AppSingle.generateNarration w st = Some run ->
  (AppSingle.geminiKey st = [] ->
     AppSingle.requests run = []
     /\ AppSingle.audioUrl run = AppSingle.previousAudioUrl st
     /\ AppSingle.error run = Some (Error (lit "Gemini API key is missing.")))
  /\ (AppSingle.geminiKey st <> [] ->
        (AppSingle.error run = None <-> AppSingle.audioUrl run <> None)
        /\ (forall e, applyRules (AppSingle.narrationText st)
                        (AppSingle.pronunciationRules st) = Some (Throw e) ->
              AppSingle.requests run = [])
        /\ (forall text, applyRules (AppSingle.narrationText st)
                           (AppSingle.pronunciationRules st) = Some (Ok text) ->
              AppSingle.requests run
              = [GeminiRequest AppSingle.TTS_MODEL text []])).
Proof.
  unfold AppSingle.generateNarration.
  destruct (AppSingle.geminiKey st) as [|k ks] eqn:K.
  - intros H. injection H as <-. cbn. split; [auto | congruence].
  - intros H. split; [discriminate|]. intros _.
    destruct (applyRules (AppSingle.narrationText st) (AppSingle.pronunciationRules st))
      as [[text | e]|]; [| |discriminate].
    + destruct (generateContent w O AppSingle.TTS_MODEL text []) as [parts | m].
      * destruct (AppSingle.lastInlineData _ None) as [base64|].
        -- destruct (decode w base64) as [pcm | m];
             injection H as <-; cbn; repeat split; congruence.
        -- injection H as <-; cbn; repeat split; congruence.
      * injection H as <-; cbn; repeat split; congruence.
    + injection H as <-; cbn; repeat split; congruence.
Qed.

End SingleRequest.

(** ** PlaybackScheduler: any number of timely buffers *)

Section Gapless.

Import Duplex.

Lemma scheduleAll_timely (arrivals : list (Q * AudioBuffer * nat)) :
  forall (s : Session) (ctx : positive) (cursor : Q),
    outputAudioContextRef s = Some ctx ->
    (nextStartTimeRef s == cursor)%Q ->
    timely cursor arrivals ->
    exists s' effects,
      scheduleAll arrivals s = Some (s', effects)
      /\ Forall2 startedAt effects (backToBack cursor (map (fun a => snd (fst a)) arrivals))
      /\ (nextStartTimeRef s'
          == playedUntil cursor (map (fun a => snd (fst a)) arrivals))%Q
      /\ outputAudioContextRef s' = Some ctx.
Proof.
  induction arrivals as [|[[t b] x] rest IH]; intros s ctx cursor C E T.
  - exists s, []. cbn. repeat split; [constructor | exact E | exact C].
  - destruct T as [Ht T].
    assert (M : (Qmax t (nextStartTimeRef s) == cursor)%Q).
    { rewrite Q.max_r; [exact E | rewrite E; exact Ht]. }
    cbn [scheduleAll]. unfold schedule at 1. rewrite C.
    set (s1 := withPlayback s (addSource x (sourcesRef s))
                 (Qmax t (nextStartTimeRef s) + duration b)%Q).
    destruct (IH s1 ctx (cursor + duration b)%Q) as [s' [effects [S [F [N C']]]]].
    + exact C.
    + cbn. rewrite M. reflexivity.
    + exact T.
    + exists s', (SourceStart x (Qmax t (nextStartTimeRef s)) :: effects).
      rewrite S. cbn [app map fst snd backToBack]. repeat split.
      * constructor; [exact M | exact F].
      * exact N.
      * exact C'.
Qed.

(** X10: any number of buffers, the first arriving no earlier than the
    cursor and each later one no later than the end of the one before it,
    are started back to back: the first at its arrival, every other one
    exactly where the one before it ends, and the cursor ends where the
    last one ends: at the first arrival with the durations added to it one
    after the other, in the order of arrival. *)
Theorem playback_gapless (s : Session) (ctx : positive)
    (t1 : Q) (b1 : AudioBuffer) (x1 : nat) (rest : list (Q * AudioBuffer * nat)) :
  outputAudioContextRef s = Some ctx ->
  (nextStartTimeRef s <= t1)%Q ->
  timely (t1 + duration b1)%Q rest ->
  exists s' effects,
    scheduleAll ((t1, b1, x1) :: rest) s = Some (s', effects)
    /\ Forall2 startedAt effects (backToBack t1 (b1 :: map (fun a => snd (fst a)) rest))
    /\ (nextStartTimeRef s'
        == playedUntil t1 (b1 :: map (fun a => snd (fst a)) rest))%Q.
Proof.
  intros C H T.
  assert (M : (Qmax t1 (nextStartTimeRef s) == t1)%Q) by (apply Q.max_l; exact H).
  cbn [scheduleAll]. unfold schedule at 1. rewrite C.
  set (s1 := withPlayback s (addSource x1 (sourcesRef s))
               (Qmax t1 (nextStartTimeRef s) + duration b1)%Q).
  destruct (@scheduleAll_timely rest s1 ctx (t1 + duration b1)%Q)
    as [s' [effects [S [F [N _]]]]].
  - exact C.
  - cbn. rewrite M. reflexivity.
  - exact T.
  - exists s', (SourceStart x1 (Qmax t1 (nextStartTimeRef s)) :: effects).
    rewrite S. cbn [app backToBack]. repeat split.
    + constructor; [exact M | exact F].
    + exact N.
Qed.

End Gapless.

(** ** Stored settings and profiles *)

Section Stored.

Import Store.

Variable json : JSON.

Lemma jstr_eqb_eq (a b : jstr) : jstr_eqb a b = true <-> a = b.
Proof.
  unfold jstr_eqb. destruct (list_eq_dec N.eq_dec a b); split; congruence.
Qed.

Lemma findVoice_app (voices more : list CustomVoice) (key : jstr) :
  App.findVoice (voices ++ more) key
  = match App.findVoice voices key with
    | Some v => Some v
    | None => App.findVoice more key
    end.
Proof.
  unfold App.findVoice. induction voices as [|v voices IH]; [reflexivity|].
  cbn [app find]. destruct (jstr_eqb (voice_id v) key); [reflexivity | exact IH].
Qed.

Lemma known_findVoice (voices : list CustomVoice) (iv : CustomVoice) :
  known voices iv = true <-> App.findVoice voices (voice_id iv) <> None.
Proof.
  unfold known, App.findVoice. induction voices as [|v voices IH]; cbn [existsb find].
  - split; [discriminate | congruence].
  - destruct (jstr_eqb (voice_id v) (voice_id iv)); cbn [orb].
    + split; [discriminate | reflexivity].
    + exact IH.
Qed.

Lemma findVoice_unknown (voices imported : list CustomVoice) (key : jstr) :
  App.findVoice voices key = None ->
  App.findVoice (filter (fun iv => negb (known voices iv)) imported) key
  = App.findVoice imported key.
Proof.
  intros H. unfold App.findVoice.
  induction imported as [|iv imported IH]; [reflexivity|].
  cbn [filter find].
  destruct (jstr_eqb (voice_id iv) key) eqn:E.
  - apply jstr_eqb_eq in E.
    assert (K : known voices iv = false).
    { destruct (known voices iv) eqn:K; [|reflexivity].
      apply known_findVoice in K. rewrite E in K. contradiction. }
    rewrite K. cbn [negb find]. apply jstr_eqb_eq in E. rewrite E. reflexivity.
  - destruct (negb (known voices iv)); [|exact IH].
    cbn [find]. rewrite E. exact IH.
Qed.

Lemma findVoice_merge (voices imported : list CustomVoice) (key : jstr) :
  App.findVoice (merge voices imported) key
  = match App.findVoice voices key with
    | Some v => Some v
    | None => App.findVoice imported key
    end.
Proof.
  unfold merge. rewrite findVoice_app.
  destruct (App.findVoice voices key) eqn:F; [reflexivity|].
  apply findVoice_unknown. exact F.
Qed.

(** X11: a saved profile is put after the ones there are and selected.
    Looking a key up afterwards gives what it gave before, and for the new
    id the new profile, unless an earlier profile already has that id: then
    the earlier one answers for the selection. *)
Theorem handleSaveCustomVoice_lookup (now : N) (voiceData : VoiceData) (st : State)
    (key : jstr) :
  let st' := handleSaveCustomVoice json now voiceData st in
  selectedVoiceKey st' = newVoiceId now
  /\ customVoices st' = customVoices st ++ [newVoice now voiceData]
  /\ getItem (lit "custom_voice_profiles") (localStorage st')
     = Some (stringifyVoices json (customVoices st'))
  /\ App.findVoice (customVoices st') key
     = match App.findVoice (customVoices st) key with
       | Some v => Some v
       | None => if jstr_eqb (newVoiceId now) key then Some (newVoice now voiceData)
                 else None
       end.
Proof.
  cbn zeta. split; [reflexivity|]. split; [reflexivity|]. split.
  - unfold handleSaveCustomVoice, store, getItem.
    cbn [localStorage customVoices setIsCustomVoiceModalOpen setSelectedVoiceKey
           setLocalStorage setCustomVoices].
    unfold setItem. rewrite jstr_eqb_refl. reflexivity.
  - cbn [handleSaveCustomVoice customVoices setIsCustomVoiceModalOpen
           setSelectedVoiceKey store setLocalStorage setCustomVoices].
    rewrite findVoice_app. destruct (App.findVoice (customVoices st) key); reflexivity.
Qed.

(** X12: after an import, a key is answered by the profile that answered
    it before, and only a key nothing answered by the first profile of the
    file with that id: an import never replaces or shadows a profile there
    is.  A file that does not parse changes nothing but the error. *)
Theorem importVoices_lookup (fileText : jstr) (st : State) (key : jstr) :
  match parseVoices json fileText with
  | Some imported =>
      App.findVoice (customVoices (importVoices json fileText st)) key
      = match App.findVoice (customVoices st) key with
        | Some v => Some v
        | None => App.findVoice imported key
        end
      /\ error (importVoices json fileText st) = error st
  | None =>
      importVoices json fileText st
      = setError (Some (lit "Invalid Voice Profile File")) st
  end.
Proof.
  unfold importVoices. destruct (parseVoices json fileText) as [imported|]; [|reflexivity].
  split; [|reflexivity]. cbn. apply findVoice_merge.
Qed.

Lemma merge_again (voices imported : list CustomVoice) :
  merge (merge voices imported) imported = merge voices imported.
Proof.
  unfold merge at 1.
  replace (filter (fun iv => negb (known (merge voices imported) iv)) imported)
    with (@nil CustomVoice); [apply app_nil_r|].
  symmetry.
  assert (H : forall l, (forall iv, In iv l -> In iv imported) ->
                filter (fun iv => negb (known (merge voices imported) iv)) l = []).
  { induction l as [|iv l IH]; intros Hin; [reflexivity|].
    cbn [filter].
    assert (K : known (merge voices imported) iv = true).
    { apply known_findVoice. rewrite findVoice_merge.
      destruct (App.findVoice voices (voice_id iv)); [discriminate|].
      assert (I : In iv imported) by (apply Hin; left; reflexivity).
      unfold App.findVoice. intros N.
      apply (find_none _ _ N) in I. rewrite jstr_eqb_refl in I. discriminate. }
    rewrite K. cbn [negb]. apply IH. intros iv' H'. apply Hin. right. exact H'. }
  apply H. auto.
Qed.

(** X13: importing the same file a second time changes nothing: no
    profile is added twice, and every stored item reads as after the first
    import. *)
Theorem importVoices_twice (fileText : jstr) (st : State) :
  parseVoices json fileText <> None ->
  let once := importVoices json fileText st in
  let twice := importVoices json fileText once in
  customVoices twice = customVoices once
  /\ (forall key, getItem key (localStorage twice) = getItem key (localStorage once))
  /\ error twice = error once
  /\ selectedVoiceKey twice = selectedVoiceKey once.
Proof.
  unfold importVoices. destruct (parseVoices json fileText) as [imported|]; [|congruence].
  intros _. cbn zeta. unfold store, getItem.
  cbn [localStorage customVoices error selectedVoiceKey setLocalStorage setCustomVoices].
  rewrite merge_again. repeat split.
  intros key. unfold setItem. destruct (jstr_eqb key (lit "custom_voice_profiles")); reflexivity.
Qed.

End Stored.

Section Restored.

Import Store.

Variable json : JSON.

Lemma whenParsed_fields (A : Type) (key : jstr) (parse : jstr -> option A)
    (set : A -> State -> State) (st : State) :
  (forall v s, resembleKey (set v s) = resembleKey s
               /\ elevenLabsKey (set v s) = elevenLabsKey s
               /\ elevenLabsVoiceId (set v s) = elevenLabsVoiceId s
               /\ resembleProjectId (set v s) = resembleProjectId s
               /\ resembleVoiceId (set v s) = resembleVoiceId s) ->
  resembleKey (whenParsed key parse set st) = resembleKey st
  /\ elevenLabsKey (whenParsed key parse set st) = elevenLabsKey st
  /\ elevenLabsVoiceId (whenParsed key parse set st) = elevenLabsVoiceId st
  /\ resembleProjectId (whenParsed key parse set st) = resembleProjectId st
  /\ resembleVoiceId (whenParsed key parse set st) = resembleVoiceId st.
Proof.
  intros H. unfold whenParsed.
  destruct (truthy (getItem key (localStorage st))) as [stored|]; [|auto].
  destruct (parse stored); [apply H | auto].
Qed.

Lemma loadStored_strings (ls : Storage) :
  let st := loadStored json (mounted ls) in
  resembleKey st = storedOr (lit "resemble_api_key") ls
  /\ elevenLabsKey st = storedOr (lit "elevenlabs_api_key") ls
  /\ elevenLabsVoiceId st = storedOr (lit "elevenlabs_voice_id") ls
  /\ resembleProjectId st = storedOr (lit "resemble_project_id") ls
  /\ resembleVoiceId st = storedOr (lit "resemble_voice_id") ls.
Proof.
  cbn zeta. unfold loadStored.
  match goal with
  | |- context [whenParsed ?k2 ?p2 ?s2 (whenParsed ?k1 ?p1 ?s1 ?inner)] =>
      assert (P2 : forall v s, resembleKey (s2 v s) = resembleKey s
               /\ elevenLabsKey (s2 v s) = elevenLabsKey s
               /\ elevenLabsVoiceId (s2 v s) = elevenLabsVoiceId s
               /\ resembleProjectId (s2 v s) = resembleProjectId s
               /\ resembleVoiceId (s2 v s) = resembleVoiceId s)
        by (intros; repeat split);
      assert (P1 : forall v s, resembleKey (s1 v s) = resembleKey s
               /\ elevenLabsKey (s1 v s) = elevenLabsKey s
               /\ elevenLabsVoiceId (s1 v s) = elevenLabsVoiceId s
               /\ resembleProjectId (s1 v s) = resembleProjectId s
               /\ resembleVoiceId (s1 v s) = resembleVoiceId s)
        by (intros; repeat split);
      destruct (@whenParsed_fields _ k2 p2 s2 (whenParsed k1 p1 s1 inner) P2)
        as [A1 [A2 [A3 [A4 A5]]]];
      destruct (@whenParsed_fields _ k1 p1 s1 inner P1)
        as [B1 [B2 [B3 [B4 B5]]]];
      rewrite A1, A2, A3, A4, A5, B1, B2, B3, B4, B5
  end.
  unfold whenStored, storedOr, getItem.
  repeat (cbn;
          match goal with
          | |- context [match truthy (ls ?k) with _ => _ end] =>
              destruct (truthy (ls k))
          end).
  all: cbn; repeat split.
Qed.

Lemma storedOr_setItem (key key' value : jstr) (ls : Storage) :
  storedOr key' (setItem key value ls)
  = if jstr_eqb key' key then value else storedOr key' ls.
Proof.
  unfold storedOr, getItem, setItem. destruct (jstr_eqb key' key); [|reflexivity].
  destruct value; reflexivity.
Qed.

(** X14: what the operator enters is what the next mount restores: the two
    keys as the modal trims them, the three identifiers as typed; an input
    left empty or blank comes back as the empty default. *)
Theorem settings_restored
    (resembleKeyInput elevenLabsKeyInput voiceId projectId voiceUuid : jstr) (st : State) :
  let saved :=
    changeResembleProjectId projectId
      (changeResembleVoiceId voiceUuid
         (changeElevenLabsVoiceId voiceId
            (apiKeyModalSave resembleKeyInput elevenLabsKeyInput st))) in
  let restored := loadStored json (mounted (localStorage saved)) in
  (resembleKey restored = JS.trim resembleKeyInput
   /\ elevenLabsKey restored = JS.trim elevenLabsKeyInput
   /\ elevenLabsVoiceId restored = voiceId
   /\ resembleProjectId restored = projectId
   /\ resembleVoiceId restored = voiceUuid)
  /\ (resembleKey restored = resembleKey saved
      /\ elevenLabsKey restored = elevenLabsKey saved
      /\ elevenLabsVoiceId restored = elevenLabsVoiceId saved
      /\ resembleProjectId restored = resembleProjectId saved
      /\ resembleVoiceId restored = resembleVoiceId saved).
Proof.
  cbn zeta.
  match goal with
  | |- context [loadStored json (mounted ?ls)] =>
      destruct (loadStored_strings ls) as [E1 [E2 [E3 [E4 E5]]]]
  end.
  cbn zeta in E1, E2, E3, E4, E5. rewrite E1, E2, E3, E4, E5.
  unfold changeResembleProjectId, changeResembleVoiceId, changeElevenLabsVoiceId,
    apiKeyModalSave, handleSaveApiKey, store.
  cbn [localStorage resembleKey elevenLabsKey elevenLabsVoiceId resembleProjectId
         resembleVoiceId setLocalStorage setIsApiKeyModalOpen setElevenLabsKey
         setResembleKey setElevenLabsVoiceId setResembleVoiceId setResembleProjectId].
  rewrite !storedOr_setItem.
  repeat split; vm_compute jstr_eqb; reflexivity.
Qed.

End Restored.

(** ** The rule editor *)

Section Editor.

Import PronunciationModal.

Lemma isEmpty_false (s : jstr) : isEmpty s = false -> s <> [].
Proof. destruct s; [discriminate | congruence]. Qed.

Lemma filterIndex_incl (rules : list PronunciationRule) :
  forall from index r, In r (filterIndex from index rules) -> In r rules.
Proof.
  induction rules as [|x rules IH]; intros from index r H; [exact H|].
  cbn [filterIndex] in H. destruct (Nat.eqb from index).
  - right. exact (IH _ _ _ H).
  - destruct H as [-> | H]; [left; reflexivity | right; exact (IH _ _ _ H)].
Qed.

Lemma act_clean (a : Action) (ed : Editor) :
  Forall cleanRule (localRules ed) -> Forall cleanRule (localRules (act a ed)).
Proof.
  intros H. destruct a as [v | v | | index]; cbn [act localRules]; try exact H.
  - unfold handleAddRule.
    destruct (isEmpty (JS.trim (newWord ed))) eqn:W; cbn [orb]; [exact H|].
    destruct (isEmpty (JS.trim (newAlias ed))) eqn:A; [exact H|].
    cbn [localRules]. apply Forall_app. split; [exact H|].
    constructor; [|constructor]. unfold cleanRule. cbn [word alias].
    repeat split; try apply trim_idem; apply isEmpty_false; assumption.
  - apply Forall_forall. intros r Hr. rewrite Forall_forall in H.
    apply H. exact (filterIndex_incl Hr).
Qed.

(** X15: whatever is typed, added and removed in the editor, it never
    holds a rule with an empty word or alias, or with a blank at either end
    of one, provided the rules it opened on had none; and so neither do the
    rules it saves to the app and to storage. *)
Theorem editor_keeps_rules_clean (json : JSON) (rules : list PronunciationRule)
    (actions : list Action) (st : Store.State) :
  Forall cleanRule rules ->
  let ed := fold_left (fun ed a => act a ed) actions (opened rules) in
  Forall cleanRule (localRules ed)
  /\ Store.pronunciationRules (handleFinalSave json ed st) = localRules ed
  /\ getItem (lit "pronunciation_rules") (Store.localStorage (handleFinalSave json ed st))
     = Some (stringifyRules json (localRules ed)).
Proof.
  intros H. cbn zeta. split; [|split].
  - assert (G : forall ed, Forall cleanRule (localRules ed) ->
                  Forall cleanRule
                    (localRules (fold_left (fun ed a => act a ed) actions ed))).
    { induction actions as [|a actions IH]; intros ed He; [exact He|].
      cbn [fold_left]. apply IH. apply act_clean. exact He. }
    apply G. exact H.
  - reflexivity.
  - unfold handleFinalSave, Store.handleSavePronunciationRules, Store.store, getItem.
    cbn [Store.localStorage Store.setLocalStorage Store.setPronunciationRules].
    unfold setItem. rewrite jstr_eqb_refl. reflexivity.
Qed.

Lemma filterIndex_spec (rules : list PronunciationRule) :
  forall from index, (from <= index)%nat ->
    filterIndex from index rules
    = firstn (index - from) rules ++ skipn (S (index - from)) rules.
Proof.
  induction rules as [|r rules IH]; intros from index H.
  - cbn. rewrite firstn_nil. reflexivity.
  - cbn [filterIndex]. destruct (Nat.eqb from index) eqn:E.
    + apply Nat.eqb_eq in E. subst index. rewrite Nat.sub_diag. cbn [firstn skipn app].
      clear IH H. revert from. induction rules as [|x rules IH]; intros from; [reflexivity|].
      cbn [filterIndex]. replace (Nat.eqb (S from) from) with false
        by (symmetry; apply Nat.eqb_neq; lia).
      f_equal.
      assert (G : forall l a b, (b < a)%nat -> filterIndex a b l = l).
      { induction l as [|y l IHl]; intros a b Hab; [reflexivity|].
        cbn [filterIndex]. replace (Nat.eqb a b) with false
          by (symmetry; apply Nat.eqb_neq; lia).
        f_equal. apply IHl. lia. }
      apply G. lia.
    + apply Nat.eqb_neq in E.
      replace (index - from)%nat with (S (index - S from)) by lia.
      cbn [firstn skipn app]. f_equal. apply IH. lia.
Qed.

(** X16: removing at an index takes out the rule at that place and no
    other, the order of the rest kept; an index past the end removes
    nothing; and removing the rule just added gives back the rules there
    were. *)
Theorem handleRemoveRule_at (index : nat) (ed : Editor) :
  localRules (handleRemoveRule index ed)
  = firstn index (localRules ed) ++ skipn (S index) (localRules ed)
  /\ ((List.length (localRules ed) <= index)%nat ->
      localRules (handleRemoveRule index ed) = localRules ed)
  /\ localRules (handleRemoveRule (List.length (localRules ed)) (handleAddRule ed))
     = localRules ed.
Proof.
  assert (E : forall i e, localRules (handleRemoveRule i e)
                          = firstn i (localRules e) ++ skipn (S i) (localRules e)).
  { intros i e. cbn [handleRemoveRule localRules].
    rewrite filterIndex_spec by lia. rewrite Nat.sub_0_r. reflexivity. }
  split; [apply E|]. split.
  - intros H. rewrite E, firstn_all2 by exact H.
    rewrite skipn_all2 by lia. apply app_nil_r.
  - rewrite E. unfold handleAddRule.
    destruct (isEmpty (JS.trim (newWord ed)) || isEmpty (JS.trim (newAlias ed))).
    + rewrite firstn_all, skipn_all2 by lia. apply app_nil_r.
    + cbn [localRules]. rewrite firstn_app, Nat.sub_diag, firstn_all. cbn [firstn].
      rewrite skipn_all2 by (rewrite length_app; cbn; lia).
      rewrite !app_nil_r. reflexivity.
Qed.

End Editor.

(** ** Voice sync *)

Section VoiceSync.

Import Sync.

Variable fetch : VoicesRequest -> reply VoicesResponse.

Lemma fetchVoices_tagged (request : VoicesRequest) (failure : jstr) (p : SvgProvider) :
  forall voices, fetchVoices fetch request failure p = Reply voices ->
    exists entries, voices = map (tagged p) entries.
Proof.
  unfold fetchVoices. intros voices.
  destruct (fetch request) as [res | m]; [|discriminate].
  destruct (voices_ok res); [|discriminate].
  destruct (voices_entries res) as [entries | m]; [|discriminate].
  intros H. injection H as <-. exists entries. reflexivity.
Qed.

(** X17: a sync ends with the syncing flag off and touches nothing but the
    voice list of the provider selected and the error: on success that
    list is replaced by the entries returned, in their order, each tagged
    with the provider, and the error is cleared; on any failure both lists
    stay as they were and the error reads "Sync Error: ...".  At most one
    request is sent, to the provider selected, with that provider's key. *)
Theorem syncExternalVoices_outcome (st : State) :
  let st' := fst (syncExternalVoices fetch st) in
  let sent := snd (syncExternalVoices fetch st) in
  isSyncingVoices st' = false
  /\ narrationProvider st' = narrationProvider st
  /\ elevenLabsKey st' = elevenLabsKey st
  /\ resembleKey st' = resembleKey st
  /\ sent = match usableKey st with Some request => [request] | None => [] end
  /\ ((error st' = None
       /\ exists entries,
            let voices := map (tagged (narrationProvider st)) entries in
            match narrationProvider st with
            | elevenlabs =>
                elevenLabsVoices st' = voices /\ resembleVoices st' = resembleVoices st
            | _ =>
                resembleVoices st' = voices /\ elevenLabsVoices st' = elevenLabsVoices st
            end)
      \/ (exists m, error st' = Some (lit "Sync Error: " ++ m)
                    /\ elevenLabsVoices st' = elevenLabsVoices st
                    /\ resembleVoices st' = resembleVoices st)).
Proof.
  cbn zeta. unfold syncExternalVoices, usableKey.
  destruct (narrationProvider st) eqn:P;
    destruct (elevenLabsKey st) as [|k ks] eqn:K;
    destruct (resembleKey st) as [|r rs] eqn:R;
    try (cbn; rewrite ?P, ?K, ?R; sync_split; right; eexists; sync_split; fail).
  all: match goal with
       | |- context [fetchVoices fetch ?q ?f ?p] =>
           pose proof (@fetchVoices_tagged q f p) as T;
           destruct (fetchVoices fetch q f p) as [voices | m]
       end;
       cbn; rewrite ?P, ?K, ?R; sync_split;
       [ left; split; [reflexivity|];
         destruct (T voices eq_refl) as [entries ->]; exists entries; sync_split
       | right; eexists; sync_split ].
Qed.

(** X18: without a key for the provider selected, or with the primary
    engine selected, a sync sends nothing and asks for the key by the
    provider's name. *)
Theorem syncExternalVoices_needs_key (st : State) :
  usableKey st = None ->
  syncExternalVoices fetch st
  = (finished st (elevenLabsVoices st) (resembleVoices st)
       (Some (lit "Sync Error: Please provide an API key for "
              ++ providerName (narrationProvider st) ++ lit " in Settings.")),
     []).
Proof.
  unfold usableKey, syncExternalVoices, syncError.
  destruct (narrationProvider st); destruct (elevenLabsKey st); destruct (resembleKey st);
    try discriminate; intros _; reflexivity.
Qed.

End VoiceSync.

(** ** Profiles and the primary engine *)

Section ProfileInUse.

Import Store.

(** X19: the profile just saved is the one the next run speaks with: unless
    an earlier profile has its id, every request to the primary engine
    carries its instruction before the chunk and names its base voice,
    while the clone services get the chunk alone. *)
Theorem saved_voice_in_use (json : JSON) (now : N) (voiceData : VoiceData)
    (st : State) (provider : SvgProvider) (language text chunk : jstr) :
  App.findVoice (customVoices st) (newVoiceId now) = None ->
  let studio :=
    studioOf (handleSaveCustomVoice json now voiceData st) provider language text in
  sentText (App.requestOf studio chunk)
  = (if App.isMpeg provider then []
     else lit "[Instruction: " ++ data_instruction voiceData ++ lit "] ") ++ chunk
  /\ (App.isMpeg provider = false ->
      App.requestOf studio chunk
      = GeminiRequest (App.targetModel provider)
          (lit "[Instruction: " ++ data_instruction voiceData ++ lit "] " ++ chunk)
          (data_baseVoice voiceData)).
Proof.
  intros H. cbn zeta.
  set (studio := studioOf (handleSaveCustomVoice json now voiceData st)
                   provider language text).
  assert (F : App.findVoice (App.customVoices studio) (App.selectedVoiceKey studio)
              = Some (newVoice now voiceData)).
  { unfold studio.
    cbn [studioOf App.customVoices App.selectedVoiceKey handleSaveCustomVoice
           customVoices selectedVoiceKey setIsCustomVoiceModalOpen setSelectedVoiceKey
           store setLocalStorage setCustomVoices].
    rewrite findVoice_app, H. unfold App.findVoice. cbn [find newVoice voice_id].
    rewrite jstr_eqb_refl. reflexivity. }
  assert (P : App.narrationProvider studio = provider) by reflexivity.
  unfold App.requestOf. rewrite P, F.
  destruct provider; cbn [App.isMpeg sentText App.instructionPrefix App.baseVoiceName
                            newVoice instruction baseVoice app];
    split; try reflexivity; try discriminate; intros _;
    rewrite <- ?app_assoc; reflexivity.
Qed.

End ProfileInUse.

(** ** PronunciationRewriter: rules the pattern reads as plain text *)

Section PlainRules.

Import Reference.

(** X20: for rules whose word is made of ASCII characters without pattern
    syntax, beginning and ending with a letter, digit or underscore, and
    whose alias has no substitution mark, rule application does not throw
    and its result is the one rewriting there is under the reading the
    pattern implements: each rule in list order, reading what the rule
    before it wrote, has its alias written as it is wherever its word
    stands, from left to right and without overlap, ASCII letter case
    ignored, with no ASCII letter, digit or underscore next to it. *)
Theorem applyRules_plain_rules (text : jstr) (rules : list PronunciationRule) :
  forallb plainRule rules = true ->
  exists out,
    applyRules text rules = Some (Ok out)
    /\ RewrittenBy regexReading rules text out
    /\ forall out', RewrittenBy regexReading rules text out' -> out' = out.
Proof.
  intros H. destruct (applyRules_plain H text) as [out [E R]].
  exists out. split; [exact E|]. split; [exact R|].
  intros out' R'. exact (RewrittenBy_functional (plainRule_words H) R' R).
Qed.

End PlainRules.

(** ** Instances of the further properties *)

Section MoreInstances.

Lemma generateNarration_outcome_witness :
  App.isGenerating (App.failed (Error (lit "quota exceeded"))
                      [TranslateRequest App.TRANSLATION_MODEL
                         (App.translationPrompt (lit "French (FR)") (lit "Hello."))])
  = false
  /\ (App.error (App.failed (Error (lit "quota exceeded"))
                   [TranslateRequest App.TRANSLATION_MODEL
                      (App.translationPrompt (lit "French (FR)") (lit "Hello."))])
      = None
      <-> App.audioUrl (App.failed (Error (lit "quota exceeded"))
                         [TranslateRequest App.TRANSLATION_MODEL
                            (App.translationPrompt (lit "French (FR)") (lit "Hello."))])
          <> None).
Proof.
  apply (@generateNarration_outcome translationDown
           (studio gemini_2_5_tts (lit "French (FR)") (lit "Hello.") [])).
  vm_compute. reflexivity.
Defined.

Lemma produce_in_order_witness :
  App.produce allAnswered
    (studio elevenlabs App.DEFAULT_LANGUAGE (hellos 1000) []) (hellos 1000)
  = Some {| App.isGenerating := false;
            App.error := None;
            App.audioUrl :=
              Some (master (studio elevenlabs App.DEFAULT_LANGUAGE (hellos 1000) [])
                      (List.concat
                         (audioOf allAnswered
                            (studio elevenlabs App.DEFAULT_LANGUAGE (hellos 1000) [])
                            (JS.includes (hellos 1000) App.SPEAK_OPEN) O
                            [helloChunk 427; helloChunk 427; helloChunk 143])));
            App.requests :=
              [] ++ map (dispatch
                           (studio elevenlabs App.DEFAULT_LANGUAGE (hellos 1000) [])
                           (JS.includes (hellos 1000) App.SPEAK_OPEN))
                      [helloChunk 427; helloChunk 427; helloChunk 143] |}.
Proof.
  apply (@produce_in_order allAnswered
           (studio elevenlabs App.DEFAULT_LANGUAGE (hellos 1000) [])
           (hellos 1000) (hellos 1000) []
           [helloChunk 427; helloChunk 427; helloChunk 143]).
  - reflexivity.
  - vm_compute. reflexivity.
  - intros j c Hj. exists (Some [Byte.x01]). reflexivity.
Defined.

Lemma produce_without_translation_witness :
  App.produce (withTranslation (fun _ _ => Fails (lit "down")) noAudio)
    (studio gemini_2_5_tts App.DEFAULT_LANGUAGE (lit "Hello.") []) (lit "Hello.")
  = App.produce noAudio
      (studio gemini_2_5_tts App.DEFAULT_LANGUAGE (lit "Hello.") []) (lit "Hello.").
Proof.
  apply (@produce_without_translation noAudio
           (studio gemini_2_5_tts App.DEFAULT_LANGUAGE (lit "Hello.") [])
           (fun _ _ => Fails (lit "down")) (lit "Hello.")).
  reflexivity.
Defined.

Lemma requests_bounded_witness :
  exists run,
    App.produce allAnswered
      (studio gemini_2_5_tts (lit "French (FR)") (lit "Hello.") []) (lit "Hello.")
    = Some run
    /\ map isTranslateRequest (App.requests run) = [true; false; false; false]
    /\ Forall (fun r =>
                 if isTranslateRequest r
                 then sentText r = App.translationPrompt (lit "French (FR)") (lit "Hello.")
                 else jlen (sentText r)
                      <= jlen (promptPrefix
                                 (studio gemini_2_5_tts (lit "French (FR)") (lit "Hello.") []))
                         + WRAPPED_MAX_CHARS)
         (App.requests run).
Proof.
  eexists. split; [vm_compute; reflexivity|]. split; [reflexivity|].
  apply (@requests_bounded allAnswered
           (studio gemini_2_5_tts (lit "French (FR)") (lit "Hello.") []) (lit "Hello.")).
  vm_compute. reflexivity.
Defined.

Lemma applyRules_plain_rules_witness :
  forallb plainRule [rule "Gemini" "Jeminai"; rule "fee" "$5"] = true
  /\ exists out,
       applyRules (lit "Ask GEMINI about the Geminis fee.")
         [rule "Gemini" "Jeminai"; rule "fee" "$5"]
       = Some (Ok out)
       /\ Reference.RewrittenBy regexReading [rule "Gemini" "Jeminai"; rule "fee" "$5"]
            (lit "Ask GEMINI about the Geminis fee.") out.
Proof.
  assert (H : forallb plainRule [rule "Gemini" "Jeminai"; rule "fee" "$5"] = true)
    by reflexivity.
  split; [exact H|].
  destruct (@applyRules_plain_rules (lit "Ask GEMINI about the Geminis fee.")
              [rule "Gemini" "Jeminai"; rule "fee" "$5"] H) as [out [E [R _]]].
  exists out. split; [exact E | exact R].
Defined.

(** The rules of the instance at work. *)
Example plain_rules_at_work :
  applyRules (lit "Ask GEMINI about the Geminis fee.")
    [rule "Gemini" "Jeminai"; rule "fee" "$5"]
  = Some (Ok (lit "Ask Jeminai about the Geminis $5.")).
Proof. vm_compute. reflexivity. Qed.

Lemma single_request_witness :
  AppSingle.requests
    (AppSingle.failed (Error (lit "No audio returned"))
       [GeminiRequest AppSingle.TTS_MODEL (hellos 1000) []])
  = [GeminiRequest AppSingle.TTS_MODEL (hellos 1000) []].
Proof.
  assert (K : lit "key" <> []) by discriminate.
  apply (proj2 (proj2 (proj2 (@single_request noAudio
           {| AppSingle.geminiKey := lit "key";
              AppSingle.narrationText := hellos 1000;
              AppSingle.pronunciationRules := [];
              AppSingle.previousAudioUrl := None |}
           (AppSingle.failed (Error (lit "No audio returned"))
              [GeminiRequest AppSingle.TTS_MODEL (hellos 1000) []])
           eq_refl) K))).
  reflexivity.
Defined.

Lemma playback_gapless_witness :
  exists s' effects,
    Duplex.scheduleAll
      [(1%Q, second 24000, 1%nat); ((3 # 2)%Q, second 12000, 2%nat);
       (2%Q, second 24000, 3%nat); ((7 # 2)%Q, second 6000, 4%nat)]
      (Duplex.startSession (Reply 7%nat) Duplex.initial)
    = Some (s', effects)
    /\ Forall2 startedAt effects
         (backToBack 1%Q [second 24000; second 12000; second 24000; second 6000])
    /\ (Duplex.nextStartTimeRef s'
        == playedUntil 1 [second 24000; second 12000; second 24000; second 6000])%Q.
Proof.
  apply (@playback_gapless (Duplex.startSession (Reply 7%nat) Duplex.initial)
           24000%positive 1%Q (second 24000) 1%nat
           [((3 # 2)%Q, second 12000, 2%nat); (2%Q, second 24000, 3%nat);
            ((7 # 2)%Q, second 6000, 4%nat)]).
  - reflexivity.
  - apply Qle_bool_imp_le. reflexivity.
  - cbn [timely]. repeat split; apply Qle_bool_imp_le; reflexivity.
Defined.

Lemma importVoices_twice_witness :
  Store.customVoices
    (Store.importVoices twoProfiles (lit "file")
       (Store.importVoices twoProfiles (lit "file")
          (Store.setCustomVoices [sampleVoice "custom-2"] (Store.mounted emptyStorage))))
  = Store.customVoices
      (Store.importVoices twoProfiles (lit "file")
         (Store.setCustomVoices [sampleVoice "custom-2"] (Store.mounted emptyStorage))).
Proof.
  apply (@importVoices_twice twoProfiles (lit "file")
           (Store.setCustomVoices [sampleVoice "custom-2"] (Store.mounted emptyStorage))).
  discriminate.
Defined.

Lemma editor_keeps_rules_clean_witness :
  Forall cleanRule
    (PronunciationModal.localRules
       (fold_left (fun ed a => PronunciationModal.act a ed)
          [PronunciationModal.TypeWord (lit "  Gemini ");
           PronunciationModal.TypeAlias (lit "Jeminai ");
           PronunciationModal.AddRule;
           PronunciationModal.TypeWord (lit "   ");
           PronunciationModal.TypeAlias (lit "x");
           PronunciationModal.AddRule]
          (PronunciationModal.opened []))).
Proof.
  apply (@editor_keeps_rules_clean plainJSON [] _ (Store.mounted emptyStorage)).
  constructor.
Defined.

Lemma syncExternalVoices_needs_key_witness :
  Sync.syncExternalVoices (fun _ => Fails (lit "offline")) geminiSync
  = (Sync.finished geminiSync [] []
       (Some (lit "Sync Error: Please provide an API key for "
              ++ Sync.providerName gemini_3_pro ++ lit " in Settings.")),
     []).
Proof.
  apply (@syncExternalVoices_needs_key (fun _ => Fails (lit "offline")) geminiSync).
  reflexivity.
Defined.

Lemma saved_voice_in_use_witness :
  App.requestOf
    (studioOf
       (Store.handleSaveCustomVoice plainJSON 1700000000000%N
          {| Store.data_name := lit "Narrator";
             Store.data_instruction := lit "slow and low";
             Store.data_baseVoice := lit "Kore" |}
          (Store.mounted emptyStorage))
       gemini_3_pro App.DEFAULT_LANGUAGE (lit "Hello."))
    (lit "Hello.")
  = GeminiRequest (App.targetModel gemini_3_pro)
      (lit "[Instruction: " ++ lit "slow and low" ++ lit "] " ++ lit "Hello.")
      (lit "Kore").
Proof.
  apply (proj2 (@saved_voice_in_use plainJSON 1700000000000%N
           {| Store.data_name := lit "Narrator";
              Store.data_instruction := lit "slow and low";
              Store.data_baseVoice := lit "Kore" |}
           (Store.mounted emptyStorage) gemini_3_pro App.DEFAULT_LANGUAGE
           (lit "Hello.") (lit "Hello.") eq_refl)).
  reflexivity.
Defined.

End MoreInstances.
